(** * Fleet: live-query campaign streaming and NVD vulnerability matching

    A shallow embedding of

    - [server/service/service_campaigns.go]: [StreamCampaignResults], the
      websocket handler that streams the results of a live query campaign;
    - the [nvd] package as its test file exercises it: the table [cvetests],
      the datastore mock and the feed synchronisation scenario.

    Go's [uint] is taken at 64 bits.  Log statements write to the service
    logger only and are left out of the traces. *)

From Stdlib Require Import ZArith NArith Lia String Ascii List DecimalString.
From stdpp Require Import base decidable option list gmap strings fin_maps.
Import ListNotations.

Local Open Scope string_scope.
Local Open Scope list_scope.
Local Open Scope N_scope.

(** ** Go's machine integers and [%d] *)

Definition uint : Type := N.

Definition uint_modulus : N := 2 ^ 64.

(** [x++] on a [uint]: wraps around at the modulus. *)
Definition uint_incr (x : uint) : uint := (x + 1) mod uint_modulus.

(** [fmt.Sprintf("%d", n)] for a non-negative integer. *)
Definition sprint_d (n : N) : string := NilZero.string_of_uint (N.to_uint n).

(** ** Lists whose neighbours are related *)

(** [linked R x l]: every element of [x :: l] is related to the next one. *)
Fixpoint linked {A : Type} (R : A -> A -> Prop) (x : A) (l : list A) : Prop :=
  match l with
  | [] => True
  | y :: l' => R x y /\ linked R y l'
  end.

(** ** server/service/service_campaigns.go *)

Module Campaigns.

Record targetTotals : Type := {
  Total : uint;
  Online : uint;
  Offline : uint;
  MissingInAction : uint
}.

Definition campaignStatusPending : string := "pending".
Definition campaignStatusFinished : string := "finished".

Record campaignStatus : Type := {
  ExpectedResults : uint;
  ActualResults : uint;
  Status : string
}.

#[global] Instance targetTotals_eq_dec : EqDecision targetTotals.
Proof. solve_decision. Defined.

#[global] Instance campaignStatus_eq_dec : EqDecision campaignStatus.
Proof. solve_decision. Defined.

(** Errors are carried by their [Error()] text. *)
Definition error : Type := string.

(** [fleet.DistributedQueryCampaign], the fields the handler reads. *)
Record DistributedQueryCampaign : Type := {
  ID : uint;
  QueryID : uint;
  UserID : uint
}.

(** [viewer.Viewer] with its [User.ID]. *)
Record Viewer : Type := { User_ID : uint }.

(** [fleet.TargetMetrics], the fields the handler reads. *)
Record TargetMetrics : Type := {
  TotalHosts : uint;
  OnlineHosts : uint;
  OfflineHosts : uint;
  MissingInActionHosts : uint
}.

(** A row of a result is a [map[string]string]; a [nil] row is [None]. *)
Record DistributedQueryResult : Type := {
  DistributedQueryCampaignID : uint;
  HostID : uint;
  Hostname : string;
  HostDisplayName : string;
  Rows : list (option (gmap string string))
}.

(** What [conn.WriteJSONMessage] is given as data. *)
Inductive payload : Type :=
| Totals (t : targetTotals)
| StatusOf (s : campaignStatus)
| Result (r : DistributedQueryResult).

(** What the handler does that the outside can see, in order. *)
Inductive event : Type :=
| WriteJSONError (msg : string)
| WriteJSONMessage (typ : string) (data : payload)
| GetCampaignReader (c : DistributedQueryCampaign)
| CompleteCampaign (c : DistributedQueryCampaign)
| cancelFunc
| tickerStop.

(** The error a write on the connection returns, by its cause. *)
Inductive connError : Type :=
| ErrSessionNotOpen
| ErrOther (msg : string).

Inductive SessionState : Type :=
| SessionOpening
| SessionActive
| SessionClosing
| SessionClosed.

#[global] Instance SessionState_eq_dec : EqDecision SessionState.
Proof. solve_decision. Defined.

(** What the service's collaborators answer for one call of the handler. *)
Record deps : Type := {
  (** [svc.authz.Authorize]: [None] is a nil error. *)
  Authorize : option error;
  (** [viewer.FromContext]: [None] when the context holds no viewer. *)
  FromContext : option Viewer;
  (** [svc.ds.DistributedQueryCampaign]. *)
  lookupCampaign : uint -> error + DistributedQueryCampaign;
  (** [svc.GetCampaignReader]: the channel itself is the list of inputs. *)
  openReader : DistributedQueryCampaign -> option error;
  (** [svc.ds.DistributedQueryCampaignTargetIDs]: the targets are only
      passed on to the count of hosts. *)
  DistributedQueryCampaignTargetIDs : uint -> option error
}.

(** What one call of [updateStatus] meets: the answer of
    [svc.CountHostsInTargets] and the outcome of the totals and status
    writes it may make.  The write that reports a counting error changes
    only which error is returned, so its outcome is not needed. *)
Record updateEnv : Type := {
  CountHostsInTargets : error + TargetMetrics;
  totalsWrite : option connError;
  statusWrite : option connError
}.

(** A value received from [readChan], by the arms of the type switch. *)
Inductive chanValue : Type :=
| ChanResult (res : DistributedQueryResult)
| ChanError (e : error)
| ChanOther.

(** One round of the [select]: a value on [readChan] together with the
    outcome of the write it causes, or a tick together with the session
    state and what [updateStatus] meets. *)
Inductive input : Type :=
| FromReadChan (v : chanValue) (w : option connError)
| FromTicker (state : SessionState) (u : updateEnv).

(** The variables [status], [lastStatus] and [lastTotals] the closures share. *)
Record locals : Type := {
  status : campaignStatus;
  lastStatus : campaignStatus;
  lastTotals : targetTotals
}.

Definition mapHostnameRows (res : DistributedQueryResult) : DistributedQueryResult :=
  let filteredRows :=
    omap (fun row : option (gmap string string) =>
            match row with
            | None => None
            | Some m =>
                Some (Some (<["host_display_name" := HostDisplayName res]>
                             (<["host_hostname" := Hostname res]> m)))
            end) (Rows res) in
  {| DistributedQueryCampaignID := DistributedQueryCampaignID res;
     HostID := HostID res;
     Hostname := Hostname res;
     HostDisplayName := HostDisplayName res;
     Rows := filteredRows |}.

Definition set_status (l : locals) (s : campaignStatus) : locals :=
  {| status := s; lastStatus := lastStatus l; lastTotals := lastTotals l |}.

Definition set_lastStatus (l : locals) (s : campaignStatus) : locals :=
  {| status := status l; lastStatus := s; lastTotals := lastTotals l |}.

Definition set_lastTotals (l : locals) (t : targetTotals) : locals :=
  {| status := status l; lastStatus := lastStatus l; lastTotals := t |}.

(** The closure [updateStatus]: the new locals, the writes made and
    whether it returned an error. *)
Definition updateStatus (u : updateEnv) (l : locals) : locals * list event * bool :=
  match CountHostsInTargets u with
  | inl err =>
      (l, [WriteJSONError ("error retrieving target counts: " +:+ err)], true)
  | inr metrics =>
      let totals := {| Total := TotalHosts metrics;
                       Online := OnlineHosts metrics;
                       Offline := OfflineHosts metrics;
                       MissingInAction := MissingInActionHosts metrics |} in
      let '(l1, w1, e1) :=
        if decide (lastTotals l = totals) then (l, [], None)
        else (set_lastTotals l totals,
              [WriteJSONMessage "totals" (Totals totals)], totalsWrite u) in
      match e1 with
      | Some _ => (l1, w1, true)
      | None =>
          let s1 := {| ExpectedResults := Online totals;
                       ActualResults := ActualResults (status l1);
                       Status := Status (status l1) |} in
          let s2 := if ExpectedResults s1 <=? ActualResults s1
                    then {| ExpectedResults := ExpectedResults s1;
                            ActualResults := ActualResults s1;
                            Status := campaignStatusFinished |}
                    else s1 in
          let l2 := set_status l1 s2 in
          if decide (lastStatus l2 = s2) then (l2, w1, false)
          else (set_lastStatus l2 s2,
                w1 ++ [WriteJSONMessage "status" (StatusOf s2)],
                bool_decide (is_Some (statusWrite u)))
      end
  end.

(** One round of the [for { select { ... } }] loop: the new locals, the
    writes made and whether the handler returns. *)
Definition loopStep (l : locals) (i : input) : locals * list event * bool :=
  match i with
  | FromReadChan (ChanResult res) w =>
      let wr := [WriteJSONMessage "result" (Result (mapHostnameRows res))] in
      match w with
      | Some ErrSessionNotOpen => (l, wr, true)
      | _ =>
          let s := status l in
          (set_status l {| ExpectedResults := ExpectedResults s;
                           ActualResults := uint_incr (ActualResults s);
                           Status := Status s |}, wr, false)
      end
  | FromReadChan (ChanError e) _ =>
      (l, [WriteJSONError ("received pubsub error: " +:+ e)], false)
  | FromReadChan ChanOther _ => (l, [], false)
  | FromTicker state u =>
      if decide (state = SessionClosed) then (l, [], true)
      else updateStatus u l
  end.

(** Whether the handler has returned or still waits in its [select]. *)
Inductive outcome : Type := Returned | Waiting.

(** The loop over the inputs that arrive: the locals and the writes after
    each round, up to the round in which the handler returns. *)
Fixpoint loop (l : locals) (inputs : list input)
  : list (locals * list event) * outcome :=
  match inputs with
  | [] => ([], Waiting)
  | i :: rest =>
      let '(l', w, ret) := loopStep l i in
      if ret : bool then ([(l', w)], Returned)
      else let '(t, o) := loop l' rest in ((l', w) :: t, o)
  end.

(** What a call of the handler leaves behind: the events in order, the
    successive values of the variable [status] from its declaration on,
    and whether the handler returned. *)
Record run : Type := {
  events : list event;
  statuses : list campaignStatus;
  result : outcome
}.

Definition returns (evs : list event) : run :=
  {| events := evs; statuses := []; result := Returned |}.

Section Handler.

(** [authz.ForbiddenErrorMessage], declared in [server/authz]. *)
Variable ForbiddenErrorMessage : string.

Definition initialLocals : locals :=
  let st := {| ExpectedResults := 0; ActualResults := 0;
               Status := campaignStatusPending |} in
  {| status := st;
     lastStatus := st;
     lastTotals := {| Total := 0; Online := 0; Offline := 0;
                      MissingInAction := 0 |} |}.

(** The deferred calls, last registered first. *)
Definition deferred (campaign : DistributedQueryCampaign) (ticker : bool)
  : list event :=
  (if ticker then [tickerStop] else []) ++ [CompleteCampaign campaign; cancelFunc].

Definition StreamCampaignResults (d : deps) (campaignID : uint)
    (u0 : updateEnv) (inputs : list input) : run :=
  match Authorize d with
  | Some _ => returns [WriteJSONError ForbiddenErrorMessage]
  | None =>
  match FromContext d with
  | None => returns [WriteJSONError ForbiddenErrorMessage]
  | Some vc =>
  match lookupCampaign d campaignID with
  | inl _ =>
      returns [WriteJSONError ("cannot find campaign for ID " +:+ sprint_d campaignID)]
  | inr campaign =>
  if decide (UserID campaign = User_ID vc) then
    match openReader d campaign with
    | Some err =>
        returns [GetCampaignReader campaign;
                 WriteJSONError ("error getting campaign reader: " +:+ err)]
    | None =>
    let l0 := initialLocals in
    match DistributedQueryCampaignTargetIDs d (ID campaign) with
    | Some err =>
        {| events := [GetCampaignReader campaign;
                      WriteJSONError ("error retrieving campaign targets: " +:+ err)]
                     ++ deferred campaign false;
           statuses := [status l0];
           result := Returned |}
    | None =>
    let '(l1, w1, failed) := updateStatus u0 l0 in
    if failed : bool then
      {| events := GetCampaignReader campaign :: w1 ++ deferred campaign false;
         statuses := [status l0; status l1];
         result := Returned |}
    else
      let '(t, o) := loop l1 inputs in
      {| events := GetCampaignReader campaign :: w1 ++ concat (map snd t)
                   ++ match o with
                      | Returned => deferred campaign true
                      | Waiting => []
                      end;
         statuses := status l0 :: status l1 :: map (fun x => status (fst x)) t;
         result := o |}
    end
    end
  else returns [WriteJSONError ForbiddenErrorMessage]
  end
  end
  end.

End Handler.

(** What one step may do to the status of the campaign: it stays finished
    once finished, it becomes finished only with the actual results at or
    above the expected ones, and it holds no third value. *)
Definition advances (s s' : campaignStatus) : Prop :=
  (Status s = campaignStatusFinished -> Status s' = campaignStatusFinished)
  /\ (Status s = campaignStatusPending ->
      Status s' = campaignStatusFinished ->
      ExpectedResults s' <= ActualResults s')
  /\ (Status s = campaignStatusPending \/ Status s = campaignStatusFinished ->
      Status s' = campaignStatusPending \/ Status s' = campaignStatusFinished).

(** A write on the connection, as opposed to a call on the service. *)
Definition is_write (e : event) : bool :=
  match e with
  | WriteJSONError _ | WriteJSONMessage _ _ => true
  | _ => false
  end.

(** The totals and the statuses written on the connection, in order. *)
Definition totals_written (evs : list event) : list targetTotals :=
  omap (fun e => match e with
                 | WriteJSONMessage _ (Totals t) => Some t
                 | _ => None
                 end) evs.

Definition statuses_written (evs : list event) : list campaignStatus :=
  omap (fun e => match e with
                 | WriteJSONMessage _ (StatusOf s) => Some s
                 | _ => None
                 end) evs.

Definition is_result (e : event) : bool :=
  match e with WriteJSONMessage _ (Result _) => true | _ => false end.

Definition is_status (e : event) : bool :=
  match e with WriteJSONMessage _ (StatusOf _) => true | _ => false end.

(** A result received from the channel that the loop counts: every one
    but the one whose write finds the session not open. *)
Definition counted (i : input) : bool :=
  match i with
  | FromReadChan (ChanResult _) (Some ErrSessionNotOpen) => false
  | FromReadChan (ChanResult _) _ => true
  | _ => false
  end.

(** The writes of the loop, in order. *)
Definition loop_events (l : locals) (inputs : list input) : list event :=
  concat (map snd (loop l inputs).1).

(** Whether every result in a list of events comes after a status. *)
Fixpoint status_first (seen : bool) (evs : list event) : bool :=
  match evs with
  | [] => true
  | e :: rest =>
      if is_result e then seen && status_first seen rest
      else status_first (seen || is_status e) rest
  end.

(** The number of inputs the loop counts among those it has processed. *)
Definition results_counted (inputs : list input) (rounds : nat) : N :=
  N.of_nat (length (filter (fun i => counted i = true) (take rounds inputs))).

(** A row with the hostname and the display name of the host added. *)
Definition with_host (res : DistributedQueryResult) (m : gmap string string)
  : gmap string string :=
  <["host_display_name" := HostDisplayName res]>
    (<["host_hostname" := Hostname res]> m).

(** *** A session to run the handler on *)

(** The campaign was started by user 1; [viewerID] opens the stream. *)
Definition demoDeps (viewerID : uint) : deps :=
  {| Authorize := None;
     FromContext := Some {| User_ID := viewerID |};
     lookupCampaign := fun id => inr {| ID := id; QueryID := 5; UserID := 1 |};
     openReader := fun _ => None;
     DistributedQueryCampaignTargetIDs := fun _ => None |}.

(** [n] hosts are targeted and online, and every write succeeds. *)
Definition demoUpdate (n : uint) : updateEnv :=
  {| CountHostsInTargets := inr {| TotalHosts := n; OnlineHosts := n;
                          OfflineHosts := 0; MissingInActionHosts := 0 |};
     totalsWrite := None;
     statusWrite := None |}.

Definition demoResult : DistributedQueryResult :=
  {| DistributedQueryCampaignID := 7;
     HostID := 3;
     Hostname := "db-1";
     HostDisplayName := "db-1.local";
     Rows := [None; Some {["uid" := "0"]}] |}.

(** One host answers, then the ticker fires. *)
Definition demoInputs : list input :=
  [FromReadChan (ChanResult demoResult) None;
   FromTicker SessionActive (demoUpdate 1)].

(** The same, after which the client closes the session. *)
Definition demoClosed : list input :=
  demoInputs ++ [FromTicker SessionClosed (demoUpdate 1)].

(** The campaign of the session. *)
Definition demoCampaign : DistributedQueryCampaign :=
  {| ID := 7; QueryID := 5; UserID := 1 |}.

(** *** What a round of the loop does to the stream *)

(** The totals [updateStatus] builds from the metrics. *)
Definition totals_of (metrics : TargetMetrics) : targetTotals :=
  {| Total := TotalHosts metrics; Online := OnlineHosts metrics;
     Offline := OfflineHosts metrics;
     MissingInAction := MissingInActionHosts metrics |}.

(** The variables as a call of [updateStatus] that returns no error leaves
    them: the totals and the status are the last ones written, the status
    expects the online hosts and is finished when they have all answered. *)
Definition settled (metrics : TargetMetrics) (l : locals) : Prop :=
  lastTotals l = totals_of metrics
  /\ ExpectedResults (status l) = OnlineHosts metrics
  /\ ((ExpectedResults (status l) <=? ActualResults (status l)) = true ->
      Status (status l) = campaignStatusFinished)
  /\ lastStatus l = status l.

(** An input after which the loop goes on whatever its variables hold: a
    value from the channel whose write did not find the session not open,
    or a tick on a session that is not closed in which the hosts are
    counted and no write fails. *)
Definition goes_on (i : input) : bool :=
  match i with
  | FromReadChan (ChanResult _) (Some ErrSessionNotOpen) => false
  | FromReadChan _ _ => true
  | FromTicker state u =>
      bool_decide (state <> SessionClosed)
      && match CountHostsInTargets u with inl _ => false | inr _ => true end
      && match totalsWrite u with None => true | Some _ => false end
      && match statusWrite u with None => true | Some _ => false end
  end.

(** An input that ends the loop whatever its variables hold: a result
    whose write finds the session not open, a tick on a closed session, or
    a tick in which the hosts cannot be counted. *)
Definition ends_loop (i : input) : bool :=
  match i with
  | FromReadChan (ChanResult _) (Some ErrSessionNotOpen) => true
  | FromReadChan _ _ => false
  | FromTicker state u =>
      bool_decide (state = SessionClosed)
      || match CountHostsInTargets u with inl _ => true | inr _ => false end
  end.

(** What the round of such an input writes. *)
Definition last_writes (i : input) : list event :=
  match i with
  | FromReadChan (ChanResult res) _ =>
      [WriteJSONMessage "result" (Result (mapHostnameRows res))]
  | FromReadChan _ _ => []
  | FromTicker state u =>
      if decide (state = SessionClosed) then []
      else match CountHostsInTargets u with
           | inl err =>
               [WriteJSONError ("error retrieving target counts: " +:+ err)]
           | inr _ => []
           end
  end.

(** The results received from the channel, and the results written on the
    connection, in order. *)
Definition results_received (inputs : list input) : list DistributedQueryResult :=
  omap (fun i => match i with
                 | FromReadChan (ChanResult res) _ => Some res
                 | _ => None
                 end) inputs.

Definition results_written (evs : list event) : list DistributedQueryResult :=
  omap (fun e => match e with
                 | WriteJSONMessage _ (Result res) => Some res
                 | _ => None
                 end) evs.

(** The online count of the latest totals in a list of events, [online]
    when it holds none. *)
Definition online_after (online : uint) (evs : list event) : uint :=
  default online (Online <$> last (totals_written evs)).

(** Whether every status in a list of events expects the online count of
    the latest totals before it, [online] when none comes before. *)
Fixpoint expected_tracks (online : uint) (evs : list event) : bool :=
  match evs with
  | [] => true
  | WriteJSONMessage _ (Totals t) :: rest => expected_tracks (Online t) rest
  | WriteJSONMessage _ (StatusOf s) :: rest =>
      (ExpectedResults s =? online) && expected_tracks online rest
  | _ :: rest => expected_tracks online rest
  end.

(** The client has closed the session. *)
Definition closedTick : input := FromTicker SessionClosed (demoUpdate 1).

(** The hosts are counted, and the write of the status fails. *)
Definition brokenTick : input :=
  FromTicker SessionActive
    {| CountHostsInTargets := CountHostsInTargets (demoUpdate 1);
       totalsWrite := None;
       statusWrite := Some (ErrOther "broken pipe") |}.

End Campaigns.

(** ** The NVD package: CPE matching, reconciliation, feed synchronisation

    The sources hold the package's test file only.  The matcher, the
    reconciler and the synchroniser are modelled from the specification;
    the table [cvetests], the datastore doubles and the feed server of the
    tests are taken from the test file. *)

Module NVD.

Definition error : Type := string.

(** *** Data model *)

(** Modelled from the spec: the declaration of the parsed CPE is missing
    from the sources.  These are the attributes of the data model, in the
    order of the formatted string. *)
Record CPEIdentifier : Type := {
  part : string;
  vendor : string;
  product : string;
  version : string;
  update : string;
  edition : string;
  language : string;
  sw_edition : string;
  target_sw : string;
  target_hw : string;
  other : string
}.

(** The fields of a string between the occurrences of [sep]. *)
Fixpoint split_on (sep : ascii) (s : string) : list string :=
  match s with
  | EmptyString => [EmptyString]
  | String c rest =>
      if Ascii.eqb c sep then EmptyString :: split_on sep rest
      else match split_on sep rest with
           | [] => [String c EmptyString]
           | f :: fs => String c f :: fs
           end
  end.

(** Modelled from the spec: the CPE parser is missing from the sources.
    A formatted string is [cpe:2.3:] followed by the eleven attributes of
    the data model, separated by colons; quoting of colons inside an
    attribute is not modelled.  Anything else is unparsable. *)
Definition parseCPE (s : string) : option CPEIdentifier :=
  match split_on ":" s with
  | [c; v; a1; a2; a3; a4; a5; a6; a7; a8; a9; a10; a11] =>
      if (c =? "cpe")%string && (v =? "2.3")%string then
        Some {| part := a1; vendor := a2; product := a3; version := a4;
                update := a5; edition := a6; language := a7;
                sw_edition := a8; target_sw := a9; target_hw := a10;
                other := a11 |}
      else None
  | _ => None
  end.

(** Modelled from the spec: the declarations of the feed records are
    missing from the sources.  A range has a start and an end, each
    inclusive or exclusive; this is one end. *)
Record bound : Type := {
  bound_version : string;
  inclusive : bool
}.

(** Modelled from the spec: the closed set of rule kinds, an exact
    version, a range with optional start and end, or any version. *)
Inductive versionSpec : Type :=
| ExactVersion (v : string)
| VersionRange (start stop : option bound)
| AnyVersion.

(** Modelled from the spec: a match rule names vendor, product and
    target_sw, the versions it covers and whether they are vulnerable. *)
Record MatchRule : Type := {
  rule_vendor : string;
  rule_product : string;
  rule_target_sw : string;
  versions : versionSpec;
  vulnerable : bool
}.

#[global] Instance bound_eq_dec : EqDecision bound.
Proof. solve_decision. Defined.

#[global] Instance versionSpec_eq_dec : EqDecision versionSpec.
Proof. solve_decision. Defined.

#[global] Instance MatchRule_eq_dec : EqDecision MatchRule.
Proof. solve_decision. Defined.

(** Modelled from the spec: a vulnerability record is a CVE ID with its
    match rules. *)
Record VulnerabilityRecord : Type := {
  cve_id : string;
  rules : list MatchRule
}.

(** Modelled from the spec: the feed index is a dictionary keyed by
    vendor and product; it holds the match rules, each with its CVE. *)
Abbreviation Index := (gmap (string * string) (list (string * MatchRule))).

Definition rule_key (r : MatchRule) : string * string :=
  (rule_vendor r, rule_product r).

Definition candidates (idx : Index) (k : string * string) : list (string * MatchRule) :=
  default [] (idx !! k).

Definition add_rule (cve : string) (idx : Index) (r : MatchRule) : Index :=
  <[rule_key r := candidates idx (rule_key r) ++ [(cve, r)]]> idx.

Definition add_record (idx : Index) (rec : VulnerabilityRecord) : Index :=
  foldl (add_rule (cve_id rec)) idx (rules rec).

(** Modelled from the spec: the index builder is missing from the sources.
    It groups the match rules of the parsed records by vendor and product,
    in feed order. *)
Definition build (feed : list VulnerabilityRecord) : Index :=
  foldl add_record ∅ feed.

(** *** The matcher *)

Definition is_wildcard (s : string) : bool :=
  (s =? "*")%string || (s =? "")%string.

Definition lower_ascii (c : ascii) : ascii :=
  let n := N_of_ascii c in
  if (65 <=? n) && (n <=? 90) then ascii_of_N (n + 32) else c.

Fixpoint to_lower (s : string) : string :=
  match s with
  | EmptyString => EmptyString
  | String c rest => String (lower_ascii c) (to_lower rest)
  end.

(** Modelled from the spec: step 2 of the matcher.  A rule's target_sw of
    ["*"] or empty matches any CPE target_sw, the CPE's own ["*"] or empty
    target_sw matches any rule, otherwise the two are compared without
    regard to case. *)
Definition target_sw_matches (rule_sw cpe_sw : string) : bool :=
  is_wildcard rule_sw || is_wildcard cpe_sw
  || (to_lower rule_sw =? to_lower cpe_sw)%string.

(** A version that names one build: not empty, not ["*"], not ["-"]. *)
Definition concrete (v : string) : bool :=
  negb ((v =? "")%string || (v =? "*")%string || (v =? "-")%string).

Section Matcher.

(** The order on version strings the range bounds are read in. *)
Variable vercmp : string -> string -> comparison.

Definition above_start (v : string) (start : option bound) : bool :=
  match start with
  | None => true
  | Some b =>
      match vercmp (bound_version b) v with
      | Lt => true
      | Eq => inclusive b
      | Gt => false
      end
  end.

Definition below_stop (v : string) (stop : option bound) : bool :=
  match stop with
  | None => true
  | Some b =>
      match vercmp v (bound_version b) with
      | Lt => true
      | Eq => inclusive b
      | Gt => false
      end
  end.

(** Modelled from the spec: step 3 of the matcher, the version test.  An
    unpinned CPE (version ["-"]) passes every rule.  A concrete version
    passes a rule that names it or whose range encloses it.  An empty or
    ["*"] version passes only a rule for any version. *)
Definition version_test (cpe_version : string) (vs : versionSpec) : bool :=
  if (cpe_version =? "-")%string then true
  else match vs with
       | AnyVersion => true
       | ExactVersion v => concrete cpe_version && (cpe_version =? v)%string
       | VersionRange start stop =>
           concrete cpe_version && above_start cpe_version start
           && below_stop cpe_version stop
       end.

(** Modelled from the spec: a rule applies to a CPE when it is flagged
    vulnerable, its target_sw is compatible and the version test passes. *)
Definition rule_applies (cpe : CPEIdentifier) (r : MatchRule) : bool :=
  vulnerable r
  && target_sw_matches (rule_target_sw r) (target_sw cpe)
  && version_test (version cpe) (versions r).

(** Modelled from the spec: the matcher is missing from the sources.
    Candidates are looked up by vendor and product, filtered rule by rule,
    and the CVEs of the rules that apply are returned without duplicates. *)
Definition match_ (idx : Index) (cpe : CPEIdentifier) : list string :=
  remove_dups
    (map fst (filter (fun cr => rule_applies cpe (snd cr) = true)
                (candidates idx (vendor cpe, product cpe)))).

End Matcher.

(** The rules of the feed with the CVE each belongs to, in feed order. *)
Definition flatten (feed : list VulnerabilityRecord) : list (string * MatchRule) :=
  concat (map (fun rec => map (pair (cve_id rec)) (rules rec)) feed).

(** A rule of the feed for the vendor and product of a CPE whose
    target_sw is compatible with the CPE's. *)
Definition rule_for (feed : list VulnerabilityRecord) (c : CPEIdentifier)
    (cve : string) (r : MatchRule) : Prop :=
  (cve, r) ∈ flatten feed
  /\ rule_vendor r = vendor c /\ rule_product r = product c
  /\ target_sw_matches (rule_target_sw r) (target_sw c) = true.

(** The rules of a feed that apply to a CPE, with their CVEs. *)
Definition applicable (vercmp : string -> string -> comparison)
    (feed : list VulnerabilityRecord) (c : CPEIdentifier)
  : list (string * MatchRule) :=
  filter (fun cr => rule_applies vercmp c cr.2 = true)
    (filter (fun cr => rule_key cr.2 = (vendor c, product c)) (flatten feed)).

(** A version order for examples: dotted decimal numbers, compared
    component by component, a missing component counting as zero. *)
Definition component (s : string) : N :=
  match NilEmpty.uint_of_string s with
  | Some u => N.of_uint u
  | None => 0
  end.

Fixpoint compare_components (a b : list N) : comparison :=
  match a, b with
  | [], _ => if forallb (N.eqb 0) b then Eq else Lt
  | _, [] => if forallb (N.eqb 0) a then Eq else Gt
  | x :: a', y :: b' =>
      match N.compare x y with Eq => compare_components a' b' | c => c end
  end.

Definition dotted_compare (a b : string) : comparison :=
  compare_components (map component (split_on "." a))
                     (map component (split_on "." b)).

(** *** The datastore contract and the reconciler *)

(** [time.Duration]: a signed count of nanoseconds. *)
Definition duration : Type := Z.

Record SoftwareCPE : Type := {
  ID : uint;
  SoftwareID : uint;
  CPE : string
}.

Record SoftwareVulnerability : Type := {
  vuln_SoftwareID : uint;
  CVE : string
}.

Inductive VulnerabilitySource : Type :=
| NVDSource
| OtherSource.

#[global] Instance VulnerabilitySource_eq_dec : EqDecision VulnerabilitySource.
Proof. solve_decision. Defined.

(** What [Affected()] of an affected-software value returns. *)
Record AffectedSoftware : Type := { Affected : uint }.

(** The three operations of the datastore the package calls, with the
    signatures of the doubles in the test file, over a datastore whose
    state is threaded through the calls.  A [inl] answer is a non-nil error. *)
Class Datastore (D : Type) : Type := {
  ListSoftwareCPEs : D -> D * (error + list SoftwareCPE);
  InsertSoftwareVulnerability :
    D -> SoftwareVulnerability -> VulnerabilitySource -> D * (error + bool);
  DeleteOutOfDateVulnerabilities :
    D -> VulnerabilitySource -> duration -> D * option error
}.

Section Reconciler.

Context {D : Type} `{Datastore D}.
Variable vercmp : string -> string -> comparison.
Variable idx : Index.
Variable onlyRecent : bool.

(** Modelled from the spec: step 3 of the reconciler, one upsert per
    matched CVE; a new row is appended to the accumulator when recent
    results are asked for. *)
Fixpoint upsert_all (d : D) (softwareID : uint) (cves : list string)
    (acc : list AffectedSoftware) : D * (error + list AffectedSoftware) :=
  match cves with
  | [] => (d, inr acc)
  | cve :: rest =>
      let '(d', r) :=
        InsertSoftwareVulnerability d
          {| vuln_SoftwareID := softwareID; CVE := cve |} NVDSource in
      match r with
      | inl e => (d', inl e)
      | inr isNew =>
          upsert_all d' softwareID rest
            (if isNew && onlyRecent
             then acc ++ [{| Affected := softwareID |}] else acc)
      end
  end.

(** Modelled from the spec: step 2 of the reconciler, an unparsable CPE
    is skipped, the others are matched. *)
Fixpoint process_all (d : D) (items : list SoftwareCPE)
    (acc : list AffectedSoftware) : D * (error + list AffectedSoftware) :=
  match items with
  | [] => (d, inr acc)
  | item :: rest =>
      match parseCPE (CPE item) with
      | None => process_all d rest acc
      | Some cpe =>
          let '(d', r) :=
            upsert_all d (SoftwareID item) (match_ vercmp idx cpe) acc in
          match r with
          | inl e => (d', inl e)
          | inr acc' => process_all d' rest acc'
          end
      end
  end.

(** Modelled from the spec: the reconciler is missing from the sources.
    It lists the software CPEs, matches and upserts each, retires the rows
    not seen for [retireAfter], and returns the recent results and the
    error, as Go's pair; a datastore error ends the run at once with no
    results.  The workers of the pool are run one after the other. *)
Definition reconcile (retireAfter : duration) (d : D)
  : D * (list AffectedSoftware * option error) :=
  let '(d1, listed) := ListSoftwareCPEs d in
  match listed with
  | inl e => (d1, ([], Some e))
  | inr items =>
      let '(d2, r) := process_all d1 items [] in
      match r with
      | inl e => (d2, ([], Some e))
      | inr recent =>
          let '(d3, e) := DeleteOutOfDateVulnerabilities d2 NVDSource retireAfter in
          match e with
          | Some e => (d3, ([], Some e))
          | None => (d3, (recent, None))
          end
      end
  end.

End Reconciler.

(** The rows a run upserts for an inventory: the software ID of an item
    whose CPE parses, with a CVE the matcher returns for it. *)
Definition matched (vercmp : string -> string -> comparison) (idx : Index)
    (items : list SoftwareCPE) (k : uint) (cve : string) : Prop :=
  exists item c,
    item ∈ items /\ SoftwareID item = k /\ parseCPE (CPE item) = Some c
    /\ cve ∈ match_ vercmp idx c.

(** A datastore that also keeps the calls made on it, oldest first. *)
Inductive call : Type :=
| CalledList (r : error + list SoftwareCPE)
| CalledInsert (v : SoftwareVulnerability) (src : VulnerabilitySource)
    (r : error + bool)
| CalledDelete (src : VulnerabilitySource) (olderThan : duration)
    (r : option error).

Record recorded (D : Type) : Type := {
  inner : D;
  calls : list call
}.
Arguments inner {D} _.
Arguments calls {D} _.

Definition watch {D : Type} (d : D) : recorded D :=
  {| inner := d; calls := [] |}.

Definition is_delete (c : call) : bool :=
  match c with CalledDelete _ _ _ => true | _ => false end.

Definition is_insert (c : call) : bool :=
  match c with CalledInsert _ _ _ => true | _ => false end.

(** An upsert that reported the row as newly created. *)
Definition reported_new (c : call) : bool :=
  match c with CalledInsert _ _ (inr true) => true | _ => false end.

#[global] Instance recorded_Datastore {D : Type} `{Datastore D}
  : Datastore (recorded D) := {
  ListSoftwareCPEs r :=
    let '(d, a) := ListSoftwareCPEs (inner r) in
    ({| inner := d; calls := calls r ++ [CalledList a] |}, a);
  InsertSoftwareVulnerability r v src :=
    let '(d, a) := InsertSoftwareVulnerability (inner r) v src in
    ({| inner := d; calls := calls r ++ [CalledInsert v src a] |}, a);
  DeleteOutOfDateVulnerabilities r src olderThan :=
    let '(d, a) := DeleteOutOfDateVulnerabilities (inner r) src olderThan in
    ({| inner := d; calls := calls r ++ [CalledDelete src olderThan a] |}, a)
}.

(** Modelled from the spec: the datastore is an external collaborator.
    This one keeps the SoftwareVulnerability rows of the data model, one
    per software ID, CVE and source, with the time each was last seen; an
    upsert reports whether the row is new and refreshes its marker, and
    retirement removes the rows of a source last seen more than
    [olderThan] before [now]. *)
Record row : Type := {
  row_software : uint;
  row_cve : string;
  row_source : VulnerabilitySource;
  last_seen : Z
}.

Record store : Type := {
  inventory : list SoftwareCPE;
  rows : list row;
  now : Z
}.

Definition same_row (softwareID : uint) (cve : string)
    (src : VulnerabilitySource) (r : row) : bool :=
  (row_software r =? softwareID)%N && (row_cve r =? cve)%string
  && bool_decide (row_source r = src).

Definition touch (t : Z) (r : row) : row :=
  {| row_software := row_software r; row_cve := row_cve r;
     row_source := row_source r; last_seen := t |}.

Definition store_insert (s : store) (v : SoftwareVulnerability)
    (src : VulnerabilitySource) : store * (error + bool) :=
  let hit := same_row (vuln_SoftwareID v) (CVE v) src in
  if existsb hit (rows s) then
    ({| inventory := inventory s;
        rows := map (fun r => if hit r then touch (now s) r else r) (rows s);
        now := now s |}, inr false)
  else
    ({| inventory := inventory s;
        rows := rows s ++ [{| row_software := vuln_SoftwareID v;
                              row_cve := CVE v; row_source := src;
                              last_seen := now s |}];
        now := now s |}, inr true).

Definition out_of_date (s : store) (src : VulnerabilitySource)
    (olderThan : duration) (r : row) : bool :=
  bool_decide (row_source r = src) && (olderThan <? now s - last_seen r)%Z.

Definition store_delete (s : store) (src : VulnerabilitySource)
    (olderThan : duration) : store * option error :=
  ({| inventory := inventory s;
      rows := filter (fun r => out_of_date s src olderThan r = false) (rows s);
      now := now s |}, None).

#[global] Instance store_Datastore : Datastore store := {
  ListSoftwareCPEs s := (s, inr (inventory s));
  InsertSoftwareVulnerability := store_insert;
  DeleteOutOfDateVulnerabilities := store_delete
}.

(** The store holds the row of a software ID and CVE for the NVD source. *)
Definition holds (s : store) (softwareID : uint) (cve : string) : Prop :=
  existsb (same_row softwareID cve NVDSource) (rows s) = true.

(** The store holds such a row and it was seen just now. *)
Definition fresh (s : store) (softwareID : uint) (cve : string) : Prop :=
  exists r, r ∈ rows s /\ same_row softwareID cve NVDSource r = true
            /\ last_seen r = now s.

(** Time passes between two runs. *)
Definition later (dt : Z) (s : store) : store :=
  {| inventory := inventory s; rows := rows s; now := (now s + dt)%Z |}.

(** *** The test file: the table of expectations and the doubles *)

(** [bToMb] on a [uint64]. *)
Definition bToMb (b : N) : N := b / 1024 / 1024.

Definition firefox93WindowsVulnerabilities : list string :=
  [
    "CVE-2021-43540"; "CVE-2021-38503"; "CVE-2021-38504"; "CVE-2021-38506";
    "CVE-2021-38507"; "CVE-2021-38508"; "CVE-2021-38509"; "CVE-2021-43534";
    "CVE-2021-43532"; "CVE-2021-43531"; "CVE-2021-43533"; "CVE-2021-43538";
    "CVE-2021-43542"; "CVE-2021-43543"; "CVE-2021-30547"; "CVE-2021-43546";
    "CVE-2021-43537"; "CVE-2021-43541"; "CVE-2021-43536"; "CVE-2021-43545";
    "CVE-2021-43539"; "CVE-2022-34480"; "CVE-2022-26387"; "CVE-2022-22759";
    "CVE-2022-28281"; "CVE-2022-45415"; "CVE-2022-42930"; "CVE-2022-0511";
    "CVE-2022-22763"; "CVE-2022-22737"; "CVE-2022-22751"; "CVE-2022-38478";
    "CVE-2022-22761"; "CVE-2022-34482"; "CVE-2022-26486"; "CVE-2022-22739";
    "CVE-2022-22755"; "CVE-2022-22757"; "CVE-2022-1097"; "CVE-2022-22754";
    "CVE-2022-22748"; "CVE-2022-22736"; "CVE-2022-22745"; "CVE-2022-26385";
    "CVE-2022-26383"; "CVE-2022-3266"; "CVE-2022-34468"; "CVE-2022-34481";
    "CVE-2022-28289"; "CVE-2022-22741"; "CVE-2022-28284"; "CVE-2022-34484";
    "CVE-2022-22752"; "CVE-2022-26485"; "CVE-2022-28286"; "CVE-2022-28283";
    "CVE-2022-28285"; "CVE-2022-0843"; "CVE-2022-29909"; "CVE-2022-22749";
    "CVE-2022-26384"; "CVE-2022-28282"; "CVE-2022-28287"; "CVE-2022-40956";
    "CVE-2022-22740"; "CVE-2022-22743"; "CVE-2022-22764"; "CVE-2022-22738";
    "CVE-2022-1529"; "CVE-2022-22760"; "CVE-2022-29916"; "CVE-2022-29917";
    "CVE-2022-22747"; "CVE-2022-26382"; "CVE-2022-22742"; "CVE-2022-28288";
    "CVE-2022-22756"; "CVE-2022-26381"; "CVE-2022-1802"; "CVE-2022-34483";
    "CVE-2022-29915"
  ].

Record cvetest : Type := {
  cpe : string;
  excludedCVEs : list string;
  includedCVEs : list string;
  (** whether the product continues to register new CVEs *)
  continuestoUpdate : bool
}.

Definition cvetests : list cvetest :=
  [ {| cpe := "cpe:2.3:a:1password:1password:3.9.9:*:*:*:*:macos:*:*";
       excludedCVEs := [];
       includedCVEs := ["CVE-2012-6369"];
       continuestoUpdate := false |};
    {| cpe := "cpe:2.3:a:1password:1password:3.9.9:*:*:*:*:*:*:*";
       excludedCVEs := [];
       includedCVEs := ["CVE-2012-6369"];
       continuestoUpdate := false |};
    {| cpe := "cpe:2.3:a:pypa:pip:9.0.3:*:*:*:*:python:*:*";
       excludedCVEs := [];
       includedCVEs := ["CVE-2019-20916"; "CVE-2021-3572"];
       continuestoUpdate := false |};
    {| cpe := "cpe:2.3:a:mozilla:firefox:93.0:*:*:*:*:windows:*:*";
       excludedCVEs := [];
       includedCVEs := firefox93WindowsVulnerabilities;
       continuestoUpdate := true |};
    {| cpe := "cpe:2.3:a:mozilla:firefox:93.0.100:*:*:*:*:windows:*:*";
       excludedCVEs := [];
       includedCVEs := firefox93WindowsVulnerabilities;
       continuestoUpdate := true |};
    {| cpe := "cpe:2.3:a:apple:icloud:1.0:*:*:*:*:macos:*:*";
       excludedCVEs :=
         [
           "CVE-2017-13797"; "CVE-2017-2383"; "CVE-2017-2366";
           "CVE-2016-4613"; "CVE-2016-4692"; "CVE-2016-4743";
           "CVE-2016-7578"; "CVE-2016-7583"; "CVE-2016-7586";
           "CVE-2016-7587"; "CVE-2016-7589"; "CVE-2016-7592";
           "CVE-2016-7598"; "CVE-2016-7599"; "CVE-2016-7610";
           "CVE-2016-7611"; "CVE-2016-7614"; "CVE-2016-7632";
           "CVE-2016-7635"; "CVE-2016-7639"; "CVE-2016-7640";
           "CVE-2016-7641"; "CVE-2016-7642"; "CVE-2016-7645";
           "CVE-2016-7646"; "CVE-2016-7648"; "CVE-2016-7649";
           "CVE-2016-7652"; "CVE-2016-7654"; "CVE-2016-7656"; "CVE-2017-2383"
         ];
       includedCVEs := [];
       continuestoUpdate := true |} ].

(** The datastore double of the table-driven sub-tests: it lists the one
    CPE under test, appends every upserted CVE to [cvesFound] and answers
    that the row was already there; the mock notes that the retirement
    operation was invoked. *)
Record tableMock : Type := {
  listed_cpe : string;
  cvesFound : list string;
  DeleteOutOfDateVulnerabilitiesFuncInvoked : bool
}.

Definition newTableMock (tt : cvetest) : tableMock :=
  {| listed_cpe := cpe tt; cvesFound := [];
     DeleteOutOfDateVulnerabilitiesFuncInvoked := false |}.

(** The sub-tests share the one mock: the next sub-test lists its own CPE
    and starts a new [cvesFound], and the flag stays as the last left it. *)
Definition retarget (tt : cvetest) (m : tableMock) : tableMock :=
  {| listed_cpe := cpe tt; cvesFound := [];
     DeleteOutOfDateVulnerabilitiesFuncInvoked :=
       DeleteOutOfDateVulnerabilitiesFuncInvoked m |}.

#[global] Instance tableMock_Datastore : Datastore tableMock := {
  ListSoftwareCPEs m :=
    (m, inr [{| ID := 0; SoftwareID := 0; CPE := listed_cpe m |}]);
  InsertSoftwareVulnerability m vuln src :=
    ({| listed_cpe := listed_cpe m;
        cvesFound := cvesFound m ++ [CVE vuln];
        DeleteOutOfDateVulnerabilitiesFuncInvoked :=
          DeleteOutOfDateVulnerabilitiesFuncInvoked m |}, inr false);
  DeleteOutOfDateVulnerabilities m source d :=
    ({| listed_cpe := listed_cpe m;
        cvesFound := cvesFound m;
        DeleteOutOfDateVulnerabilitiesFuncInvoked := true |}, None)
}.

(** [require.Contains] and [require.NotContains] on a list of strings. *)
Definition Contains (l : list string) (x : string) : bool :=
  bool_decide (x ∈ l).

(** [require.ElementsMatch]: the same elements, each as many times. *)
Definition ElementsMatch (a b : list string) : bool :=
  bool_decide (a ≡ₚ b).

(** The assertions of one sub-test on the CVEs the run upserted: the
    included ones are found, all and only them unless the product goes on
    receiving CVEs, and none of the excluded ones is. *)
Definition cves_asserted (tt : cvetest) (found : list string) : bool :=
  (if continuestoUpdate tt
   then forallb (Contains found) (includedCVEs tt)
   else ElementsMatch found (includedCVEs tt))
  && forallb (fun cve => negb (Contains found cve)) (excludedCVEs tt).

(** The assertions of one sub-test, in the order of the source: the run
    returned no error ([require.NoError]), the CVEs found are as asserted,
    and the double notes that the retirement operation was invoked. *)
Definition subtest_passes (tt : cvetest) (err : option error) (m : tableMock)
  : bool :=
  bool_decide (err = None)
  && cves_asserted tt (cvesFound m)
  && DeleteOutOfDateVulnerabilitiesFuncInvoked m.

(** The double of the recent_vulns sub-test: three unpinned CPEs and an
    upsert that always gives the same answer. *)
Definition softwareCPEs : list SoftwareCPE :=
  [ {| CPE := "cpe:2.3:a:google:chrome:-:*:*:*:*:*:*:*"; ID := 1; SoftwareID := 1 |};
    {| CPE := "cpe:2.3:a:mozilla:firefox:-:*:*:*:*:*:*:*"; ID := 2; SoftwareID := 2 |};
    {| CPE := "cpe:2.3:a:haxx:curl:-:*:*:*:*:*:*:*"; ID := 3; SoftwareID := 3 |} ].

Record recentMock : Type := { isNewAnswer : bool }.

#[global] Instance recentMock_Datastore : Datastore recentMock := {
  ListSoftwareCPEs m := (m, inr softwareCPEs);
  InsertSoftwareVulnerability m vuln src := (m, inr (isNewAnswer m));
  DeleteOutOfDateVulnerabilities m source d := (m, None)
}.

(** Go's [int] on a 64-bit platform, with its wrap-around. *)
Definition go_int : Type := Z.

Definition int_incr (x : go_int) : go_int :=
  ((x + 1 + 2 ^ 63) mod 2 ^ 64 - 2 ^ 63)%Z.

(** Reading a key of a [map[uint]int]: the zero value when it is missing. *)
Definition map_index (m : gmap uint go_int) (k : uint) : go_int :=
  default 0%Z (m !! k).

(** [for _, cpe := range recent { byCPE[cpe.Affected()]++ }] on the map
    [make(map[uint]int)]. *)
Definition byCPE (recent : list AffectedSoftware) : gmap uint go_int :=
  foldl (fun m cpe =>
           <[Affected cpe := int_incr (map_index m (Affected cpe))]> m)
    ∅ recent.

(** How many of the recent results are of a software ID. *)
Definition occurrences (recent : list AffectedSoftware) (softwareID : uint)
  : nat :=
  length (filter (fun a => Affected a = softwareID) recent).

(** *** Feed synchronisation *)

Definition LF : string := String "010" "".
Definition CRLF : string := String "013" LF.
Definition TAB : string := String "009" "".
Definition QUOTE : string := String "034" "".

(** Modelled from the spec: the descriptor of one year of the feed. *)
Record FeedMetadata : Type := {
  lastModifiedDate : string;
  uncompressedSize : N;
  zipSize : N;
  gzSize : N;
  sha256 : string
}.

(** The text before and after the first occurrence of [sep]. *)
Fixpoint cut (sep : ascii) (s : string) : option (string * string) :=
  match s with
  | EmptyString => None
  | String c rest =>
      if Ascii.eqb c sep then Some (EmptyString, rest)
      else match cut sep rest with
           | Some (k, v) => Some (String c k, v)
           | None => None
           end
  end.

Fixpoint drop_trailing_cr (s : string) : string :=
  match s with
  | EmptyString => EmptyString
  | String c rest =>
      match rest with
      | EmptyString => if Ascii.eqb c "013" then EmptyString else s
      | _ => String c (drop_trailing_cr rest)
      end
  end.

Fixpoint value_of (key : string) (pairs : list (string * string)) : option string :=
  match pairs with
  | [] => None
  | (k, v) :: rest => if (k =? key)%string then Some v else value_of key rest
  end.

Definition decimal (s : string) : option N :=
  match s with
  | EmptyString => None
  | _ => N.of_uint <$> NilEmpty.uint_of_string s
  end.

(** Modelled from the spec: the descriptor is newline-separated
    [key:value] pairs with the keys [lastModifiedDate], [size], [zipSize],
    [gzSize] and [sha256], read verbatim. *)
Definition parse_meta (text : string) : option FeedMetadata :=
  let pairs := omap (cut ":") (map drop_trailing_cr (split_on "010" text)) in
  lm ← value_of "lastModifiedDate" pairs;
  sz ← value_of "size" pairs ≫= decimal;
  zs ← value_of "zipSize" pairs ≫= decimal;
  gs ← value_of "gzSize" pairs ≫= decimal;
  sh ← value_of "sha256" pairs;
  Some {| lastModifiedDate := lm; uncompressedSize := sz; zipSize := zs;
          gzSize := gs; sha256 := sh |}.

(** An HTTP answer: the status line text and the bytes of the body. *)
Record response : Type := {
  status : string;
  body : string
}.

(** What fetching a URL gives: a network error or an answer. *)
Definition remote : Type := string -> error + response.

(** Modelled from the spec: a failure of one year's fetch, the size
    mismatch the tests exercise or any other with its own text. *)
Inductive failure : Type :=
| UnexpectedSize (url httpStatus : string) (want have : N)
| OtherFailure (text : string).

(** Modelled from the spec: the line of a failure.  The tests fix the
    line of a size mismatch. *)
Definition describe (f : failure) : string :=
  match f with
  | UnexpectedSize url httpStatus want have =>
      "unexpected size for " +:+ QUOTE +:+ url +:+ QUOTE +:+ " (" +:+ httpStatus
      +:+ "): want " +:+ sprint_d want +:+ ", have " +:+ sprint_d have
  | OtherFailure text => text
  end.

(** Modelled from the spec: the aggregated error, the failures in the
    order they were met. *)
Definition SyncErrors : Type := list failure.

(** Modelled from the spec: the text of the aggregated error, the count
    followed by one indented line per failure.  The tests fix the header
    of a single failure as [1 synchronisation error:]. *)
Definition Error (e : SyncErrors) : string :=
  sprint_d (N.of_nat (length e)) +:+ " synchronisation error"
  +:+ (if decide (length e = 1%nat) then "" else "s") +:+ ":"
  +:+ String.concat "" (map (fun f => LF +:+ TAB +:+ describe f) e).

(** The cached copy of a year: its descriptor and the archive bytes. *)
Abbreviation Cache := (gmap N (FeedMetadata * string)).

Definition archive_name (year : N) : string :=
  "nvdcve-1.1-" +:+ sprint_d year.

Section Sync.

(** The SHA-256 digest of the archive as the descriptor writes it. *)
Variable digest : string -> string.
(** The text of the failures the spec leaves open. *)
Variable checksum_text : string -> string -> string -> string.
Variable metadata_text : string -> string.
(** The years the feed set covers. *)
Variable years : list N.
(** The default upstream location. *)
Variable defaultURL : string.

(** Modelled from the spec: a cached copy is current when its descriptor
    has the date and the size of the one just fetched. *)
Definition is_current (cache : Cache) (year : N) (meta : FeedMetadata) : bool :=
  match cache !! year with
  | Some (old, _) =>
      (lastModifiedDate old =? lastModifiedDate meta)%string
      && (uncompressedSize old =? uncompressedSize meta)%N
  | None => false
  end.

(** Modelled from the spec: one year of the synchroniser.  Fetch the
    descriptor, skip a current copy, otherwise fetch the archive, verify
    its length and digest, and replace the copy.  The name of the archive
    is the one in the text the tests expect. *)
Definition sync_year (get : remote) (base : string) (cache : Cache) (year : N)
  : Cache * option failure :=
  let metaURL := base +:+ archive_name year +:+ ".meta" in
  let archiveURL := base +:+ archive_name year +:+ ".json.gz" in
  match get metaURL with
  | inl e => (cache, Some (OtherFailure e))
  | inr m =>
      match parse_meta (body m) with
      | None => (cache, Some (OtherFailure (metadata_text metaURL)))
      | Some meta =>
          if is_current cache year meta then (cache, None)
          else
            match get archiveURL with
            | inl e => (cache, Some (OtherFailure e))
            | inr a =>
                let have := N.of_nat (String.length (body a)) in
                if negb (have =? gzSize meta)%N then
                  (cache, Some (UnexpectedSize archiveURL (status a)
                                  (gzSize meta) have))
                else if negb (digest (body a) =? sha256 meta)%string then
                  (cache, Some (OtherFailure
                                  (checksum_text archiveURL (sha256 meta)
                                     (digest (body a)))))
                else (<[year := (meta, body a)]> cache, None)
            end
      end
  end.

(** Modelled from the spec: the years of the feed set in turn.  The run
    ends at the first year that fails, as the test of the sources
    requires (see [sync]). *)
Fixpoint sync_years (get : remote) (base : string) (cache : Cache)
    (ys : list N) : Cache * option failure :=
  match ys with
  | [] => (cache, None)
  | y :: rest =>
      let '(cache1, f) := sync_year get base cache y in
      match f with
      | Some f => (cache1, Some f)
      | None => sync_years get base cache1 rest
      end
  end.

(** Modelled from the spec: the synchroniser is missing from the sources.
    One point follows the test of the sources instead.  The specification
    has every year tried and the failures collected; the test, whose
    server fails every year alike, expects one error, that of the first
    year (part_000:319-339).  So the run ends at the first year that
    fails, and the aggregated error holds that failure alone. *)
Definition sync (get : remote) (base : string) (cache : Cache)
  : Cache * option SyncErrors :=
  let '(cache', f) := sync_years get base cache years in
  (cache', (fun f => [f]) <$> f).

(** Modelled from the spec: the run as the specification words it, to
    compare with.  Every year is tried, and the failures are collected
    and returned together. *)
Fixpoint sync_years_as_specified (get : remote) (base : string)
    (cache : Cache) (ys : list N) : Cache * list failure :=
  match ys with
  | [] => (cache, [])
  | y :: rest =>
      let '(cache1, f) := sync_year get base cache y in
      let '(cache2, fs) := sync_years_as_specified get base cache1 rest in
      (cache2, match f with Some f => f :: fs | None => fs end)
  end.

Definition sync_as_specified (get : remote) (base : string) (cache : Cache)
  : Cache * option SyncErrors :=
  let '(cache', fs) := sync_years_as_specified get base cache years in
  (cache', match fs with [] => None | _ => Some fs end).

(** Modelled from the spec: the entry point, called by the tests; an
    empty base URL selects the default location. *)
Definition DownloadNVDCVEFeed (get : remote) (cache : Cache) (baseURL : string)
  : Cache * option SyncErrors :=
  sync get (if (baseURL =? "")%string then defaultURL else baseURL) cache.

End Sync.

(** The feed server of the synchronisation test: a descriptor for every
    request that ends in [.meta], an empty body for any other, always with
    the status [200 OK]. *)
Fixpoint has_suffix (suffix s : string) : bool :=
  (s =? suffix)%string
  || match s with
     | EmptyString => false
     | String _ rest => has_suffix suffix rest
     end.

Definition test_meta : string :=
  "lastModifiedDate:2021-08-04T11:10:30-04:00" +:+ CRLF
  +:+ "size:20967174" +:+ CRLF
  +:+ "zipSize:1453429" +:+ CRLF
  +:+ "gzSize:1453293" +:+ CRLF
  +:+ "sha256:10D7338A1E2D8DB344C381793110B67FCA7D729ADA21624EF089EBA78CCE7B53"
  +:+ CRLF.

Definition test_server : remote :=
  fun requestURI =>
    inr {| status := "200 OK";
           body := if has_suffix ".meta" requestURI then test_meta else "" |}.

(** The path the test appends to the URL of its server. *)
Definition feed_path : string := "/feeds/json/cve/1.1/".

(** A feed set that holds the years the tests rely on: from 2002, which
    the expected error names, to 2022, the year of the latest CVEs of the
    table. *)
Definition test_years : list N := map N.of_nat (seq 2002 21).

(** What the test expects the error text to contain. *)
Definition expected_sync_error (tsURL : string) : string :=
  "1 synchronisation error:" +:+ LF +:+ TAB +:+ "unexpected size for " +:+ QUOTE
  +:+ tsURL +:+ "/feeds/json/cve/1.1/nvdcve-1.1-2002.json.gz" +:+ QUOTE
  +:+ " (200 OK): want 1453293, have 0".

(** [strings.Contains]. *)
Fixpoint is_prefix (p s : string) : bool :=
  match p, s with
  | EmptyString, _ => true
  | String a p', String b s' => Ascii.eqb a b && is_prefix p' s'
  | String _ _, EmptyString => false
  end.

Fixpoint contains (s sub : string) : bool :=
  is_prefix sub s
  || match s with
     | EmptyString => false
     | String _ rest => contains rest sub
     end.

(** *** CPEs of the tests and a feed to run the matcher on *)

(** The CPE of an application with every other attribute any. *)
Definition application (v p ver tsw : string) : CPEIdentifier :=
  {| part := "a"; vendor := v; product := p; version := ver;
     update := "*"; edition := "*"; language := "*"; sw_edition := "*";
     target_sw := tsw; target_hw := "*"; other := "*" |}.

Definition onepassword_macos : CPEIdentifier :=
  application "1password" "1password" "3.9.9" "macos".
Definition onepassword_any : CPEIdentifier :=
  application "1password" "1password" "3.9.9" "*".
Definition pip_python : CPEIdentifier :=
  application "pypa" "pip" "9.0.3" "python".
Definition icloud_macos : CPEIdentifier :=
  application "apple" "icloud" "1.0" "macos".
Definition firefox_unpinned : CPEIdentifier :=
  application "mozilla" "firefox" "-" "*".

(** The table entry of the pip sub-test. *)
Definition pip_test : cvetest :=
  default {| cpe := ""; excludedCVEs := []; includedCVEs := [];
             continuestoUpdate := false |} (cvetests !! 2%nat).

(** The table entry of the icloud sub-test. *)
Definition icloud_test : cvetest :=
  default {| cpe := ""; excludedCVEs := []; includedCVEs := [];
             continuestoUpdate := false |} (cvetests !! 5%nat).

Definition rule (v p tsw : string) (vs : versionSpec) (vul : bool) : MatchRule :=
  {| rule_vendor := v; rule_product := p; rule_target_sw := tsw;
     versions := vs; vulnerable := vul |}.

Definition before (v : string) : versionSpec :=
  VersionRange None (Some {| bound_version := v; inclusive := false |}).

(** A small feed.  Its rules are made up for the examples; they are not
    the rules of the NVD feed. *)
Definition demo_feed : list VulnerabilityRecord :=
  [ {| cve_id := "CVE-2012-6369";
       rules := [rule "1password" "1password" "MacOS" (ExactVersion "3.9.9") true] |};
    {| cve_id := "CVE-2013-1629";
       rules := [rule "pypa" "pip" "*" (before "1.3") true] |};
    {| cve_id := "CVE-2019-20916";
       rules := [rule "pypa" "pip" "*" (before "19.2") true] |};
    {| cve_id := "CVE-2021-3572";
       rules := [rule "pypa" "pip" "" (before "21.1") true;
                 rule "pypa" "pip" "*" (ExactVersion "9.0.3") true] |};
    {| cve_id := "CVE-2017-13797";
       rules := [rule "apple" "icloud" "windows" (before "7.1") true] |};
    {| cve_id := "CVE-2017-2383";
       rules := [rule "apple" "icloud" "windows" (before "6.1.1") true;
                 rule "apple" "icloud" "macos" (before "6.1.1") false] |};
    {| cve_id := "CVE-2099-0001";
       rules := [rule "apple" "icloud" "macos" (before "2.0") true] |};
    {| cve_id := "CVE-2099-0002";
       rules := [rule "mozilla" "firefox" "*" (before "94.0") true] |};
    {| cve_id := "CVE-2099-0003";
       rules := [rule "mozilla" "firefox" "*" (ExactVersion "93.0") false] |} ].

(** [1*time.Hour]. *)
Definition hour : duration := 3600000000000%Z.

(** An inventory of two items of the table and one unparsable CPE, in a
    store with no rows yet. *)
Definition demo_store : store :=
  {| inventory := [ {| ID := 1; SoftwareID := 1; CPE := cpe pip_test |};
                    {| ID := 2; SoftwareID := 2; CPE := "firefox 93" |};
                    {| ID := 3; SoftwareID := 3; CPE := cpe icloud_test |} ];
     rows := [];
     now := 1000%Z |}.

End NVD.

(** ** The doubles under concurrent workers

    The package upserts from a pool of workers, so the closure that
    records the CVEs takes a mutex, and the recent_vulns sub-test wraps its
    store in [threadSafeDSMock].  Each is modelled as a machine whose steps
    are the statements of the source, run in the order of a schedule. *)

Module Upserts.
Import NVD.

(** Where a call of the closure [ds.InsertSoftwareVulnerabilityFunc]
    stands: before [cveLock.Lock()], before [append] reads [cvesFound],
    before the appended slice is assigned to [cvesFound], before the
    deferred [cveLock.Unlock()], and returned with its answer. *)
Inductive point : Type :=
| AtLock
| AtAppend
| AtAssign (appended : list string)
| AtUnlock
| Done (isNew : bool).

(** A worker in its call, with the vulnerability it upserts. *)
Record worker : Type := { vuln : SoftwareVulnerability; pos : point }.

(** What the closure captures, [cveLock] and [cvesFound], and the workers
    that call it. *)
Record captured : Type := {
  cveLock : bool;
  cvesFound : list string;
  workers : list worker
}.

Definition advance (i : nat) (w : worker) (p : point) (ws : list worker)
  : list worker :=
  <[i := {| vuln := vuln w; pos := p |}]> ws.

(** One step of the [i]-th worker; [None] when it is blocked on the
    mutex, has returned, or does not exist. *)
Definition upsert_step (i : nat) (st : captured) : option captured :=
  match workers st !! i with
  | None => None
  | Some w =>
      match pos w with
      | AtLock =>
          if cveLock st then None
          else Some {| cveLock := true; cvesFound := cvesFound st;
                       workers := advance i w AtAppend (workers st) |}
      | AtAppend =>
          Some {| cveLock := cveLock st; cvesFound := cvesFound st;
                  workers :=
                    advance i w (AtAssign (cvesFound st ++ [CVE (vuln w)]))
                      (workers st) |}
      | AtAssign appended =>
          Some {| cveLock := cveLock st; cvesFound := appended;
                  workers := advance i w AtUnlock (workers st) |}
      | AtUnlock =>
          Some {| cveLock := false; cvesFound := cvesFound st;
                  workers := advance i w (Done false) (workers st) |}
      | Done _ => None
      end
  end.

(** The workers stepped in the order of a schedule. *)
Fixpoint upsert_run (schedule : list nat) (st : captured) : option captured :=
  match schedule with
  | [] => Some st
  | i :: rest =>
      match upsert_step i st with
      | None => None
      | Some st' => upsert_run rest st'
      end
  end.

(** Every worker is about to call the closure. *)
Definition upsert_start (found : list string)
    (vulns : list SoftwareVulnerability) : captured :=
  {| cveLock := false; cvesFound := found;
     workers := map (fun v => {| vuln := v; pos := AtLock |}) vulns |}.

(** A worker that holds the mutex. *)
Definition holds_cveLock (w : worker) : bool :=
  match pos w with
  | AtAppend | AtAssign _ | AtUnlock => true
  | _ => false
  end.

(** A worker whose CVE has been assigned to [cvesFound]. *)
Definition stored (w : worker) : bool :=
  match pos w with
  | AtUnlock | Done _ => true
  | _ => false
  end.

Definition is_done (w : worker) : bool :=
  match pos w with Done _ => true | _ => false end.

(** The steps a worker has made. *)
Definition progress (w : worker) : nat :=
  match pos w with
  | AtLock => 0
  | AtAppend => 1
  | AtAssign _ => 2
  | AtUnlock => 3
  | Done _ => 4
  end.

(** What every state the workers can reach satisfies. *)
Record upsert_inv (found : list string) (vulns : list SoftwareVulnerability)
    (st : captured) : Prop := {
  inv_args : map vuln (workers st) = vulns;
  inv_lock : length (filter (fun w => holds_cveLock w = true) (workers st))
             = if cveLock st then 1%nat else 0%nat;
  inv_appended :
    forall w tmp, w ∈ workers st -> pos w = AtAssign tmp ->
                  tmp = cvesFound st ++ [CVE (vuln w)];
  inv_found :
    cvesFound st
    ≡ₚ found ++ map (fun w => CVE (vuln w))
                  (filter (fun w => stored w = true) (workers st));
  inv_answer : forall w b, w ∈ workers st -> pos w = Done b -> b = false
}.

(** Two workers upsert for the same software. *)
Definition two_vulns : list SoftwareVulnerability :=
  [ {| vuln_SoftwareID := 1; CVE := "CVE-2019-20916" |};
    {| vuln_SoftwareID := 1; CVE := "CVE-2021-3572" |} ].

(** The second worker takes the mutex first; the first waits for it. *)
Definition second_first : list nat := [1; 1; 1; 1; 0; 0; 0; 0]%nat.

End Upserts.

Module ThreadSafe.
Import NVD.

(** The methods the package calls on its datastore. *)
Inductive method : Type :=
| CallListSoftwareCPEs
| CallInsertSoftwareVulnerability (vuln : SoftwareVulnerability)
    (src : VulnerabilitySource)
| CallDeleteOutOfDateVulnerabilities (source : VulnerabilitySource)
    (d : duration).

(** [threadSafeDSMock] declares the first two methods itself, each under
    its mutex; the third is promoted from the embedded [*mock.Store] and
    takes no lock. *)
Definition guarded (m : method) : bool :=
  match m with
  | CallListSoftwareCPEs | CallInsertSoftwareVulnerability _ _ => true
  | CallDeleteOutOfDateVulnerabilities _ _ => false
  end.

(** What a method returns. *)
Inductive answer : Type :=
| Listed (r : error + list SoftwareCPE)
| Inserted (r : error + bool)
| Deleted (e : option error).

(** Where a call stands: before [d.mu.Lock()] (before the method of the
    store, when promoted), inside the method of the store, before the
    deferred [d.mu.Unlock()], and returned. *)
Inductive stage : Type :=
| Before
| InStore
| Unlocking (a : answer)
| Finished (a : answer).

(** A goroutine in its call. *)
Record caller : Type := { called : method; stage_of : stage }.

Section Machine.

Context {D : Type} `{Datastore D}.

(** The wrapper, with the goroutines that call it. *)
Record threadSafeDSMock : Type := {
  mu : bool;
  Store : D;
  callers : list caller
}.

(** The method of the embedded store. *)
Definition invoke (m : method) (d : D) : D * answer :=
  match m with
  | CallListSoftwareCPEs =>
      let '(d', r) := ListSoftwareCPEs d in (d', Listed r)
  | CallInsertSoftwareVulnerability vuln src =>
      let '(d', r) := InsertSoftwareVulnerability d vuln src in (d', Inserted r)
  | CallDeleteOutOfDateVulnerabilities source dur =>
      let '(d', e) := DeleteOutOfDateVulnerabilities d source dur in
      (d', Deleted e)
  end.

Definition proceed (i : nat) (c : caller) (s : stage) (cs : list caller)
  : list caller :=
  <[i := {| called := called c; stage_of := s |}]> cs.

(** One step of the [i]-th caller; [None] when it is blocked on the
    mutex, has returned, or does not exist.  The method of the store takes
    effect when it returns. *)
Definition mock_step (i : nat) (st : threadSafeDSMock)
  : option threadSafeDSMock :=
  match callers st !! i with
  | None => None
  | Some c =>
      match stage_of c with
      | Before =>
          if guarded (called c) then
            if mu st then None
            else Some {| mu := true; Store := Store st;
                         callers := proceed i c InStore (callers st) |}
          else Some {| mu := mu st; Store := Store st;
                       callers := proceed i c InStore (callers st) |}
      | InStore =>
          let '(d', a) := invoke (called c) (Store st) in
          Some {| mu := mu st; Store := d';
                  callers :=
                    proceed i c (if guarded (called c)
                                 then Unlocking a else Finished a)
                      (callers st) |}
      | Unlocking a =>
          Some {| mu := false; Store := Store st;
                  callers := proceed i c (Finished a) (callers st) |}
      | Finished _ => None
      end
  end.

(** The callers stepped in the order of a schedule. *)
Fixpoint mock_run (schedule : list nat) (st : threadSafeDSMock)
  : option threadSafeDSMock :=
  match schedule with
  | [] => Some st
  | i :: rest =>
      match mock_step i st with
      | None => None
      | Some st' => mock_run rest st'
      end
  end.

(** [&threadSafeDSMock{Store: ds}], every caller about to call. *)
Definition mock_start (ds : D) (methods : list method) : threadSafeDSMock :=
  {| mu := false; Store := ds;
     callers := map (fun m => {| called := m; stage_of := Before |}) methods |}.

End Machine.

Arguments threadSafeDSMock D : clear implicits.

(** A caller that is inside a method of the store. *)
Definition in_store (c : caller) : bool :=
  match stage_of c with InStore => true | _ => false end.

(** A caller that holds the mutex. *)
Definition holds_mu (c : caller) : bool :=
  guarded (called c)
  && match stage_of c with InStore | Unlocking _ => true | _ => false end.

(** What every state the callers can reach satisfies: the mutex is held
    exactly when one caller is between its [Lock] and its [Unlock], and
    only a method of the wrapper gets to an [Unlock]. *)
Definition lock_held {D : Type} (st : threadSafeDSMock D) : Prop :=
  length (filter (fun c => holds_mu c = true) (callers st))
  = (if mu st then 1%nat else 0%nat)
  /\ Forall (fun c => match stage_of c with
                      | Unlocking _ => guarded (called c) = true
                      | _ => True
                      end) (callers st).

(** The workers of the recent_vulns sub-test list the software, upsert and
    retire. *)
Definition three_methods : list method :=
  [ CallListSoftwareCPEs;
    CallInsertSoftwareVulnerability
      {| vuln_SoftwareID := 2; CVE := "CVE-2022-22738" |} NVDSource;
    CallDeleteOutOfDateVulnerabilities NVDSource hour ].

End ThreadSafe.

(** * Properties *)

(** ** Lists whose neighbours are related *)

Section Linked.

Context {A : Type} (R : A -> A -> Prop).

Lemma linked_lookup (x : A) (l : list A) :
  linked R x l ->
  forall (i : nat) (a b : A),
    (x :: l) !! i = Some a -> (x :: l) !! S i = Some b -> R a b.
Proof.
  revert x. induction l as [|y l IH]; intros x Hl i a b Ha Hb.
  - destruct i; discriminate.
  - destruct Hl as [Hxy Hl]. destruct i as [|i].
    + simpl in Ha, Hb. congruence.
    + exact (IH y Hl i a b Ha Hb).
Qed.

(** A property every step keeps holds from any position on. *)
Lemma linked_stable (P : A -> Prop) :
  (forall a b, R a b -> P a -> P b) ->
  forall (l : list A) (i j : nat) (a b : A),
    match l with [] => True | x :: l' => linked R x l' end ->
    (i <= j)%nat -> l !! i = Some a -> l !! j = Some b -> P a -> P b.
Proof.
  intros Hstep l i j a b Hl Hij Ha Hb HP.
  induction Hij as [|j Hij IH] in b, Hb |- *.
  - congruence.
  - destruct (l !! j) as [c|] eqn:Hc.
    + destruct l as [|x l']; [discriminate|].
      apply (Hstep c b); [|exact (IH c eq_refl)].
      exact (linked_lookup x l' Hl j c b Hc Hb).
    + apply lookup_ge_None in Hc. apply lookup_lt_Some in Hb. lia.
Qed.

Lemma default_last_cons (x y : A) (l : list A) :
  default x (last (y :: l)) = default y (last l).
Proof. rewrite last_cons. destruct (last l); reflexivity. Qed.

Lemma linked_app (l1 l2 : list A) (x : A) :
  linked R x l1 -> linked R (default x (last l1)) l2 -> linked R x (l1 ++ l2).
Proof.
  revert x. induction l1 as [|y l1 IH]; intros x H1 H2.
  - exact H2.
  - destruct H1 as [Hxy H1]. split; [exact Hxy|].
    apply IH; [exact H1|]. rewrite <- (default_last_cons x). exact H2.
Qed.

End Linked.

(** ** Lists updated at one position *)

Section Updated.

Context {A : Type}.

Lemma lookup_split (l : list A) (i : nat) (x y : A) :
  l !! i = Some x ->
  exists l1 l2, l = l1 ++ x :: l2 /\ <[i := y]> l = l1 ++ y :: l2.
Proof.
  intros Hi. exists (take i l), (drop (S i) l). split.
  - symmetry. apply take_drop_middle. exact Hi.
  - apply insert_take_drop. apply lookup_lt_Some in Hi. exact Hi.
Qed.

Lemma count_middle (P : A -> bool) (l1 l2 : list A) (c : A) :
  length (filter (fun c => P c = true) (l1 ++ c :: l2))
  = (length (filter (fun c => P c = true) l1)
     + (if P c then 1 else 0)
     + length (filter (fun c => P c = true) l2))%nat.
Proof.
  rewrite filter_app, filter_cons, length_app.
  destruct (P c) eqn:Hc.
  - rewrite decide_True by reflexivity. simpl. lia.
  - rewrite decide_False by discriminate. lia.
Qed.

Lemma count_le (P Q : A -> bool) (l : list A) :
  (forall x, P x = true -> Q x = true) ->
  (length (filter (fun x => P x = true) l)
   <= length (filter (fun x => Q x = true) l))%nat.
Proof.
  intros HPQ. induction l as [|x l IH]; [reflexivity|].
  rewrite !filter_cons.
  destruct (P x) eqn:HP.
  - rewrite (HPQ x HP). rewrite !decide_True by reflexivity. simpl. lia.
  - rewrite (decide_False (P:=false = true)) by discriminate.
    case_decide; simpl; lia.
Qed.

End Updated.

(** ** The campaign stream *)

Module CampaignFacts.
Import Campaigns.

Lemma advances_refl (s : campaignStatus) : advances s s.
Proof.
  unfold advances, campaignStatusPending, campaignStatusFinished.
  repeat split; intros; try tauto; congruence.
Qed.

Ltac close_advances :=
  unfold advances; simpl; repeat split; intros; auto; try lia;
  unfold campaignStatusPending, campaignStatusFinished in *; congruence.

Lemma updateStatus_advances (u : updateEnv) (l : locals) :
  advances (status l) (status (updateStatus u l).1.1).
Proof.
  unfold updateStatus.
  destruct (CountHostsInTargets u) as [err|metrics]; [apply advances_refl|].
  destruct (decide (lastTotals l = _)) as [Heq|Hne]; simpl.
  - destruct (_ <=? _) eqn:Hle;
      [apply N.leb_le in Hle|]; case_decide; simpl; close_advances.
  - destruct (totalsWrite u); simpl; [apply advances_refl|].
    destruct (_ <=? _) eqn:Hle;
      [apply N.leb_le in Hle|]; case_decide; simpl; close_advances.
Qed.

Lemma loopStep_advances (l : locals) (i : input) :
  advances (status l) (status (loopStep l i).1.1).
Proof.
  destruct i as [[res|e|] w|state u]; simpl.
  - destruct w as [[|msg]|]; simpl; close_advances.
  - apply advances_refl.
  - apply advances_refl.
  - case_decide; [apply advances_refl|apply updateStatus_advances].
Qed.

Lemma loop_linked (inputs : list input) (l : locals) :
  linked advances (status l)
    (map (fun x => status x.1) (loop l inputs).1).
Proof.
  revert l. induction inputs as [|i rest IH]; intros l; simpl; [exact I|].
  pose proof (loopStep_advances l i) as Hstep.
  destruct (loopStep l i) as [[l' w] ret]; simpl in Hstep.
  destruct ret; simpl; [tauto|].
  specialize (IH l'). destruct (loop l' rest) as [t o]; simpl in *. tauto.
Qed.

Lemma statuses_linked (F : string) (d : deps) (campaignID : uint)
    (u0 : updateEnv) (inputs : list input) :
  match statuses (StreamCampaignResults F d campaignID u0 inputs) with
  | [] => True
  | s :: h => s = status initialLocals /\ linked advances s h
  end.
Proof.
  unfold StreamCampaignResults.
  destruct (Authorize d); [exact I|].
  destruct (FromContext d) as [vc|]; [|exact I].
  destruct (lookupCampaign d campaignID) as [e|campaign]; [exact I|].
  case_decide; [|exact I].
  destruct (openReader d campaign); [exact I|].
  destruct (DistributedQueryCampaignTargetIDs d (ID campaign)); [simpl; tauto|].
  pose proof (updateStatus_advances u0 initialLocals) as H0.
  destruct (updateStatus u0 initialLocals) as [[l1 w1] failed]; simpl in H0.
  destruct failed; [simpl; tauto|].
  pose proof (loop_linked inputs l1) as Hl.
  destruct (loop l1 inputs) as [t o]; simpl in *. tauto.
Qed.

(** X1: a message written on the connection reaches the campaign's
    initiator: the handler writes a result, totals or a status only after
    the authorization passed, the context held a viewer, the campaign was
    found and the viewer is the user who started it. *)
Theorem messages_only_for_initiator (F : string) (d : deps) (campaignID : uint)
    (u0 : updateEnv) (inputs : list input) (typ : string) (data : payload) :
  WriteJSONMessage typ data ∈ events (StreamCampaignResults F d campaignID u0 inputs) ->
  exists vc campaign,
    Authorize d = None /\ FromContext d = Some vc
    /\ lookupCampaign d campaignID = inr campaign
    /\ UserID campaign = User_ID vc.
Proof.
  assert (forall msg, WriteJSONMessage typ data ∉ events (returns [WriteJSONError msg]))
    as Hno.
  { intros msg Hin. apply list_elem_of_singleton in Hin. discriminate. }
  unfold StreamCampaignResults.
  destruct (Authorize d); [intros Hin; destruct (Hno _ Hin)|].
  destruct (FromContext d) as [vc|]; [|intros Hin; destruct (Hno _ Hin)].
  destruct (lookupCampaign d campaignID) as [e|campaign];
    [intros Hin; destruct (Hno _ Hin)|].
  case_decide; [|intros Hin; destruct (Hno _ Hin)].
  intros _. exists vc, campaign. auto.
Qed.

(** C9: when the viewer of the context is not the user who started the
    campaign, [StreamCampaignResults] writes the forbidden error message on
    the connection and nothing else, and returns: no result, totals or
    status message is written, the campaign reader is not opened and the
    variable [status] is never declared. *)
Theorem stream_forbidden_for_other_viewer (F : string) (d : deps)
    (campaignID : uint) (u0 : updateEnv) (inputs : list input)
    (vc : Viewer) (campaign : DistributedQueryCampaign) :
  FromContext d = Some vc ->
  lookupCampaign d campaignID = inr campaign ->
  UserID campaign <> User_ID vc ->
  events (StreamCampaignResults F d campaignID u0 inputs) = [WriteJSONError F]
  /\ result (StreamCampaignResults F d campaignID u0 inputs) = Returned
  /\ statuses (StreamCampaignResults F d campaignID u0 inputs) = []
  /\ (forall typ data,
        WriteJSONMessage typ data
          ∉ events (StreamCampaignResults F d campaignID u0 inputs))
  /\ (forall c,
        GetCampaignReader c
          ∉ events (StreamCampaignResults F d campaignID u0 inputs)).
Proof.
  intros Hvc Hc Hne.
  assert (StreamCampaignResults F d campaignID u0 inputs
          = returns [WriteJSONError F]) as ->.
  { unfold StreamCampaignResults. rewrite Hvc, Hc.
    destruct (Authorize d); [reflexivity|].
    case_decide; [contradiction|reflexivity]. }
  simpl. repeat split; try reflexivity.
  - intros typ data Hin. apply list_elem_of_singleton in Hin. discriminate.
  - intros c Hin. apply list_elem_of_singleton in Hin. discriminate.
Qed.

(** C10: the campaign status of one session is monotone.  The variable
    [status] starts as pending with no results; a step takes it from
    pending to finished only with the actual results at or above the
    expected ones; once finished it stays finished; and it never holds
    another value. *)
Theorem campaign_status_monotone (F : string) (d : deps) (campaignID : uint)
    (u0 : updateEnv) (inputs : list input) :
  (forall s,
      statuses (StreamCampaignResults F d campaignID u0 inputs) !! 0%nat = Some s ->
      s = {| ExpectedResults := 0; ActualResults := 0;
             Status := campaignStatusPending |})
  /\ (forall (i : nat) s s',
        statuses (StreamCampaignResults F d campaignID u0 inputs) !! i = Some s ->
        statuses (StreamCampaignResults F d campaignID u0 inputs) !! S i = Some s' ->
        Status s = campaignStatusPending ->
        Status s' = campaignStatusFinished ->
        ExpectedResults s' <= ActualResults s')
  /\ (forall (i j : nat) s s',
        (i <= j)%nat ->
        statuses (StreamCampaignResults F d campaignID u0 inputs) !! i = Some s ->
        statuses (StreamCampaignResults F d campaignID u0 inputs) !! j = Some s' ->
        Status s = campaignStatusFinished ->
        Status s' = campaignStatusFinished)
  /\ (forall s,
        s ∈ statuses (StreamCampaignResults F d campaignID u0 inputs) ->
        Status s = campaignStatusPending \/ Status s = campaignStatusFinished).
Proof.
  pose proof (statuses_linked F d campaignID u0 inputs) as Hl.
  destruct (statuses (StreamCampaignResults F d campaignID u0 inputs))
    as [|s0 h] eqn:Hh.
  { repeat split; intros; try discriminate.
    match goal with H : _ ∈ [] |- _ => inversion H end. }
  destruct Hl as [-> Hl].
  split; [|split; [|split]].
  - intros s Hs. simpl in Hs. congruence.
  - intros i s s' Hs Hs' Hp Hf.
    exact (proj1 (proj2 (linked_lookup advances _ h Hl i s s' Hs Hs')) Hp Hf).
  - intros i j s s' Hij Hs Hs'.
    apply (linked_stable advances
             (fun s => Status s = campaignStatusFinished)
             (fun a b Hab => proj1 Hab) (status initialLocals :: h)
             i j s s' Hl Hij Hs Hs').
  - intros s Hs. apply list_elem_of_lookup in Hs as [j Hs].
    apply (linked_stable advances
             (fun s => Status s = campaignStatusPending
                       \/ Status s = campaignStatusFinished)
             (fun a b Hab => proj2 (proj2 Hab)) (status initialLocals :: h)
             0%nat j (status initialLocals) s Hl); [lia|reflexivity|exact Hs|].
    left. reflexivity.
Qed.

Lemma stream_forbidden_for_other_viewer_witness :
  events (StreamCampaignResults "forbidden" (demoDeps 2) 7 (demoUpdate 1) demoInputs)
  = [WriteJSONError "forbidden"]
  /\ result (StreamCampaignResults "forbidden" (demoDeps 2) 7 (demoUpdate 1) demoInputs)
     = Returned.
Proof.
  destruct (stream_forbidden_for_other_viewer "forbidden" (demoDeps 2) 7
              (demoUpdate 1) demoInputs {| User_ID := 2 |}
              {| ID := 7; QueryID := 5; UserID := 1 |})
    as (Hev & Hres & _).
  - reflexivity.
  - reflexivity.
  - simpl. lia.
  - split; assumption.
Defined.

Lemma campaign_status_monotone_witness :
  let h := statuses (StreamCampaignResults "forbidden" (demoDeps 1) 7
                       (demoUpdate 1) demoInputs) in
  let s2 := {| ExpectedResults := 1; ActualResults := 1;
               Status := campaignStatusPending |} in
  let s3 := {| ExpectedResults := 1; ActualResults := 1;
               Status := campaignStatusFinished |} in
  h !! 2%nat = Some s2 /\ h !! 3%nat = Some s3
  /\ ExpectedResults s3 <= ActualResults s3.
Proof.
  intros h s2 s3.
  split; [reflexivity|]. split; [reflexivity|].
  apply (proj1 (proj2 (campaign_status_monotone "forbidden" (demoDeps 1) 7
                         (demoUpdate 1) demoInputs)) 2%nat s2 s3);
    reflexivity.
Defined.

(** *** What is written, and when *)

(** What [updateStatus] writes: totals when they differ from the last
    ones written, a status when it differs from the last one written. *)
Lemma updateStatus_writes (u : updateEnv) (l : locals) :
  Forall (fun e => is_write e = true) (updateStatus u l).1.2
  /\ linked (fun a b => a <> b) (lastTotals l) (totals_written (updateStatus u l).1.2)
  /\ lastTotals (updateStatus u l).1.1
     = default (lastTotals l) (last (totals_written (updateStatus u l).1.2))
  /\ linked (fun a b => a <> b) (lastStatus l) (statuses_written (updateStatus u l).1.2)
  /\ lastStatus (updateStatus u l).1.1
     = default (lastStatus l) (last (statuses_written (updateStatus u l).1.2)).
Proof.
  unfold updateStatus.
  destruct (CountHostsInTargets u) as [err|metrics]; simpl.
  { repeat split; auto. }
  destruct (decide (lastTotals l = _)) as [Heq|Hne]; simpl.
  - case_decide; simpl; repeat split; auto.
  - destruct (totalsWrite u); simpl; [repeat split; auto|].
    case_decide; simpl; repeat split; auto.
Qed.

Lemma loopStep_writes (l : locals) (i : input) :
  Forall (fun e => is_write e = true) (loopStep l i).1.2
  /\ linked (fun a b => a <> b) (lastTotals l) (totals_written (loopStep l i).1.2)
  /\ lastTotals (loopStep l i).1.1
     = default (lastTotals l) (last (totals_written (loopStep l i).1.2))
  /\ linked (fun a b => a <> b) (lastStatus l) (statuses_written (loopStep l i).1.2)
  /\ lastStatus (loopStep l i).1.1
     = default (lastStatus l) (last (statuses_written (loopStep l i).1.2)).
Proof.
  destruct i as [[res|e|] w|state u]; simpl.
  - destruct w as [[|msg]|]; simpl; repeat split; auto.
  - repeat split; auto.
  - repeat split; auto.
  - case_decide; [simpl; repeat split; auto|apply updateStatus_writes].
Qed.


Lemma loop_events_cons (l : locals) (i : input) (rest : list input) :
  loop_events l (i :: rest)
  = (loopStep l i).1.2
    ++ (if (loopStep l i).2 then [] else loop_events (loopStep l i).1.1 rest).
Proof.
  unfold loop_events. simpl.
  destruct (loopStep l i) as [[l' w] ret]. simpl.
  destruct ret; simpl; [reflexivity|].
  destruct (loop l' rest) as [t o]. reflexivity.
Qed.

Lemma loop_writes (inputs : list input) (l : locals) :
  Forall (fun e => is_write e = true) (loop_events l inputs)
  /\ linked (fun a b => a <> b) (lastTotals l) (totals_written (loop_events l inputs))
  /\ linked (fun a b => a <> b) (lastStatus l)
       (statuses_written (loop_events l inputs)).
Proof.
  revert l. induction inputs as [|i rest IH]; intros l.
  - repeat split; constructor.
  - rewrite loop_events_cons.
    destruct (loopStep_writes l i) as (Hw & Ht & Hlt & Hs & Hls).
    destruct (loopStep l i) as [[l' w] ret]. simpl in *.
    destruct ret.
    + rewrite app_nil_r. auto.
    + destruct (IH l') as (Hw' & Ht' & Hs').
      unfold totals_written, statuses_written in *. rewrite !omap_app.
      split; [apply Forall_app; auto|].
      split; apply linked_app; auto; congruence.
Qed.

(** The connection-level events of any call: a lone error, a reader that
    failed to open, or an opened reader followed by writes and, once the
    handler returns, by the deferred calls. *)
Lemma stream_shape (F : string) (d : deps) (campaignID : uint)
    (u0 : updateEnv) (inputs : list input) :
  (exists msg,
      events (StreamCampaignResults F d campaignID u0 inputs) = [WriteJSONError msg]
      /\ result (StreamCampaignResults F d campaignID u0 inputs) = Returned)
  \/ (exists c msg,
        openReader d c <> None
        /\ events (StreamCampaignResults F d campaignID u0 inputs)
           = [GetCampaignReader c; WriteJSONError msg]
        /\ result (StreamCampaignResults F d campaignID u0 inputs) = Returned)
  \/ (exists c ws,
        openReader d c = None
        /\ Forall (fun e => is_write e = true) ws
        /\ ((result (StreamCampaignResults F d campaignID u0 inputs) = Waiting
             /\ events (StreamCampaignResults F d campaignID u0 inputs)
                = GetCampaignReader c :: ws)
            \/ result (StreamCampaignResults F d campaignID u0 inputs) = Returned
               /\ exists stop,
                    events (StreamCampaignResults F d campaignID u0 inputs)
                    = GetCampaignReader c
                      :: (ws ++ (if stop : bool then [tickerStop] else [])
                             ++ [CompleteCampaign c; cancelFunc]))).
Proof.
  unfold StreamCampaignResults.
  destruct (Authorize d); [left; eexists; split; reflexivity|].
  destruct (FromContext d) as [vc|]; [|left; eexists; split; reflexivity].
  destruct (lookupCampaign d campaignID) as [e|c];
    [left; eexists; split; reflexivity|].
  case_decide; [|left; eexists; split; reflexivity].
  destruct (openReader d c) as [err|] eqn:Hopen.
  { right. left. exists c. eexists. split; [congruence|]. split; reflexivity. }
  right. right. exists c.
  destruct (DistributedQueryCampaignTargetIDs d (ID c)) as [err|].
  { exists [WriteJSONError ("error retrieving campaign targets: " +:+ err)].
    split; [exact Hopen|]. split; [repeat constructor|].
    right. split; [reflexivity|]. exists false. reflexivity. }
  destruct (updateStatus_writes u0 initialLocals) as (Hw1 & _).
  destruct (updateStatus u0 initialLocals) as [[l1 w1] failed]. simpl in Hw1.
  destruct failed.
  { exists w1. split; [exact Hopen|]. split; [exact Hw1|].
    right. split; [reflexivity|]. exists false. reflexivity. }
  destruct (loop_writes inputs l1) as (Hw & _). unfold loop_events in Hw.
  destruct (loop l1 inputs) as [t o]. simpl in Hw.
  exists (w1 ++ concat (map snd t)).
  split; [exact Hopen|]. split; [apply Forall_app; auto|].
  destruct o; simpl.
  - right. split; [reflexivity|]. exists true. rewrite <- app_assoc. reflexivity.
  - left. split; [reflexivity|]. rewrite app_nil_r. reflexivity.
Qed.

Lemma not_write_not_in (ws : list event) (e : event) :
  Forall (fun e => is_write e = true) ws -> is_write e = false -> e ∉ ws.
Proof.
  intros Hws He Hin. rewrite Forall_forall in Hws.
  specialize (Hws e Hin). congruence.
Qed.

Lemma not_in_deferred_tail (stop : bool) (c : DistributedQueryCampaign) (e : event) :
  e ∈ (if stop then [tickerStop] else []) -> e = tickerStop.
Proof.
  destruct stop; intros Hin; [|inversion Hin].
  apply list_elem_of_singleton in Hin. exact Hin.
Qed.

(** X2: once the campaign reader is open, a handler that returns completes
    the campaign and then cancels the reader, once each, as its last two
    calls; a handler that has not returned has done neither. *)
Theorem cleanup_after_reader (F : string) (d : deps) (campaignID : uint)
    (u0 : updateEnv) (inputs : list input) (c : DistributedQueryCampaign) :
  GetCampaignReader c ∈ events (StreamCampaignResults F d campaignID u0 inputs) ->
  openReader d c = None ->
  match result (StreamCampaignResults F d campaignID u0 inputs) with
  | Returned =>
      exists before,
        events (StreamCampaignResults F d campaignID u0 inputs)
        = before ++ [CompleteCampaign c; cancelFunc]
        /\ (CompleteCampaign c ∉ before) /\ (cancelFunc ∉ before)
  | Waiting =>
      (CompleteCampaign c
         ∉ events (StreamCampaignResults F d campaignID u0 inputs))
      /\ (cancelFunc ∉ events (StreamCampaignResults F d campaignID u0 inputs))
  end.
Proof.
  intros Hin Hopen.
  destruct (stream_shape F d campaignID u0 inputs)
    as [(msg & Hev & _)|[(c' & msg & Hfail & Hev & _)|(c' & ws & _ & Hws & Hcase)]].
  - rewrite Hev in Hin. apply list_elem_of_singleton in Hin. discriminate.
  - rewrite Hev in Hin. apply elem_of_cons in Hin as [Heq|Hin].
    + injection Heq as ->. contradiction.
    + apply list_elem_of_singleton in Hin. discriminate.
  - assert (c' = c) as ->.
    { destruct Hcase as [[_ Hev]|[_ [stop Hev]]]; rewrite Hev in Hin;
        apply elem_of_cons in Hin as [Heq|Hin]; try (injection Heq; auto; fail);
        exfalso.
      - refine (not_write_not_in ws _ Hws _ Hin); reflexivity.
      - apply elem_of_app in Hin as [Hin|Hin];
          [refine (not_write_not_in ws _ Hws _ Hin); reflexivity|].
        apply elem_of_app in Hin as [Hin|Hin].
        + apply not_in_deferred_tail in Hin; [discriminate|exact c].
        + repeat (apply elem_of_cons in Hin as [Heq|Hin]; [discriminate|]).
          inversion Hin. }
    destruct Hcase as [[-> ->]|[-> [stop ->]]].
    + split; intros Hc; apply elem_of_cons in Hc as [Heq|Hc]; try discriminate;
        refine (not_write_not_in ws _ Hws _ Hc); reflexivity.
    + exists (GetCampaignReader c :: ws ++ (if stop then [tickerStop] else [])).
      split; [simpl; rewrite <- app_assoc; reflexivity|].
      split; intros Hc; apply elem_of_cons in Hc as [Heq|Hc]; try discriminate;
        (apply elem_of_app in Hc as [Hc|Hc];
         [refine (not_write_not_in ws _ Hws _ Hc); reflexivity|]);
        apply not_in_deferred_tail in Hc; try discriminate; exact c.
Qed.


Lemma status_first_seen (evs : list event) : status_first true evs = true.
Proof.
  induction evs as [|e evs IH]; simpl; [reflexivity|].
  destruct (is_result e); simpl; exact IH.
Qed.

Lemma status_first_app (a b : list event) (seen : bool) :
  Forall (fun e => is_result e = false) a ->
  status_first seen (a ++ b)
  = status_first (seen || existsb is_status a) b.
Proof.
  revert seen. induction a as [|e a IH]; intros seen Ha; simpl.
  - rewrite orb_false_r. reflexivity.
  - apply Forall_cons in Ha as [He Ha]. rewrite He, IH by exact Ha.
    rewrite orb_assoc. reflexivity.
Qed.

Lemma status_first_no_result (evs : list event) (seen : bool) :
  Forall (fun e => is_result e = false) evs -> status_first seen evs = true.
Proof.
  intros Hno. rewrite <- (app_nil_r evs), status_first_app by exact Hno.
  reflexivity.
Qed.

Lemma status_first_spec (evs : list event) (seen : bool) :
  status_first seen evs = true ->
  forall before e after,
    evs = before ++ e :: after -> is_result e = true ->
    seen = true \/ Exists (fun e' => is_status e' = true) before.
Proof.
  revert seen. induction evs as [|x evs IH]; intros seen Hok before e after Heq He.
  - destruct before; discriminate.
  - destruct before as [|b before]; simpl in Heq; injection Heq as -> ->.
    + simpl in Hok. rewrite He in Hok. apply andb_prop in Hok as [Hs _]. auto.
    + simpl in Hok. destruct (is_result b).
      * apply andb_prop in Hok as [Hs _]. auto.
      * destruct (IH _ Hok before e after eq_refl He) as [Hs|Hex].
        -- apply orb_prop in Hs as [Hs|Hs]; [auto|].
           right. apply Exists_cons_hd. exact Hs.
        -- right. apply Exists_cons_tl. exact Hex.
Qed.

Lemma updateStatus_no_result (u : updateEnv) (l : locals) :
  Forall (fun e => is_result e = false) (updateStatus u l).1.2.
Proof.
  unfold updateStatus.
  destruct (CountHostsInTargets u) as [err|metrics]; simpl; [repeat constructor|].
  destruct (decide (lastTotals l = _)); simpl.
  - case_decide; simpl; repeat constructor.
  - destruct (totalsWrite u); simpl; [repeat constructor|].
    case_decide; simpl; repeat constructor.
Qed.

(** The first [updateStatus] that succeeds always writes a status: the
    expected count it sets differs from zero or the status turns finished. *)
Lemma first_status_written (u0 : updateEnv) :
  (updateStatus u0 initialLocals).2 = false ->
  existsb is_status (updateStatus u0 initialLocals).1.2 = true.
Proof.
  intros Hok. revert Hok.
  unfold updateStatus, initialLocals. simpl.
  destruct (CountHostsInTargets u0) as [err|metrics]; simpl; [discriminate|].
  destruct (decide (_ = _)) as [Heq|Hne]; simpl.
  - injection Heq as H1 Hon H3 H4. rewrite <- Hon. simpl.
    intros _. reflexivity.
  - destruct (totalsWrite u0); simpl; [discriminate|].
    destruct (OnlineHosts metrics <=? 0) eqn:Hle; simpl.
    + case_decide as Hst; [discriminate Hst|]. intros _. reflexivity.
    + case_decide as Hst; [|intros _; reflexivity].
      injection Hst as Hon. rewrite <- Hon in Hle. discriminate.
Qed.

(** X3: every result written on the connection comes after a status
    message: the frontend learns the expected count before it sees a
    result. *)
Theorem status_before_results (F : string) (d : deps) (campaignID : uint)
    (u0 : updateEnv) (inputs : list input) (before after : list event)
    (e : event) :
  events (StreamCampaignResults F d campaignID u0 inputs) = before ++ e :: after ->
  is_result e = true ->
  Exists (fun e' => is_status e' = true) before.
Proof.
  intros Heq He.
  assert (status_first false (events (StreamCampaignResults F d campaignID u0 inputs))
          = true) as Hok.
  { clear. unfold StreamCampaignResults.
    destruct (Authorize d); [reflexivity|].
    destruct (FromContext d) as [vc|]; [|reflexivity].
    destruct (lookupCampaign d campaignID) as [e|c]; [reflexivity|].
    case_decide; [|reflexivity].
    destruct (openReader d c); [reflexivity|].
    destruct (DistributedQueryCampaignTargetIDs d (ID c)); [reflexivity|].
    pose proof (first_status_written u0) as Hfirst.
    pose proof (updateStatus_no_result u0 initialLocals) as Hnr.
    destruct (updateStatus u0 initialLocals) as [[l1 w1] failed]. simpl in *.
    destruct failed.
    - simpl. apply status_first_no_result, Forall_app. split; [exact Hnr|].
      repeat constructor.
    - destruct (loop l1 inputs) as [t o]. simpl.
      rewrite status_first_app by exact Hnr.
      rewrite (Hfirst eq_refl). apply status_first_seen. }
  destruct (status_first_spec _ _ Hok before e after Heq He) as [Hs|Hex];
    [discriminate|exact Hex].
Qed.

(** X4: totals and statuses are written only when they change: of two
    consecutive totals messages, and of two consecutive status messages,
    the second differs from the first, and the first ones differ from the
    zero totals and from the initial pending status. *)
Theorem messages_written_on_change (F : string) (d : deps) (campaignID : uint)
    (u0 : updateEnv) (inputs : list input) :
  linked (fun a b => a <> b) (lastTotals initialLocals)
    (totals_written (events (StreamCampaignResults F d campaignID u0 inputs)))
  /\ linked (fun a b => a <> b) (lastStatus initialLocals)
       (statuses_written (events (StreamCampaignResults F d campaignID u0 inputs))).
Proof.
  unfold StreamCampaignResults.
  destruct (Authorize d); [split; exact I|].
  destruct (FromContext d) as [vc|]; [|split; exact I].
  destruct (lookupCampaign d campaignID) as [e|c]; [split; exact I|].
  case_decide; [|split; exact I].
  destruct (openReader d c); [split; exact I|].
  destruct (DistributedQueryCampaignTargetIDs d (ID c)); [split; exact I|].
  destruct (updateStatus_writes u0 initialLocals) as (_ & Ht & Hlt & Hs & Hls).
  destruct (updateStatus u0 initialLocals) as [[l1 w1] failed]. simpl in *.
  destruct failed.
  - unfold totals_written, statuses_written in *. simpl.
    rewrite !omap_app. simpl. rewrite !app_nil_r. auto.
  - destruct (loop_writes inputs l1) as (_ & Ht' & Hs'). unfold loop_events in *.
    destruct (loop l1 inputs) as [t o]. simpl in *.
    unfold totals_written, statuses_written in *. simpl.
    rewrite !omap_app.
    assert (forall b : bool,
               omap (fun e => match e with
                              | WriteJSONMessage _ (Totals t) => Some t
                              | _ => None
                              end)
                 (match o with
                  | Returned => deferred c b
                  | Waiting => []
                  end) = []) as ->
      by (intros b; destruct o, b; reflexivity).
    assert (forall b : bool,
               omap (fun e => match e with
                              | WriteJSONMessage _ (StatusOf s) => Some s
                              | _ => None
                              end)
                 (match o with
                  | Returned => deferred c b
                  | Waiting => []
                  end) = []) as ->
      by (intros b; destruct o, b; reflexivity).
    rewrite !app_nil_r.
    split; apply linked_app; auto; congruence.
Qed.

(** [updateStatus] leaves the count of actual results alone. *)
Lemma updateStatus_ActualResults (u : updateEnv) (l : locals) :
  ActualResults (status (updateStatus u l).1.1) = ActualResults (status l).
Proof.
  unfold updateStatus.
  destruct (CountHostsInTargets u) as [err|metrics]; simpl; [reflexivity|].
  destruct (decide (lastTotals l = _)); simpl.
  - destruct (_ <=? _); case_decide; reflexivity.
  - destruct (totalsWrite u); simpl; [reflexivity|].
    destruct (_ <=? _); case_decide; reflexivity.
Qed.

Lemma loopStep_ActualResults (l : locals) (i : input) :
  ActualResults (status (loopStep l i).1.1)
  = if counted i then uint_incr (ActualResults (status l))
    else ActualResults (status l).
Proof.
  destruct i as [[res|e|] w|state u]; simpl; try reflexivity.
  - destruct w as [[|msg]|]; reflexivity.
  - case_decide; [reflexivity|apply updateStatus_ActualResults].
Qed.


Lemma uint_incr_mod (n : N) :
  uint_incr (n mod uint_modulus) = (n + 1) mod uint_modulus.
Proof.
  unfold uint_incr. apply N.Div0.add_mod_idemp_l.
Qed.

Lemma results_counted_cons (i : input) (rest : list input) (k : nat) :
  results_counted (i :: rest) (S k)
  = (if counted i then 1 else 0) + results_counted rest k.
Proof.
  unfold results_counted. rewrite firstn_cons, filter_cons.
  destruct (counted i).
  - rewrite decide_True by reflexivity. rewrite length_cons. lia.
  - rewrite decide_False by discriminate. reflexivity.
Qed.

Lemma loop_ActualResults (inputs : list input) (l : locals) (n : N) :
  ActualResults (status l) = n mod uint_modulus ->
  ActualResults (status (default l (last (map fst (loop l inputs).1))))
  = (n + results_counted inputs (length (loop l inputs).1)) mod uint_modulus.
Proof.
  revert l n. induction inputs as [|i rest IH]; intros l n Hn; simpl.
  - unfold results_counted. simpl. rewrite N.add_0_r. exact Hn.
  - pose proof (loopStep_ActualResults l i) as Hstep.
    destruct (loopStep l i) as [[l' w] ret]. simpl in Hstep.
    assert (ActualResults (status l')
            = (n + (if counted i then 1 else 0)) mod uint_modulus) as Hn'.
    { rewrite Hstep. destruct (counted i).
      - rewrite Hn. apply uint_incr_mod.
      - rewrite N.add_0_r. exact Hn. }
    destruct ret; simpl.
    + change 1%nat with (S 0). rewrite results_counted_cons.
      unfold results_counted at 1. rewrite take_0. simpl.
      rewrite N.add_0_r. exact Hn'.
    + specialize (IH l' _ Hn'). destruct (loop l' rest) as [t o]. simpl in *.
      rewrite default_last_cons, results_counted_cons, N.add_assoc. exact IH.
Qed.

Lemma last_cons_map {A B : Type} (g : A -> B) (a : B) (t : list A) :
  last (a :: map g t) = Some (default a (g <$> last t)).
Proof.
  rewrite last_cons. change (map g t) with (g <$> t). rewrite fmap_last.
  destruct (last t); reflexivity.
Qed.

(** X5: the count of actual results is the number of results received
    from the channel, each counted once whether or not its write succeeded,
    save the one whose write found the session closed; the count wraps
    around at the size of a [uint]. *)
Theorem actual_results_counted (F : string) (d : deps) (campaignID : uint)
    (u0 : updateEnv) (inputs : list input) (s : campaignStatus) :
  last (statuses (StreamCampaignResults F d campaignID u0 inputs)) = Some s ->
  ActualResults s
  = results_counted inputs
      (length (statuses (StreamCampaignResults F d campaignID u0 inputs)) - 2)
    mod uint_modulus.
Proof.
  unfold StreamCampaignResults.
  destruct (Authorize d); [discriminate|].
  destruct (FromContext d) as [vc|]; [|discriminate].
  destruct (lookupCampaign d campaignID) as [e|c]; [discriminate|].
  case_decide; [|discriminate].
  destruct (openReader d c); [discriminate|].
  destruct (DistributedQueryCampaignTargetIDs d (ID c)).
  { simpl. intros [= <-]. reflexivity. }
  pose proof (updateStatus_ActualResults u0 initialLocals) as H1.
  destruct (updateStatus u0 initialLocals) as [[l1 w1] failed]. simpl in H1.
  destruct failed.
  { simpl. intros [= <-]. rewrite H1. reflexivity. }
  pose proof (loop_ActualResults inputs l1 0) as Hloop.
  destruct (loop l1 inputs) as [t o]. simpl in *.
  rewrite length_map, Nat.sub_0_r. intros Hlast.
  rewrite N.add_0_l in Hloop. rewrite <- Hloop by (rewrite H1; reflexivity).
  clear Hloop. rewrite last_cons_map in Hlast.
  injection Hlast as <-.
  change (map fst t) with (fst <$> t). rewrite fmap_last.
  destruct (last t); reflexivity.
Qed.

(** X6: the rows of a result as pushed to the frontend are the rows that
    are not nil, in order, each with the hostname and the display name of
    the host added and its other columns as they were; the other fields of
    the result are untouched. *)

Theorem mapHostnameRows_rows (res : DistributedQueryResult) :
  Rows (mapHostnameRows res)
  = map (fun m => Some (with_host res m)) (omap id (Rows res))
  /\ Forall (fun row =>
               exists m, row = Some m
                         /\ m !! "host_hostname" = Some (Hostname res)
                         /\ m !! "host_display_name" = Some (HostDisplayName res))
       (Rows (mapHostnameRows res))
  /\ (forall (i : nat) m k,
        omap id (Rows res) !! i = Some m ->
        k <> "host_hostname" -> k <> "host_display_name" ->
        exists m', Rows (mapHostnameRows res) !! i = Some (Some m')
                   /\ m' !! k = m !! k)
  /\ DistributedQueryCampaignID (mapHostnameRows res) = DistributedQueryCampaignID res
  /\ HostID (mapHostnameRows res) = HostID res
  /\ Hostname (mapHostnameRows res) = Hostname res
  /\ HostDisplayName (mapHostnameRows res) = HostDisplayName res.
Proof.
  assert (Rows (mapHostnameRows res)
          = map (fun m => Some (with_host res m)) (omap id (Rows res))) as Hrows.
  { unfold mapHostnameRows. simpl. generalize (Rows res). intros rows.
    induction rows as [|[m|] rows IH]; simpl; [reflexivity| |exact IH].
    f_equal. exact IH. }
  split; [exact Hrows|]. split; [|split; [|repeat split]].
  - rewrite Hrows. apply Forall_forall. intros row Hin.
    apply list_elem_of_fmap in Hin as (m & -> & _).
    exists (with_host res m). split; [reflexivity|]. unfold with_host. split.
    + rewrite lookup_insert_ne by discriminate. apply lookup_insert_eq.
    + apply lookup_insert_eq.
  - intros i m k Hi Hk1 Hk2. exists (with_host res m). split.
    + rewrite Hrows. change (map ?f ?l) with (f <$> l).
      rewrite list_lookup_fmap, Hi. reflexivity.
    + unfold with_host. rewrite !lookup_insert_ne by congruence. reflexivity.
Qed.

Lemma messages_only_for_initiator_witness :
  exists vc campaign,
    Authorize (demoDeps 1) = None /\ FromContext (demoDeps 1) = Some vc
    /\ lookupCampaign (demoDeps 1) 7 = inr campaign
    /\ UserID campaign = User_ID vc.
Proof.
  apply (messages_only_for_initiator "forbidden" (demoDeps 1) 7 (demoUpdate 1)
           demoInputs "status"
           (StatusOf {| ExpectedResults := 1; ActualResults := 0;
                        Status := campaignStatusPending |})).
  apply (list_elem_of_lookup_2 _ 2%nat). reflexivity.
Defined.

Lemma cleanup_after_reader_witness :
  exists before,
    events (StreamCampaignResults "forbidden" (demoDeps 1) 7 (demoUpdate 1) demoClosed)
    = before ++ [CompleteCampaign demoCampaign; cancelFunc]
    /\ (CompleteCampaign demoCampaign ∉ before) /\ (cancelFunc ∉ before).
Proof.
  pose proof (cleanup_after_reader "forbidden" (demoDeps 1) 7 (demoUpdate 1)
                demoClosed demoCampaign) as Hclean.
  assert (result (StreamCampaignResults "forbidden" (demoDeps 1) 7 (demoUpdate 1)
                    demoClosed) = Returned) as Hret by reflexivity.
  rewrite Hret in Hclean. apply Hclean.
  - apply (list_elem_of_lookup_2 _ 0%nat). reflexivity.
  - reflexivity.
Defined.

Lemma status_before_results_witness :
  is_result (WriteJSONMessage "result" (Result (mapHostnameRows demoResult))) = true
  /\ Exists (fun e => is_status e = true)
       (take 3 (events (StreamCampaignResults "forbidden" (demoDeps 1) 7
                          (demoUpdate 1) demoInputs))).
Proof.
  split; [reflexivity|].
  apply (status_before_results "forbidden" (demoDeps 1) 7 (demoUpdate 1) demoInputs
           _ (drop 4 (events (StreamCampaignResults "forbidden" (demoDeps 1) 7
                                (demoUpdate 1) demoInputs)))
           (WriteJSONMessage "result" (Result (mapHostnameRows demoResult))));
    reflexivity.
Defined.

Lemma actual_results_counted_witness :
  last (statuses (StreamCampaignResults "forbidden" (demoDeps 1) 7 (demoUpdate 1)
                    demoInputs))
  = Some {| ExpectedResults := 1; ActualResults := 1;
            Status := campaignStatusFinished |}
  /\ 1 = results_counted demoInputs 2 mod uint_modulus.
Proof.
  split; [reflexivity|].
  apply (actual_results_counted "forbidden" (demoDeps 1) 7 (demoUpdate 1) demoInputs
           {| ExpectedResults := 1; ActualResults := 1;
              Status := campaignStatusFinished |}).
  reflexivity.
Defined.

(** *** A tick on which nothing has changed *)

Lemma updateStatus_settles (u : updateEnv) (l : locals) (metrics : TargetMetrics) :
  CountHostsInTargets u = inr metrics ->
  (updateStatus u l).2 = false ->
  settled metrics (updateStatus u l).1.1.
Proof.
  intros Hcount. unfold updateStatus, settled. rewrite Hcount.
  fold (totals_of metrics).
  destruct (decide (lastTotals l = totals_of metrics)) as [Heq|Hne]; simpl.
  - destruct (OnlineHosts metrics <=? ActualResults (status l)) eqn:Hle; simpl;
      case_decide; simpl; intros _; rewrite ?Hle; repeat split; auto; discriminate.
  - destruct (totalsWrite u); simpl; [discriminate|].
    destruct (OnlineHosts metrics <=? ActualResults (status l)) eqn:Hle; simpl;
      case_decide; simpl; intros _; rewrite ?Hle; repeat split; auto; discriminate.
Qed.

Lemma settled_quiet (u : updateEnv) (l : locals) (metrics : TargetMetrics) :
  CountHostsInTargets u = inr metrics ->
  settled metrics l ->
  updateStatus u l = (l, [], false).
Proof.
  intros Hcount (Hlt & He & Hfin & Hls).
  destruct l as [[e a s] ls lt]. simpl in *. subst lt ls e.
  unfold updateStatus. rewrite Hcount. fold (totals_of metrics). simpl.
  rewrite decide_True by reflexivity. simpl.
  destruct (OnlineHosts metrics <=? a) eqn:Hle.
  - rewrite (Hfin eq_refl). simpl. rewrite decide_True by reflexivity.
    reflexivity.
  - simpl. rewrite decide_True by reflexivity. reflexivity.
Qed.

(** X9: a tick on which nothing has changed is silent.  After a call of
    [updateStatus] that returned no error, a second call that counts the
    same hosts writes nothing, changes no variable and returns no error,
    whatever its writes would have met. *)
Theorem updateStatus_quiet (u u' : updateEnv) (l : locals) :
  (updateStatus u l).2 = false ->
  CountHostsInTargets u' = CountHostsInTargets u ->
  updateStatus u' (updateStatus u l).1.1 = ((updateStatus u l).1.1, [], false).
Proof.
  intros Hok Hsame.
  destruct (CountHostsInTargets u) as [err|metrics] eqn:Hcount.
  - unfold updateStatus in Hok. rewrite Hcount in Hok. discriminate.
  - apply (settled_quiet u' _ metrics Hsame).
    apply updateStatus_settles; assumption.
Qed.

(** *** When the loop goes on, and when it ends *)

Lemma loopStep_goes_on (l : locals) (i : input) :
  goes_on i = true -> (loopStep l i).2 = false.
Proof.
  destruct i as [[res|e|] w|state u]; simpl.
  - destruct w as [[|msg]|]; [discriminate|reflexivity|reflexivity].
  - reflexivity.
  - reflexivity.
  - intros H. repeat (apply andb_prop in H as [H ?]).
    apply bool_decide_eq_true in H.
    rewrite decide_False by exact H.
    unfold updateStatus.
    destruct (CountHostsInTargets u) as [err|metrics]; [discriminate|].
    destruct (totalsWrite u); [discriminate|].
    destruct (statusWrite u); [discriminate|].
    destruct (decide (lastTotals l = _)); simpl; case_decide; reflexivity.
Qed.

Lemma loopStep_ends_loop (l : locals) (i : input) :
  ends_loop i = true -> loopStep l i = (l, last_writes i, true).
Proof.
  destruct i as [[res|e|] w|state u]; simpl; try discriminate.
  - destruct w as [[|msg]|]; [reflexivity|discriminate|discriminate].
  - intros H. case_decide; [reflexivity|].
    apply orb_prop in H as [H|H].
    + apply bool_decide_eq_true in H. contradiction.
    + unfold updateStatus.
      destruct (CountHostsInTargets u); [reflexivity|discriminate].
Qed.

Lemma loop_goes_on (inputs : list input) (l : locals) :
  Forall (fun i => goes_on i = true) inputs ->
  (loop l inputs).2 = Waiting /\ length (loop l inputs).1 = length inputs.
Proof.
  revert l. induction inputs as [|i rest IH]; intros l Hall; [split; reflexivity|].
  apply Forall_cons in Hall as [Hi Hrest]. simpl.
  pose proof (loopStep_goes_on l i Hi) as Hstep.
  destruct (loopStep l i) as [[l' w] ret]. simpl in Hstep. subst ret.
  destruct (IH l' Hrest) as [Ho Hlen].
  destruct (loop l' rest) as [t o]. simpl in *. split; [exact Ho|].
  rewrite Hlen. reflexivity.
Qed.

Lemma loop_ends (pre post : list input) (i : input) (l : locals) :
  ends_loop i = true ->
  loop l (pre ++ i :: post) = loop l (pre ++ [i])
  /\ (loop l (pre ++ i :: post)).2 = Returned.
Proof.
  intros Hi. revert l. induction pre as [|j pre IH]; intros l; simpl.
  - rewrite (loopStep_ends_loop l i Hi). split; reflexivity.
  - destruct (loopStep l j) as [[l' w] ret].
    destruct ret; [split; reflexivity|].
    destruct (IH l') as [Heq Hret]. rewrite Heq in *.
    destruct (loop l' (pre ++ [i])) as [t o]. simpl in *. split; [reflexivity|exact Hret].
Qed.

(** X11: the stream does not end on its own.  Values from the channel
    (results whose write fails otherwise than on a session not open,
    pubsub errors, values of another type) and ticks on an open session
    with the hosts counted and the writes made leave a handler that
    reached its loop waiting, every one of them read; a finished campaign
    is no reason to return. *)
Theorem stream_keeps_running (F : string) (d : deps) (campaignID : uint)
    (u0 : updateEnv) (inputs : list input) :
  Forall (fun i => goes_on i = true) inputs ->
  result (StreamCampaignResults F d campaignID u0 inputs)
  = result (StreamCampaignResults F d campaignID u0 [])
  /\ (result (StreamCampaignResults F d campaignID u0 []) = Waiting ->
      length (statuses (StreamCampaignResults F d campaignID u0 inputs))
      = (2 + length inputs)%nat).
Proof.
  intros Hall. unfold StreamCampaignResults.
  destruct (Authorize d); [split; [reflexivity|discriminate]|].
  destruct (FromContext d) as [vc|]; [|split; [reflexivity|discriminate]].
  destruct (lookupCampaign d campaignID) as [e|c];
    [split; [reflexivity|discriminate]|].
  case_decide; [|split; [reflexivity|discriminate]].
  destruct (openReader d c); [split; [reflexivity|discriminate]|].
  destruct (DistributedQueryCampaignTargetIDs d (ID c));
    [split; [reflexivity|discriminate]|].
  destruct (updateStatus u0 initialLocals) as [[l1 w1] failed].
  destruct failed; [split; [reflexivity|discriminate]|].
  destruct (loop_goes_on inputs l1 Hall) as [Ho Hlen].
  destruct (loop l1 inputs) as [t o]. simpl in *. subst o.
  split; [reflexivity|]. intros _. rewrite length_map, Hlen. reflexivity.
Qed.

(** X12: a result whose write finds the session not open, a tick on a
    closed session and a tick on which the hosts cannot be counted each
    end the handler, and nothing that arrives afterwards is read. *)
Theorem stream_ends (F : string) (d : deps) (campaignID : uint)
    (u0 : updateEnv) (pre post : list input) (i : input) :
  ends_loop i = true ->
  result (StreamCampaignResults F d campaignID u0 (pre ++ i :: post)) = Returned
  /\ StreamCampaignResults F d campaignID u0 (pre ++ i :: post)
     = StreamCampaignResults F d campaignID u0 (pre ++ [i]).
Proof.
  intros Hi. unfold StreamCampaignResults.
  destruct (Authorize d); [split; reflexivity|].
  destruct (FromContext d) as [vc|]; [|split; reflexivity].
  destruct (lookupCampaign d campaignID) as [e|c]; [split; reflexivity|].
  case_decide; [|split; reflexivity].
  destruct (openReader d c); [split; reflexivity|].
  destruct (DistributedQueryCampaignTargetIDs d (ID c)); [split; reflexivity|].
  destruct (updateStatus u0 initialLocals) as [[l1 w1] failed].
  destruct failed; [split; reflexivity|].
  destruct (loop_ends pre post i l1 Hi) as [Heq Hret]. rewrite Heq in *.
  destruct (loop l1 (pre ++ [i])) as [t o]. simpl in *. split; [exact Hret|reflexivity].
Qed.

Lemma loop_snoc (pre : list input) (i : input) (l : locals) :
  (loop l pre).2 = Waiting ->
  loop l (pre ++ [i])
  = ((loop l pre).1
       ++ [(loopStep (default l (last (map fst (loop l pre).1))) i).1],
     if (loopStep (default l (last (map fst (loop l pre).1))) i).2
     then Returned else Waiting).
Proof.
  revert l. induction pre as [|j pre IH]; intros l; simpl.
  - intros _. destruct (loopStep l i) as [[l' w] ret]. destruct ret; reflexivity.
  - destruct (loopStep l j) as [[l' w] ret]. destruct ret; [discriminate|].
    specialize (IH l'). destruct (loop l' pre) as [t o]. simpl in *.
    intros Ho. rewrite (IH Ho). rewrite default_last_cons. reflexivity.
Qed.

(** A call of [updateStatus] that counts the hosts and yet returns an
    error is one whose totals or status write failed: the failed write is
    the last one made, after the totals when it is the status and the
    totals had changed too; the status is updated only in the second case. *)
Lemma updateStatus_fails (u : updateEnv) (l : locals) (metrics : TargetMetrics) :
  CountHostsInTargets u = inr metrics ->
  (updateStatus u l).2 = true ->
  (totalsWrite u <> None
   /\ (updateStatus u l).1.2
      = [WriteJSONMessage "totals" (Totals (totals_of metrics))]
   /\ status (updateStatus u l).1.1 = status l)
  \/ (statusWrite u <> None
      /\ ExpectedResults (status (updateStatus u l).1.1) = OnlineHosts metrics
      /\ ((updateStatus u l).1.2
          = [WriteJSONMessage "status" (StatusOf (status (updateStatus u l).1.1))]
          \/ (totalsWrite u = None
              /\ (updateStatus u l).1.2
                 = [WriteJSONMessage "totals" (Totals (totals_of metrics));
                    WriteJSONMessage "status"
                      (StatusOf (status (updateStatus u l).1.1))]))).
Proof.
  intros Hcount. unfold updateStatus. rewrite Hcount.
  fold (totals_of metrics).
  destruct (decide (lastTotals l = totals_of metrics)) as [Heq|Hne]; simpl.
  - destruct (OnlineHosts metrics <=? ActualResults (status l)); simpl;
      case_decide; simpl; try discriminate;
      (destruct (statusWrite u) eqn:Hs; simpl; [|discriminate]); intros _;
      right; (split; [discriminate|]); split; [reflexivity|left; reflexivity
                                              |reflexivity|left; reflexivity].
  - destruct (totalsWrite u) eqn:Ht; simpl.
    + intros _. left. split; [discriminate|]. split; reflexivity.
    + destruct (OnlineHosts metrics <=? ActualResults (status l)); simpl;
        case_decide; simpl; try discriminate;
        (destruct (statusWrite u) eqn:Hs; simpl; [|discriminate]); intros _;
        right; (split; [discriminate|]);
        split; [reflexivity|right; split; reflexivity
               |reflexivity|right; split; reflexivity].
Qed.

Lemma updateStatus_at_most_two (u : updateEnv) (l : locals) :
  (length (updateStatus u l).1.2 <= 2)%nat.
Proof.
  unfold updateStatus.
  destruct (CountHostsInTargets u) as [err|metrics]; simpl; [lia|].
  destruct (decide (lastTotals l = _)); simpl.
  - case_decide; simpl; lia.
  - destruct (totalsWrite u); simpl; [lia|]. case_decide; simpl; lia.
Qed.

(** X15: the round in which the loop returns writes at most two messages
    and is followed by the deferred calls alone: the ticker is stopped,
    the campaign completed and the reader cancelled.  On a closed
    session it writes nothing, on a result whose write finds the session
    not open that result, on a count that fails the error of the count,
    and the status is as before; on a totals write that fails the totals
    alone, with the status as before; on a status write that fails the
    new status, after the totals when they had changed too. *)
Theorem last_round (F : string) (d : deps) (campaignID : uint)
    (u0 : updateEnv) (pre : list input) (i : input) :
  result (StreamCampaignResults F d campaignID u0 pre) = Waiting ->
  result (StreamCampaignResults F d campaignID u0 (pre ++ [i])) = Returned ->
  exists c ws,
    lookupCampaign d campaignID = inr c
    /\ events (StreamCampaignResults F d campaignID u0 (pre ++ [i]))
       = events (StreamCampaignResults F d campaignID u0 pre)
         ++ ws ++ [tickerStop; CompleteCampaign c; cancelFunc]
    /\ (length ws <= 2)%nat
    /\ (if ends_loop i
        then ws = last_writes i
             /\ last (statuses (StreamCampaignResults F d campaignID u0
                                  (pre ++ [i])))
                = last (statuses (StreamCampaignResults F d campaignID u0 pre))
        else exists state u metrics s,
            i = FromTicker state u
            /\ state <> SessionClosed
            /\ CountHostsInTargets u = inr metrics
            /\ last (statuses (StreamCampaignResults F d campaignID u0
                                 (pre ++ [i]))) = Some s
            /\ ((totalsWrite u <> None
                 /\ ws = [WriteJSONMessage "totals" (Totals (totals_of metrics))]
                 /\ last (statuses (StreamCampaignResults F d campaignID u0 pre))
                    = Some s)
                \/ (statusWrite u <> None
                    /\ ExpectedResults s = OnlineHosts metrics
                    /\ (ws = [WriteJSONMessage "status" (StatusOf s)]
                        \/ (totalsWrite u = None
                            /\ ws = [WriteJSONMessage "totals"
                                       (Totals (totals_of metrics));
                                     WriteJSONMessage "status" (StatusOf s)]))))).
Proof.
  unfold StreamCampaignResults.
  destruct (Authorize d); [discriminate|].
  destruct (FromContext d) as [vc|]; [|discriminate].
  destruct (lookupCampaign d campaignID) as [e|c]; [discriminate|].
  case_decide; [|discriminate].
  destruct (openReader d c); [discriminate|].
  destruct (DistributedQueryCampaignTargetIDs d (ID c)); [discriminate|].
  destruct (updateStatus u0 initialLocals) as [[l1 w1] failed].
  destruct failed; [discriminate|].
  pose proof (loop_snoc pre i l1) as Hsnoc.
  destruct (loop l1 pre) as [t o]. simpl in *. intros ->.
  rewrite (Hsnoc eq_refl). clear Hsnoc.
  set (lp := default l1 (last (map fst t))).
  assert (last (status l1 :: map (fun x : locals * list event => status x.1) t)
          = Some (status lp)) as Hlp.
  { rewrite last_cons_map. unfold lp.
    change (map fst t) with (fst <$> t). rewrite !fmap_last.
    destruct (last t); reflexivity. }
  assert (forall (l' : locals) (w : list event),
             last (status l1
                   :: map (fun x : locals * list event => status x.1)
                        (t ++ [(l', w)])) = Some (status l')) as Hlast.
  { intros l' w. rewrite map_app. simpl.
    change (status l1 :: ?x ++ ?y) with ((status l1 :: x) ++ y).
    apply last_snoc. }
  assert (forall (l' : locals) (w : list event),
             GetCampaignReader c
             :: w1 ++ concat (map snd (t ++ [(l', w)])) ++ deferred c true
             = (GetCampaignReader c :: w1 ++ concat (map snd t) ++ [])
               ++ w ++ [tickerStop; CompleteCampaign c; cancelFunc]) as Hev.
  { intros l' w. rewrite map_app, concat_app. simpl. rewrite !app_nil_r.
    rewrite <- !app_assoc. reflexivity. }
  destruct (ends_loop i) eqn:Hi.
  - rewrite (loopStep_ends_loop lp i Hi). simpl. intros _.
    exists c, (last_writes i). split; [reflexivity|]. split; [apply Hev|].
    split.
    + destruct i as [[res|e|] w|state u]; simpl; try lia.
      case_decide; simpl; [lia|]. destruct (CountHostsInTargets u); simpl; lia.
    + split; [reflexivity|]. rewrite Hlast, Hlp. reflexivity.
  - destruct i as [[res|e|] w|state u]; simpl in Hi |- *.
    + destruct w as [[|msg]|]; simpl; discriminate.
    + discriminate.
    + discriminate.
    + apply orb_false_elim in Hi as [Hstate Hcount].
      apply bool_decide_eq_false in Hstate.
      destruct (CountHostsInTargets u) as [err|metrics] eqn:Hc; [discriminate|].
      rewrite decide_False by exact Hstate.
      pose proof (updateStatus_fails u lp metrics Hc) as Hfail.
      pose proof (updateStatus_at_most_two u lp) as Htwo.
      destruct (updateStatus u lp) as [[l' w] ret]. simpl in *.
      destruct ret; [|discriminate]. intros _.
      exists c, w. split; [reflexivity|]. split; [apply Hev|].
      split; [exact Htwo|].
      exists state, u, metrics, (status l').
      split; [reflexivity|]. split; [exact Hstate|]. split; [exact Hc|].
      split; [apply Hlast|].
      destruct (Hfail eq_refl) as [(Ht & Hw & Hs)|(Hs & He & Hw)].
      * left. split; [exact Ht|]. split; [exact Hw|].
        rewrite Hlp, Hs. reflexivity.
      * right. split; [exact Hs|]. split; [exact He|exact Hw].
Qed.

(** *** The first status *)

Lemma statuses_written_app (a b : list event) :
  statuses_written (a ++ b) = statuses_written a ++ statuses_written b.
Proof. unfold statuses_written. apply omap_app. Qed.

Lemma updateStatus_first (u0 : updateEnv) :
  match CountHostsInTargets u0 with
  | inl _ => statuses_written (updateStatus u0 initialLocals).1.2 = []
  | inr metrics =>
      statuses_written (updateStatus u0 initialLocals).1.2 = []
      \/ statuses_written (updateStatus u0 initialLocals).1.2
         = [ {| ExpectedResults := OnlineHosts metrics;
                ActualResults := 0;
                Status := if OnlineHosts metrics =? 0
                          then campaignStatusFinished
                          else campaignStatusPending |} ]
  end.
Proof.
  unfold updateStatus, initialLocals. simpl.
  destruct (CountHostsInTargets u0) as [err|metrics]; simpl; [reflexivity|].
  assert ((OnlineHosts metrics <=? 0) = (OnlineHosts metrics =? 0)) as Hz.
  { destruct (N.eqb_spec (OnlineHosts metrics) 0) as [->|Hne]; [reflexivity|].
    apply N.leb_gt. lia. }
  destruct (decide (_ = _)); simpl.
  - rewrite Hz. destruct (_ =? 0); case_decide; simpl; auto.
  - destruct (totalsWrite u0); simpl; [left; reflexivity|].
    rewrite Hz. destruct (_ =? 0); case_decide; simpl; auto.
Qed.

(** X13: the first status message of a stream carries the online hosts of
    the first count as expected results and no actual result; it is
    finished exactly when no host is online, pending otherwise. *)
Theorem first_status_message (F : string) (d : deps) (campaignID : uint)
    (u0 : updateEnv) (inputs : list input) (s : campaignStatus)
    (rest : list campaignStatus) :
  statuses_written (events (StreamCampaignResults F d campaignID u0 inputs))
  = s :: rest ->
  exists metrics,
    CountHostsInTargets u0 = inr metrics
    /\ s = {| ExpectedResults := OnlineHosts metrics;
              ActualResults := 0;
              Status := if OnlineHosts metrics =? 0
                        then campaignStatusFinished
                        else campaignStatusPending |}.
Proof.
  unfold StreamCampaignResults.
  destruct (Authorize d); [discriminate|].
  destruct (FromContext d) as [vc|]; [|discriminate].
  destruct (lookupCampaign d campaignID) as [e|c]; [discriminate|].
  case_decide; [|discriminate].
  destruct (openReader d c); [discriminate|].
  destruct (DistributedQueryCampaignTargetIDs d (ID c)); [discriminate|].
  pose proof (updateStatus_first u0) as Hfirst.
  pose proof (first_status_written u0) as Hwritten.
  destruct (updateStatus u0 initialLocals) as [[l1 w1] failed]. simpl in *.
  destruct failed.
  - simpl. change (GetCampaignReader c :: w1 ++ deferred c false)
      with ([GetCampaignReader c] ++ w1 ++ deferred c false).
    rewrite !statuses_written_app. simpl. rewrite app_nil_r.
    destruct (CountHostsInTargets u0) as [err|metrics].
    + rewrite Hfirst. discriminate.
    + destruct Hfirst as [-> | ->]; [discriminate|].
      intros [= <- _]. exists metrics. split; reflexivity.
  - destruct (loop l1 inputs) as [t o]. simpl.
    change (GetCampaignReader c :: ?x) with ([GetCampaignReader c] ++ x).
    rewrite !statuses_written_app. simpl.
    specialize (Hwritten eq_refl).
    destruct (CountHostsInTargets u0) as [err|metrics].
    + rewrite Hfirst. exfalso. clear -Hwritten Hfirst.
      induction w1 as [|[m|typ [tt|s'|r]|c'|c'| |] w1 IH]; simpl in *;
        try discriminate; auto.
    + destruct Hfirst as [Hnone | ->].
      * exfalso. clear -Hwritten Hnone.
        induction w1 as [|[m|typ [tt|s'|r]|c'|c'| |] w1 IH]; simpl in *;
          try discriminate; auto.
      * intros [= <- _]. exists metrics. split; reflexivity.
Qed.

(** *** Expected results and totals *)

Lemma totals_written_app (a b : list event) :
  totals_written (a ++ b) = totals_written a ++ totals_written b.
Proof. unfold totals_written. apply omap_app. Qed.

Lemma online_after_app (online : uint) (a b : list event) :
  online_after online (a ++ b) = online_after (online_after online a) b.
Proof.
  unfold online_after. rewrite totals_written_app.
  destruct (totals_written b) as [|t ts] eqn:Hb using rev_ind.
  - rewrite app_nil_r. reflexivity.
  - rewrite app_assoc, !last_snoc. reflexivity.
Qed.

Lemma expected_tracks_app (online : uint) (a b : list event) :
  expected_tracks online (a ++ b)
  = expected_tracks online a && expected_tracks (online_after online a) b.
Proof.
  revert online. induction a as [|e a IH]; intros online; [reflexivity|].
  change ((e :: a) ++ b) with (e :: (a ++ b)).
  assert (forall o, online_after o (e :: a)
                    = online_after (online_after o [e]) a) as Hcons
    by (intros o; apply (online_after_app o [e] a)).
  destruct e as [m|typ [t|s|r]|c|c| |]; simpl; rewrite IH, Hcons;
    try reflexivity.
  rewrite andb_assoc. reflexivity.
Qed.

Lemma expected_tracks_spec (evs : list event) (online : uint) :
  expected_tracks online evs = true ->
  forall before typ s after,
    evs = before ++ WriteJSONMessage typ (StatusOf s) :: after ->
    ExpectedResults s = online_after online before.
Proof.
  intros Hok before typ s after ->.
  rewrite expected_tracks_app in Hok. apply andb_prop in Hok as [_ Hok].
  simpl in Hok. apply andb_prop in Hok as [Hok _].
  apply N.eqb_eq in Hok. exact Hok.
Qed.

Lemma updateStatus_tracks (u : updateEnv) (l : locals) :
  expected_tracks (Online (lastTotals l)) (updateStatus u l).1.2 = true
  /\ Online (lastTotals (updateStatus u l).1.1)
     = online_after (Online (lastTotals l)) (updateStatus u l).1.2.
Proof.
  unfold updateStatus, online_after.
  destruct (CountHostsInTargets u) as [err|metrics]; simpl; [split; reflexivity|].
  destruct (decide (lastTotals l = _)) as [Heq|Hne]; simpl.
  - destruct (_ <=? _); case_decide; simpl; rewrite ?Heq; simpl;
      rewrite ?N.eqb_refl; split; reflexivity.
  - destruct (totalsWrite u); simpl; [split; reflexivity|].
    destruct (_ <=? _); case_decide; simpl; rewrite ?N.eqb_refl;
      split; reflexivity.
Qed.

Lemma loopStep_tracks (l : locals) (i : input) :
  expected_tracks (Online (lastTotals l)) (loopStep l i).1.2 = true
  /\ Online (lastTotals (loopStep l i).1.1)
     = online_after (Online (lastTotals l)) (loopStep l i).1.2.
Proof.
  destruct i as [[res|e|] w|state u]; simpl.
  - destruct w as [[|msg]|]; split; reflexivity.
  - split; reflexivity.
  - split; reflexivity.
  - case_decide; [split; reflexivity|apply updateStatus_tracks].
Qed.

Lemma loop_tracks (inputs : list input) (l : locals) :
  expected_tracks (Online (lastTotals l)) (loop_events l inputs) = true.
Proof.
  revert l. induction inputs as [|i rest IH]; intros l; [reflexivity|].
  rewrite loop_events_cons.
  destruct (loopStep_tracks l i) as [Hok Hon].
  destruct (loopStep l i) as [[l' w] ret]. simpl in *.
  rewrite expected_tracks_app, Hok. simpl.
  destruct ret; [reflexivity|]. rewrite <- Hon. apply IH.
Qed.

(** X10: every status message expects the online count of the latest
    totals message written before it, and zero when no totals message
    came before. *)
Theorem expected_results_follow_totals (F : string) (d : deps) (campaignID : uint)
    (u0 : updateEnv) (inputs : list input) (before after : list event)
    (typ : string) (s : campaignStatus) :
  events (StreamCampaignResults F d campaignID u0 inputs)
  = before ++ WriteJSONMessage typ (StatusOf s) :: after ->
  ExpectedResults s = online_after 0 before.
Proof.
  apply expected_tracks_spec.
  unfold StreamCampaignResults.
  destruct (Authorize d); [reflexivity|].
  destruct (FromContext d) as [vc|]; [|reflexivity].
  destruct (lookupCampaign d campaignID) as [e|c]; [reflexivity|].
  case_decide; [|reflexivity].
  destruct (openReader d c); [reflexivity|].
  destruct (DistributedQueryCampaignTargetIDs d (ID c)); [reflexivity|].
  destruct (updateStatus_tracks u0 initialLocals) as [Hok Hon].
  destruct (updateStatus u0 initialLocals) as [[l1 w1] failed]. simpl in *.
  destruct failed; simpl.
  - rewrite expected_tracks_app, Hok. reflexivity.
  - pose proof (loop_tracks inputs l1) as Hloop. unfold loop_events in Hloop.
    destruct (loop l1 inputs) as [t o]. simpl in *.
    rewrite !expected_tracks_app, Hok, <- Hon, Hloop. simpl.
    destruct o; reflexivity.
Qed.

(** *** Results *)

Lemma results_written_app (a b : list event) :
  results_written (a ++ b) = results_written a ++ results_written b.
Proof. unfold results_written. apply omap_app. Qed.

Lemma results_written_none (ws : list event) :
  Forall (fun e => is_result e = false) ws -> results_written ws = [].
Proof.
  induction 1 as [|e ws He _ IH]; [reflexivity|].
  destruct e as [m|typ [t|s|r]|c|c| |]; simpl in *; try exact IH. discriminate.
Qed.

Lemma loopStep_results (l : locals) (i : input) :
  results_written (loopStep l i).1.2
  = map mapHostnameRows (results_received [i]).
Proof.
  destruct i as [[res|e|] w|state u]; simpl; try reflexivity.
  - destruct w as [[|msg]|]; reflexivity.
  - case_decide; [reflexivity|].
    apply results_written_none, updateStatus_no_result.
Qed.

Lemma loop_results (inputs : list input) (l : locals) :
  results_written (loop_events l inputs)
  = map mapHostnameRows
      (results_received (take (length (loop l inputs).1) inputs)).
Proof.
  revert l. induction inputs as [|i rest IH]; intros l; [reflexivity|].
  rewrite loop_events_cons. simpl.
  pose proof (loopStep_results l i) as Hstep.
  destruct (loopStep l i) as [[l' w] ret]. simpl in *.
  rewrite results_written_app, Hstep.
  destruct ret; simpl.
  - rewrite app_nil_r. reflexivity.
  - specialize (IH l'). destruct (loop l' rest) as [t o]. simpl in *.
    rewrite IH. unfold results_received.
    destruct i as [[res|e|] w0|state u]; reflexivity.
Qed.

(** X14: the results written on the connection are the results received
    from the channel in the rounds the loop ran, in the order received,
    each through [mapHostnameRows] and each once, whatever became of the
    writes. *)
Theorem results_forwarded (F : string) (d : deps) (campaignID : uint)
    (u0 : updateEnv) (inputs : list input) :
  results_written (events (StreamCampaignResults F d campaignID u0 inputs))
  = map mapHostnameRows
      (results_received
         (take (length (statuses (StreamCampaignResults F d campaignID u0 inputs)) - 2)
            inputs)).
Proof.
  unfold StreamCampaignResults.
  destruct (Authorize d); [reflexivity|].
  destruct (FromContext d) as [vc|]; [|reflexivity].
  destruct (lookupCampaign d campaignID) as [e|c]; [reflexivity|].
  case_decide; [|reflexivity].
  destruct (openReader d c); [reflexivity|].
  destruct (DistributedQueryCampaignTargetIDs d (ID c)); [reflexivity|].
  pose proof (updateStatus_no_result u0 initialLocals) as Hnr.
  destruct (updateStatus u0 initialLocals) as [[l1 w1] failed]. simpl in *.
  destruct failed; simpl.
  - rewrite results_written_app, (results_written_none _ Hnr). reflexivity.
  - pose proof (loop_results inputs l1) as Hloop. unfold loop_events in Hloop.
    destruct (loop l1 inputs) as [t o]. simpl in *.
    rewrite length_map, Nat.sub_0_r.
    rewrite !results_written_app, (results_written_none _ Hnr), Hloop. simpl.
    destruct o; simpl; rewrite app_nil_r; reflexivity.
Qed.



(** X16: [mapHostnameRows] is idempotent, and never adds a row. *)
Theorem mapHostnameRows_idempotent (res : DistributedQueryResult) :
  mapHostnameRows (mapHostnameRows res) = mapHostnameRows res
  /\ (length (Rows (mapHostnameRows res)) <= length (Rows res))%nat.
Proof.
  split.
  - unfold mapHostnameRows. simpl. f_equal.
    generalize (Hostname res) (HostDisplayName res) (Rows res).
    intros h dn rows. induction rows as [|[m|] rows IH]; simpl; [reflexivity| |exact IH].
    f_equal; [|exact IH]. f_equal.
    apply map_eq. intros k.
    destruct (decide (k = "host_display_name")) as [->|Hk1].
    { rewrite !lookup_insert_eq. reflexivity. }
    rewrite !(lookup_insert_ne _ "host_display_name") by congruence.
    destruct (decide (k = "host_hostname")) as [->|Hk2].
    { rewrite !lookup_insert_eq. reflexivity. }
    rewrite !lookup_insert_ne by congruence. reflexivity.
  - unfold mapHostnameRows. simpl. generalize (Rows res). intros rows.
    induction rows as [|[m|] rows IH]; simpl; [lia| |].
    + apply le_n_S. exact IH.
    + apply Nat.le_le_succ_r. exact IH.
Qed.

Lemma updateStatus_quiet_witness :
  (updateStatus (demoUpdate 1) initialLocals).2 = false
  /\ updateStatus
       {| CountHostsInTargets := CountHostsInTargets (demoUpdate 1);
          totalsWrite := Some ErrSessionNotOpen;
          statusWrite := Some ErrSessionNotOpen |}
       (updateStatus (demoUpdate 1) initialLocals).1.1
     = ((updateStatus (demoUpdate 1) initialLocals).1.1, [], false).
Proof.
  split; [reflexivity|]. apply updateStatus_quiet; reflexivity.
Defined.

Lemma expected_results_follow_totals_witness :
  ExpectedResults {| ExpectedResults := 1; ActualResults := 1;
                     Status := campaignStatusFinished |}
  = online_after 0
      (take 4 (events (StreamCampaignResults "forbidden" (demoDeps 1) 7
                         (demoUpdate 1) demoInputs))).
Proof.
  apply (expected_results_follow_totals "forbidden" (demoDeps 1) 7 (demoUpdate 1)
           demoInputs _ [] "status").
  reflexivity.
Defined.

Lemma stream_keeps_running_witness :
  Forall (fun i => goes_on i = true) demoInputs
  /\ result (StreamCampaignResults "forbidden" (demoDeps 1) 7 (demoUpdate 1)
               demoInputs) = Waiting
  /\ length (statuses (StreamCampaignResults "forbidden" (demoDeps 1) 7
                         (demoUpdate 1) demoInputs)) = 4%nat.
Proof.
  assert (Forall (fun i => goes_on i = true) demoInputs) as Hall
    by (repeat constructor).
  split; [exact Hall|].
  destruct (stream_keeps_running "forbidden" (demoDeps 1) 7 (demoUpdate 1)
              demoInputs Hall) as [Hres Hlen].
  split; [rewrite Hres; reflexivity|]. apply Hlen. reflexivity.
Defined.

Lemma stream_ends_witness :
  ends_loop closedTick = true
  /\ result (StreamCampaignResults "forbidden" (demoDeps 1) 7 (demoUpdate 1)
               (demoInputs ++ closedTick :: demoInputs)) = Returned
  /\ StreamCampaignResults "forbidden" (demoDeps 1) 7 (demoUpdate 1)
       (demoInputs ++ closedTick :: demoInputs)
     = StreamCampaignResults "forbidden" (demoDeps 1) 7 (demoUpdate 1)
         (demoInputs ++ [closedTick]).
Proof.
  split; [reflexivity|].
  apply (stream_ends "forbidden" (demoDeps 1) 7 (demoUpdate 1) demoInputs
           demoInputs closedTick).
  reflexivity.
Defined.

Lemma last_round_witness :
  exists c ws,
    lookupCampaign (demoDeps 1) 7 = inr c
    /\ events (StreamCampaignResults "forbidden" (demoDeps 1) 7 (demoUpdate 1)
                 ([FromReadChan (ChanResult demoResult) None] ++ [brokenTick]))
       = events (StreamCampaignResults "forbidden" (demoDeps 1) 7 (demoUpdate 1)
                   [FromReadChan (ChanResult demoResult) None])
         ++ ws ++ [tickerStop; CompleteCampaign c; cancelFunc]
    /\ (length ws <= 2)%nat
    /\ (if ends_loop brokenTick
        then ws = last_writes brokenTick
             /\ last (statuses (StreamCampaignResults "forbidden" (demoDeps 1) 7
                                  (demoUpdate 1)
                                  ([FromReadChan (ChanResult demoResult) None]
                                     ++ [brokenTick])))
                = last (statuses (StreamCampaignResults "forbidden" (demoDeps 1)
                                    7 (demoUpdate 1)
                                    [FromReadChan (ChanResult demoResult) None]))
        else exists state u metrics s,
            brokenTick = FromTicker state u
            /\ state <> SessionClosed
            /\ CountHostsInTargets u = inr metrics
            /\ last (statuses (StreamCampaignResults "forbidden" (demoDeps 1) 7
                                 (demoUpdate 1)
                                 ([FromReadChan (ChanResult demoResult) None]
                                    ++ [brokenTick]))) = Some s
            /\ ((totalsWrite u <> None
                 /\ ws = [WriteJSONMessage "totals" (Totals (totals_of metrics))]
                 /\ last (statuses (StreamCampaignResults "forbidden"
                                      (demoDeps 1) 7 (demoUpdate 1)
                                      [FromReadChan (ChanResult demoResult) None]))
                    = Some s)
                \/ (statusWrite u <> None
                    /\ ExpectedResults s = OnlineHosts metrics
                    /\ (ws = [WriteJSONMessage "status" (StatusOf s)]
                        \/ (totalsWrite u = None
                            /\ ws = [WriteJSONMessage "totals"
                                       (Totals (totals_of metrics));
                                     WriteJSONMessage "status" (StatusOf s)]))))).
Proof.
  apply (last_round "forbidden" (demoDeps 1) 7 (demoUpdate 1)
           [FromReadChan (ChanResult demoResult) None] brokenTick);
    reflexivity.
Defined.

Lemma first_status_message_witness :
  exists metrics,
    CountHostsInTargets (demoUpdate 1) = inr metrics
    /\ {| ExpectedResults := 1; ActualResults := 0;
          Status := campaignStatusPending |}
       = {| ExpectedResults := OnlineHosts metrics;
            ActualResults := 0;
            Status := if OnlineHosts metrics =? 0
                      then campaignStatusFinished
                      else campaignStatusPending |}.
Proof.
  apply (first_status_message "forbidden" (demoDeps 1) 7 (demoUpdate 1)
           demoInputs _
           [ {| ExpectedResults := 1; ActualResults := 1;
                Status := campaignStatusFinished |} ]).
  reflexivity.
Defined.

(** *** After a tick *)

Lemma default_last_app {A : Type} (x : A) (a b : list A) :
  default x (last (a ++ b)) = default (default x (last a)) (last b).
Proof.
  destruct b as [|y b _] using rev_ind.
  - rewrite app_nil_r. reflexivity.
  - rewrite app_assoc, !last_snoc. reflexivity.
Qed.

(** The variables [lastTotals] and [lastStatus] are the last totals and
    the last status the loop wrote. *)
Lemma loop_last_written (inputs : list input) (l : locals) :
  lastTotals (default l (last (map fst (loop l inputs).1)))
  = default (lastTotals l) (last (totals_written (loop_events l inputs)))
  /\ lastStatus (default l (last (map fst (loop l inputs).1)))
     = default (lastStatus l) (last (statuses_written (loop_events l inputs))).
Proof.
  revert l. induction inputs as [|i rest IH]; intros l; [split; reflexivity|].
  rewrite loop_events_cons. simpl.
  destruct (loopStep_writes l i) as (_ & _ & Hlt & _ & Hls).
  destruct (loopStep l i) as [[l' w] ret]. simpl in *.
  destruct ret; simpl.
  - rewrite app_nil_r. split; assumption.
  - destruct (IH l') as [IHt IHs]. unfold loop_events in *.
    destruct (loop l' rest) as [t o]. simpl in *.
    rewrite default_last_cons.
    rewrite totals_written_app, statuses_written_app, !default_last_app.
    rewrite <- Hlt, <- Hls. split; assumption.
Qed.

(** X23: a tick that succeeds brings the connection up to date.  After
    it the latest totals written (the zero totals when none was) are the
    totals of its count, and the latest status written expects its online
    hosts, counts the results received so far, and is finished when that
    many hosts or more have answered. *)
Theorem tick_brings_up_to_date (F : string) (d : deps) (campaignID : uint)
    (u0 u : updateEnv) (pre : list input) (state : SessionState)
    (metrics : TargetMetrics) :
  Forall (fun i => goes_on i = true) (pre ++ [FromTicker state u]) ->
  CountHostsInTargets u = inr metrics ->
  result (StreamCampaignResults F d campaignID u0 []) = Waiting ->
  default (lastTotals initialLocals)
    (last (totals_written
             (events (StreamCampaignResults F d campaignID u0
                        (pre ++ [FromTicker state u])))))
  = totals_of metrics
  /\ exists s,
       last (statuses_written
               (events (StreamCampaignResults F d campaignID u0
                          (pre ++ [FromTicker state u])))) = Some s
       /\ ExpectedResults s = OnlineHosts metrics
       /\ ActualResults s = results_counted pre (length pre) mod uint_modulus
       /\ (OnlineHosts metrics <= ActualResults s ->
           Status s = campaignStatusFinished).
Proof.
  intros Hall Hcount. unfold StreamCampaignResults.
  destruct (Authorize d); [discriminate|].
  destruct (FromContext d) as [vc|]; [|discriminate].
  destruct (lookupCampaign d campaignID) as [e|c]; [discriminate|].
  case_decide; [|discriminate].
  destruct (openReader d c); [discriminate|].
  destruct (DistributedQueryCampaignTargetIDs d (ID c)); [discriminate|].
  pose proof (first_status_written u0) as Hfirst.
  pose proof (updateStatus_ActualResults u0 initialLocals) as Hact0.
  destruct (updateStatus_writes u0 initialLocals) as (_ & _ & Hlt0 & _ & Hls0).
  destruct (updateStatus u0 initialLocals) as [[l1 w1] failed]. simpl in *.
  destruct failed; [discriminate|]. intros _. specialize (Hfirst eq_refl).
  (* the rounds before the tick *)
  apply Forall_app in Hall as [Hpre Htick].
  apply Forall_cons in Htick as [Htick _].
  destruct (loop_goes_on pre l1 Hpre) as [Ho Hlen].
  pose proof (loop_snoc pre (FromTicker state u) l1 Ho) as Hsnoc.
  pose proof (loop_ActualResults pre l1 0) as Hact.
  rewrite Hlen, N.add_0_l in Hact.
  specialize (Hact ltac:(rewrite Hact0; reflexivity)).
  pose proof (loop_last_written (pre ++ [FromTicker state u]) l1) as [Ht Hs].
  unfold loop_events in Ht, Hs. rewrite Hsnoc in *.
  set (lp := default l1 (last (map fst (loop l1 pre).1))) in *.
  (* the tick *)
  pose proof (loopStep_goes_on lp _ Htick) as Hret.
  assert (loopStep lp (FromTicker state u) = updateStatus u lp) as Hstep.
  { simpl. simpl in Htick. repeat (apply andb_prop in Htick as [Htick ?]).
    apply bool_decide_eq_true in Htick. rewrite decide_False by exact Htick.
    reflexivity. }
  rewrite Hstep in *.
  pose proof (updateStatus_settles u lp metrics Hcount Hret) as (S1 & S2 & S3 & S4).
  pose proof (updateStatus_ActualResults u lp) as Hact'.
  destruct (updateStatus u lp) as [[l' w] ret]. simpl in *. subst ret.
  destruct (loop l1 pre) as [t o]. simpl in *.
  rewrite map_app in Ht, Hs. simpl in Ht, Hs.
  rewrite default_last_app in Ht, Hs. simpl in Ht, Hs.
  rewrite app_nil_r.
  change (GetCampaignReader c :: w1 ++ ?x) with ([GetCampaignReader c] ++ w1 ++ x).
  rewrite !totals_written_app, !statuses_written_app. simpl.
  split.
  - rewrite default_last_app, <- Hlt0, <- Ht. exact S1.
  - assert (statuses_written w1 <> []) as Hne.
    { clear -Hfirst. intros Hnil.
      induction w1 as [|[m|typ [tt|s'|r]|c'|c'| |] w1 IH]; simpl in *;
        try discriminate; auto. }
    exists (status l').
    split.
    + destruct (last (statuses_written w1 ++ statuses_written (concat (map snd (t ++ [(l', w)])))))
        as [s|] eqn:Hlast.
      * f_equal.
        pose proof (default_last_app (lastStatus initialLocals)
                      (statuses_written w1)
                      (statuses_written (concat (map snd (t ++ [(l', w)])))))
          as Hd.
        simpl in Hd. rewrite Hlast, <- Hls0, <- Hs in Hd. simpl in Hd.
        rewrite Hd. exact S4.
      * apply last_None in Hlast. apply app_eq_nil in Hlast as [Hnil _].
        contradiction.
    + split; [exact S2|]. split; [rewrite Hact', Hact; reflexivity|].
      intros Hle. apply S3. rewrite S2. apply N.leb_le. exact Hle.
Qed.

Lemma tick_brings_up_to_date_witness :
  default (lastTotals initialLocals)
    (last (totals_written
             (events (StreamCampaignResults "forbidden" (demoDeps 1) 7
                        (demoUpdate 1)
                        ([FromReadChan (ChanResult demoResult) None]
                           ++ [FromTicker SessionActive (demoUpdate 1)])))))
  = {| Total := 1; Online := 1; Offline := 0; MissingInAction := 0 |}
  /\ exists s,
       last (statuses_written
               (events (StreamCampaignResults "forbidden" (demoDeps 1) 7
                          (demoUpdate 1)
                          ([FromReadChan (ChanResult demoResult) None]
                             ++ [FromTicker SessionActive (demoUpdate 1)]))))
       = Some s
       /\ ExpectedResults s = 1
       /\ ActualResults s
          = results_counted [FromReadChan (ChanResult demoResult) None] 1
            mod uint_modulus
       /\ (1 <= ActualResults s -> Status s = campaignStatusFinished).
Proof.
  apply (tick_brings_up_to_date "forbidden" (demoDeps 1) 7 (demoUpdate 1)
           (demoUpdate 1) [FromReadChan (ChanResult demoResult) None]
           SessionActive
           {| TotalHosts := 1; OnlineHosts := 1; OfflineHosts := 0;
              MissingInActionHosts := 0 |}).
  - repeat constructor.
  - reflexivity.
  - reflexivity.
Defined.

End CampaignFacts.

(** ** The feed index and the matcher *)

Module MatcherFacts.
Import NVD.

Lemma candidates_add_rule (cve : string) (idx : Index) (r : MatchRule)
    (k : string * string) :
  candidates (add_rule cve idx r) k
  = candidates idx k ++ (if decide (rule_key r = k) then [(cve, r)] else []).
Proof.
  unfold add_rule, candidates at 1. rewrite lookup_insert.
  case_decide as Hk; simpl.
  - subst k. reflexivity.
  - rewrite app_nil_r. reflexivity.
Qed.

Lemma candidates_add_rules (cve : string) (rs : list MatchRule) (idx : Index)
    (k : string * string) :
  candidates (foldl (add_rule cve) idx rs) k
  = candidates idx k
    ++ filter (fun cr => rule_key cr.2 = k) (map (pair cve) rs).
Proof.
  revert idx. induction rs as [|r rs IH]; intros idx; simpl.
  - rewrite app_nil_r. reflexivity.
  - rewrite IH, candidates_add_rule, filter_cons. simpl.
    case_decide; rewrite <- app_assoc; reflexivity.
Qed.

Lemma candidates_add_records (feed : list VulnerabilityRecord) (idx : Index)
    (k : string * string) :
  candidates (foldl add_record idx feed) k
  = candidates idx k ++ filter (fun cr => rule_key cr.2 = k) (flatten feed).
Proof.
  revert idx. induction feed as [|rec feed IH]; intros idx; simpl.
  - rewrite app_nil_r. reflexivity.
  - rewrite IH. unfold add_record at 1. rewrite candidates_add_rules.
    unfold flatten. simpl. rewrite filter_app, app_assoc. reflexivity.
Qed.

(** The index holds, under a vendor and product, the rules of the feed
    for that vendor and product, in feed order. *)
Lemma candidates_build (feed : list VulnerabilityRecord) (k : string * string) :
  candidates (build feed) k = filter (fun cr => rule_key cr.2 = k) (flatten feed).
Proof.
  unfold build. rewrite candidates_add_records.
  unfold candidates. rewrite lookup_empty. reflexivity.
Qed.

Lemma elem_of_flatten (feed : list VulnerabilityRecord) (cve : string)
    (r : MatchRule) :
  (cve, r) ∈ flatten feed
  <-> exists rec, rec ∈ feed /\ cve_id rec = cve /\ r ∈ rules rec.
Proof.
  unfold flatten. induction feed as [|rec0 feed IH]; simpl.
  - split; [intros Hin; inversion Hin|intros (rec & Hin & _); inversion Hin].
  - rewrite elem_of_app, IH, list_elem_of_fmap. split.
    + intros [(r' & Heq & Hr)|(rec & Hrec & Hc & Hr)].
      * inversion Heq; subst. exists rec0. split; [left|auto].
      * exists rec. split; [right; exact Hrec|auto].
    + intros (rec & Hrec & Hc & Hr). apply elem_of_cons in Hrec as [->|Hrec].
      * left. exists r. subst cve. auto.
      * right. exists rec. auto.
Qed.

Section Facts.

Variable vercmp : string -> string -> comparison.

(** Soundness and completeness of the matcher over an index: a CVE is
    returned exactly when one of its candidate rules applies. *)
Lemma elem_of_match (idx : Index) (c : CPEIdentifier) (cve : string) :
  cve ∈ match_ vercmp idx c
  <-> exists r, (cve, r) ∈ candidates idx (vendor c, product c)
                /\ rule_applies vercmp c r = true.
Proof.
  unfold match_. rewrite elem_of_remove_dups, list_elem_of_fmap. split.
  - intros ([cve' r] & -> & Hin). apply list_elem_of_filter in Hin as [Happ Hin].
    exists r. auto.
  - intros (r & Hin & Happ). exists (cve, r). split; [reflexivity|].
    apply list_elem_of_filter. auto.
Qed.

Lemma NoDup_match (idx : Index) (c : CPEIdentifier) :
  NoDup (match_ vercmp idx c).
Proof. apply NoDup_remove_dups. Qed.

(** The same over a feed: a CVE is returned exactly when the feed holds a
    rule of it for the vendor and product of the CPE that applies. *)
Lemma elem_of_match_build (feed : list VulnerabilityRecord) (c : CPEIdentifier)
    (cve : string) :
  cve ∈ match_ vercmp (build feed) c
  <-> exists r, rule_for feed c cve r
                /\ vulnerable r = true
                /\ version_test vercmp (version c) (versions r) = true.
Proof.
  rewrite elem_of_match. unfold rule_for, rule_applies. split.
  - intros (r & Hin & Happ). rewrite candidates_build in Hin.
    apply list_elem_of_filter in Hin as [Hk Hin]. simpl in Hk.
    unfold rule_key in Hk. inversion Hk.
    apply andb_prop in Happ as [Happ Hv]. apply andb_prop in Happ as [Hvul Ht].
    exists r. auto 10.
  - intros (r & (Hin & Hv & Hp & Ht) & Hvul & Hver). exists r. split.
    + rewrite candidates_build. apply list_elem_of_filter. split; [|exact Hin].
      simpl. unfold rule_key. congruence.
    + rewrite Hvul, Ht, Hver. reflexivity.
Qed.

Lemma rule_applies_vulnerable (c : CPEIdentifier) (r : MatchRule) :
  rule_applies vercmp c r = true -> vulnerable r = true.
Proof.
  unfold rule_applies. intros H. apply andb_prop in H as [H _].
  apply andb_prop in H as [H _]. exact H.
Qed.

Lemma version_test_unpinned (vs : versionSpec) :
  version_test vercmp "-" vs = true.
Proof. reflexivity. Qed.

Lemma flatten_app (f1 f2 : list VulnerabilityRecord) :
  flatten (f1 ++ f2) = flatten f1 ++ flatten f2.
Proof. unfold flatten. rewrite map_app, concat_app. reflexivity. Qed.

Lemma flatten_cons (rec : VulnerabilityRecord) (f : list VulnerabilityRecord) :
  flatten (rec :: f) = map (pair (cve_id rec)) (rules rec) ++ flatten f.
Proof. reflexivity. Qed.

Abbreviation applicable := (applicable vercmp).

Lemma match_build (feed : list VulnerabilityRecord) (c : CPEIdentifier) :
  match_ vercmp (build feed) c = remove_dups (map fst (applicable feed c)).
Proof. unfold match_, NVD.applicable. rewrite candidates_build. reflexivity. Qed.

Lemma applicable_app (f1 f2 : list VulnerabilityRecord) (c : CPEIdentifier) :
  applicable (f1 ++ f2) c = applicable f1 c ++ applicable f2 c.
Proof. unfold NVD.applicable. rewrite flatten_app, !filter_app. reflexivity. Qed.

Lemma applicable_without (cve : string) (rs1 rs2 : list MatchRule)
    (r : MatchRule) (c : CPEIdentifier) :
  rule_applies vercmp c r = false ->
  applicable [ {| cve_id := cve; rules := rs1 ++ r :: rs2 |} ] c
  = applicable [ {| cve_id := cve; rules := rs1 ++ rs2 |} ] c.
Proof.
  intros Hr. unfold NVD.applicable, flatten. simpl.
  rewrite !app_nil_r, !map_app, !filter_app. simpl.
  rewrite (filter_cons (fun cr => rule_key cr.2 = _)).
  case_decide; [|reflexivity].
  rewrite filter_cons_False; [reflexivity|]. simpl. congruence.
Qed.

(** C8: a rule whose vulnerable flag is false contributes no CVE to the
    result of the matcher, whatever the CPE and whatever the rule's
    version or range: the result is the one of the feed without the rule. *)
Theorem non_vulnerable_rule_contributes_nothing
    (feed1 feed2 : list VulnerabilityRecord) (cve : string)
    (rs1 rs2 : list MatchRule) (r : MatchRule) (c : CPEIdentifier) :
  vulnerable r = false ->
  match_ vercmp
    (build (feed1 ++ {| cve_id := cve; rules := rs1 ++ r :: rs2 |} :: feed2)) c
  = match_ vercmp
      (build (feed1 ++ {| cve_id := cve; rules := rs1 ++ rs2 |} :: feed2)) c.
Proof.
  intros Hv. rewrite !match_build.
  rewrite !(applicable_app feed1).
  change (?x :: feed2) with ([x] ++ feed2).
  rewrite !(applicable_app [_] feed2).
  rewrite applicable_without; [reflexivity|].
  unfold rule_applies. rewrite Hv. reflexivity.
Qed.

(** For an unpinned CPE the matcher returns exactly the CVEs that carry a
    vulnerable rule for its vendor, product and target_sw. *)
Lemma elem_of_match_unpinned (feed : list VulnerabilityRecord)
    (c : CPEIdentifier) (cve : string) :
  version c = "-" ->
  cve ∈ match_ vercmp (build feed) c
  <-> exists r, rule_for feed c cve r /\ vulnerable r = true.
Proof.
  intros Hv. rewrite elem_of_match_build, Hv. split.
  - intros (r & Hr & Hvul & _). exists r. auto.
  - intros (r & Hr & Hvul). exists r. auto using version_test_unpinned.
Qed.

Lemma target_sw_matches_spec (rule_sw cpe_sw : string) :
  target_sw_matches rule_sw cpe_sw = true
  <-> rule_sw = "*" \/ rule_sw = "" \/ cpe_sw = "*" \/ cpe_sw = ""
      \/ to_lower rule_sw = to_lower cpe_sw.
Proof.
  unfold target_sw_matches, is_wildcard.
  rewrite !orb_true_iff, !String.eqb_eq. tauto.
Qed.

Lemma target_sw_any (rule_sw : string) :
  target_sw_matches rule_sw "*" = true.
Proof. unfold target_sw_matches. destruct (is_wildcard rule_sw); reflexivity. Qed.

End Facts.

(** The matcher on the small feed. *)
Example parse_cvetests :
  map (fun tt => parseCPE (cpe tt)) cvetests
  = map Some [onepassword_macos; onepassword_any; pip_python;
              application "mozilla" "firefox" "93.0" "windows";
              application "mozilla" "firefox" "93.0.100" "windows";
              icloud_macos].
Proof. reflexivity. Qed.

Example parse_unparsable : parseCPE "firefox 93" = None.
Proof. reflexivity. Qed.

Example match_pip_on_demo_feed :
  match_ dotted_compare (build demo_feed) pip_python
  = ["CVE-2019-20916"; "CVE-2021-3572"].
Proof. reflexivity. Qed.

Example match_unknown_product :
  match_ dotted_compare (build demo_feed)
    (application "pypa" "setuptools" "1.0" "*") = [].
Proof. reflexivity. Qed.

Example dotted_compare_examples :
  dotted_compare "9.0.3" "19.2" = Lt /\ dotted_compare "93.0.100" "93.0" = Gt
  /\ dotted_compare "1.0" "1" = Eq.
Proof. repeat split. Qed.

(** The filter on target_sw: case is ignored, ["*"] and the empty string
    match on either side, and different names do not match. *)
Example target_sw_examples :
  to_lower "MacOS" = "macos"
  /\ target_sw_matches "MacOS" "macos" = true
  /\ target_sw_matches "windows" "android" = false
  /\ target_sw_matches "*" "android" = true
  /\ target_sw_matches "" "android" = true
  /\ target_sw_matches "windows" "*" = true
  /\ target_sw_matches "windows" "" = true.
Proof. repeat split; reflexivity. Qed.

Lemma non_vulnerable_rule_contributes_nothing_witness :
  let r := rule "apple" "icloud" "macos" (before "6.1.1") false in
  let kept := rule "apple" "icloud" "windows" (before "6.1.1") true in
  target_sw_matches (rule_target_sw r) (target_sw icloud_macos) = true
  /\ version_test dotted_compare (version icloud_macos) (versions r) = true
  /\ match_ dotted_compare (build demo_feed) icloud_macos
     = match_ dotted_compare
         (build (take 5 demo_feed
                 ++ {| cve_id := "CVE-2017-2383"; rules := [kept] |}
                 :: drop 6 demo_feed)) icloud_macos.
Proof.
  intros r kept. split; [reflexivity|]. split; [reflexivity|].
  exact (non_vulnerable_rule_contributes_nothing dotted_compare
           (take 5 demo_feed) (drop 6 demo_feed) "CVE-2017-2383"
           [kept] [] r icloud_macos eq_refl).
Defined.

End MatcherFacts.

(** ** The reconciler *)

Module ReconcilerFacts.
Import NVD.

Section Recorded.

Context {D : Type} `{Datastore D}.
Variable vercmp : string -> string -> comparison.
Variable idx : Index.
Variable onlyRecent : bool.

(** The upserts of one software item are the only calls made for it, and
    the accumulator grows only by upserts reported as new. *)
Lemma upsert_all_recorded (cves : list string) (softwareID : uint)
    (acc : list AffectedSoftware) (d : recorded D) :
  exists ins,
    calls (upsert_all onlyRecent d softwareID cves acc).1 = calls d ++ ins
    /\ Forall (fun c => is_insert c = true) ins
    /\ (Forall (fun c => reported_new c = false) ins ->
        forall acc', (upsert_all onlyRecent d softwareID cves acc).2 = inr acc' ->
                     acc' = acc).
Proof.
  revert acc d. induction cves as [|cve rest IH]; intros acc d; simpl.
  - exists []. rewrite app_nil_r. repeat split; [constructor|].
    intros _ acc' Heq. congruence.
  - destruct (InsertSoftwareVulnerability (inner d) _ NVDSource) as [d' a] eqn:Hins.
    destruct a as [e|isNew]; simpl.
    + eexists [_]. repeat split; [repeat constructor|].
      intros _ acc' Heq. discriminate.
    + match goal with
      | |- context [upsert_all _ ?d1 _ _ ?acc1] =>
          destruct (IH acc1 d1) as (ins & Hcalls & Hins' & Hacc)
      end.
      simpl in Hcalls. rewrite <- app_assoc in Hcalls.
      eexists (_ :: ins). split; [exact Hcalls|].
      split; [constructor; [reflexivity|exact Hins']|].
      intros Hno acc' Heq. apply Forall_cons in Hno as [Hhd Hno].
      destruct isNew; [discriminate Hhd|].
      simpl in Heq. exact (Hacc Hno acc' Heq).
Qed.

Lemma process_all_recorded (items : list SoftwareCPE)
    (acc : list AffectedSoftware) (d : recorded D) :
  exists ins,
    calls (process_all vercmp idx onlyRecent d items acc).1 = calls d ++ ins
    /\ Forall (fun c => is_insert c = true) ins
    /\ (Forall (fun c => reported_new c = false) ins ->
        forall acc', (process_all vercmp idx onlyRecent d items acc).2 = inr acc' ->
                     acc' = acc).
Proof.
  revert acc d. induction items as [|item rest IH]; intros acc d; simpl.
  - exists []. rewrite app_nil_r. repeat split; [constructor|].
    intros _ acc' Heq. congruence.
  - destruct (parseCPE (CPE item)) as [c|]; [|apply IH].
    destruct (upsert_all_recorded (match_ vercmp idx c) (SoftwareID item) acc d)
      as (ins1 & Hcalls1 & Hins1 & Hacc1).
    destruct (upsert_all onlyRecent d (SoftwareID item) (match_ vercmp idx c) acc)
      as [d1 r1]; simpl in *.
    destruct r1 as [e|acc1]; simpl.
    + exists ins1. repeat split; [exact Hcalls1|exact Hins1|].
      intros _ acc' Heq. discriminate.
    + destruct (IH acc1 d1) as (ins2 & Hcalls2 & Hins2 & Hacc2).
      exists (ins1 ++ ins2). rewrite Hcalls2, Hcalls1, app_assoc.
      split; [reflexivity|]. split; [apply Forall_app; auto|].
      intros Hno acc' Heq. apply Forall_app in Hno as [Hno1 Hno2].
      rewrite (Hacc2 Hno2 acc' Heq). exact (Hacc1 Hno1 acc1 eq_refl).
Qed.

(** The calls of one run, in order: the listing, the upserts, and, when
    none of them failed, the retirement. *)
Lemma reconcile_recorded (retireAfter : duration) (d : D) :
  let out := reconcile vercmp idx onlyRecent retireAfter (watch d) in
  exists listed ins,
    Forall (fun c => is_insert c = true) ins
    /\ (Forall (fun c => reported_new c = false) ins -> out.2.1 = [])
    /\ ((exists e, out.2.2 = Some e)
        /\ (calls out.1 = CalledList listed :: ins
            \/ exists e', calls out.1 = CalledList listed :: ins
                            ++ [CalledDelete NVDSource retireAfter (Some e')])
        \/ out.2.2 = None
           /\ calls out.1 = CalledList listed :: ins
                ++ [CalledDelete NVDSource retireAfter None]).
Proof.
  unfold reconcile, watch. simpl.
  destruct (ListSoftwareCPEs d) as [d1 listed]. exists listed.
  destruct listed as [e|items]; simpl.
  { exists []. split; [constructor|]. split; [reflexivity|].
    left. split; [eauto|]. left. reflexivity. }
  destruct (process_all_recorded items []
              {| inner := d1; calls := [CalledList (inr items)] |})
    as (ins & Hcalls & Hins & Hacc).
  destruct (process_all vercmp idx onlyRecent _ items []) as [d2 r]; simpl in *.
  exists ins. split; [exact Hins|].
  destruct r as [e|recent]; simpl.
  { split; [reflexivity|]. left. split; [eauto|]. left. exact Hcalls. }
  destruct (DeleteOutOfDateVulnerabilities (inner d2) NVDSource retireAfter)
    as [d3 e]; simpl.
  destruct e as [e|]; simpl.
  - split; [reflexivity|]. left. split; [eauto|]. right. exists e.
    rewrite Hcalls. reflexivity.
  - split; [intros Hno; exact (Hacc Hno recent eq_refl)|].
    right. split; [reflexivity|]. rewrite Hcalls. reflexivity.
Qed.

(** Watching a datastore changes neither its states nor the answers. *)
Lemma upsert_all_watched (cves : list string) (softwareID : uint)
    (acc : list AffectedSoftware) (d : recorded D) :
  inner (upsert_all onlyRecent d softwareID cves acc).1
  = (upsert_all onlyRecent (inner d) softwareID cves acc).1
  /\ (upsert_all onlyRecent d softwareID cves acc).2
     = (upsert_all onlyRecent (inner d) softwareID cves acc).2.
Proof.
  revert acc d. induction cves as [|cve rest IH]; intros acc d; simpl; [auto|].
  destruct (InsertSoftwareVulnerability (inner d) _ NVDSource) as [d' a].
  destruct a as [e|isNew]; simpl; [auto|]. apply IH.
Qed.

Lemma process_all_watched (items : list SoftwareCPE)
    (acc : list AffectedSoftware) (d : recorded D) :
  inner (process_all vercmp idx onlyRecent d items acc).1
  = (process_all vercmp idx onlyRecent (inner d) items acc).1
  /\ (process_all vercmp idx onlyRecent d items acc).2
     = (process_all vercmp idx onlyRecent (inner d) items acc).2.
Proof.
  revert acc d. induction items as [|item rest IH]; intros acc d; simpl; [auto|].
  destruct (parseCPE (CPE item)) as [c|]; [|apply IH].
  destruct (upsert_all_watched (match_ vercmp idx c) (SoftwareID item) acc d)
    as [Hst Hres].
  destruct (upsert_all onlyRecent d _ _ acc) as [d1 r1].
  destruct (upsert_all onlyRecent (inner d) _ _ acc) as [d1' r1'].
  simpl in *. subst. destruct r1' as [e|acc1]; simpl; [auto|]. apply IH.
Qed.

Lemma reconcile_watched (retireAfter : duration) (d : D) :
  inner (reconcile vercmp idx onlyRecent retireAfter (watch d)).1
  = (reconcile vercmp idx onlyRecent retireAfter d).1
  /\ (reconcile vercmp idx onlyRecent retireAfter (watch d)).2
     = (reconcile vercmp idx onlyRecent retireAfter d).2.
Proof.
  unfold reconcile, watch. simpl.
  destruct (ListSoftwareCPEs d) as [d1 listed].
  destruct listed as [e|items]; simpl; [auto|].
  destruct (process_all_watched items []
              {| inner := d1; calls := [CalledList (inr items)] |})
    as [Hst Hres].
  simpl in Hst, Hres.
  destruct (process_all vercmp idx onlyRecent d1 items []) as [d2' r'].
  destruct (process_all vercmp idx onlyRecent _ items []) as [d2 r].
  simpl in *. subst. destruct r' as [e|recent]; simpl; [auto|].
  destruct (DeleteOutOfDateVulnerabilities (inner d2) NVDSource retireAfter)
    as [d3 e3].
  destruct e3; simpl; auto.
Qed.

(** C4: reconciling twice in a row is idempotent in the recent results.
    When every upsert of the second run reports its row as already
    present, the second run returns no recent result, whatever the
    datastore, the feed index, the inventory and the flag. *)
Theorem second_run_reports_nothing_recent (retireAfter : duration) (d : D) :
  Forall (fun c => reported_new c = false)
    (calls (reconcile vercmp idx onlyRecent retireAfter
              (watch (reconcile vercmp idx onlyRecent retireAfter d).1)).1) ->
  (reconcile vercmp idx onlyRecent retireAfter
     (reconcile vercmp idx onlyRecent retireAfter d).1).2.1 = [].
Proof.
  intros Hno.
  destruct (reconcile_watched retireAfter
              (reconcile vercmp idx onlyRecent retireAfter d).1) as [_ <-].
  destruct (reconcile_recorded retireAfter
              (reconcile vercmp idx onlyRecent retireAfter d).1)
    as (listed & ins & _ & Hacc & Hcalls).
  apply Hacc.
  destruct Hcalls as [[_ [Hc|[e' Hc]]]|[_ Hc]]; rewrite Hc in Hno;
    apply Forall_cons in Hno as [_ Hno]; [exact Hno| |];
    apply Forall_app in Hno as [Hno _]; exact Hno.
Qed.

End Recorded.





(** *** Two runs on the store of the data model *)

Lemma same_row_refl (softwareID : uint) (cve : string) (src : VulnerabilitySource)
    (t : Z) :
  same_row softwareID cve src
    {| row_software := softwareID; row_cve := cve; row_source := src;
       last_seen := t |} = true.
Proof.
  unfold same_row. simpl.
  rewrite N.eqb_refl, String.eqb_refl, bool_decide_true; reflexivity.
Qed.

Lemma fresh_holds (s : store) (k : uint) (cve : string) :
  fresh s k cve -> holds s k cve.
Proof.
  intros (r & Hin & Hrow & _). apply existsb_exists. exists r.
  split; [apply list_elem_of_In; exact Hin|exact Hrow].
Qed.

Lemma store_insert_answer (s : store) (v : SoftwareVulnerability) :
  (store_insert s v NVDSource).2
  = inr (negb (existsb (same_row (vuln_SoftwareID v) (CVE v) NVDSource) (rows s))).
Proof. unfold store_insert. destruct (existsb _ _); reflexivity. Qed.

Lemma store_insert_frame (s : store) (v : SoftwareVulnerability) :
  now (store_insert s v NVDSource).1 = now s
  /\ inventory (store_insert s v NVDSource).1 = inventory s.
Proof. unfold store_insert. destruct (existsb _ _); auto. Qed.

Lemma store_insert_fresh (s : store) (v : SoftwareVulnerability) :
  fresh (store_insert s v NVDSource).1 (vuln_SoftwareID v) (CVE v)
  /\ forall k cve, fresh s k cve -> fresh (store_insert s v NVDSource).1 k cve.
Proof.
  unfold store_insert, fresh.
  destruct (existsb (same_row (vuln_SoftwareID v) (CVE v) NVDSource) (rows s))
    eqn:Hhit; simpl.
  - split.
    + apply existsb_exists in Hhit as (r & Hin & Hrow).
      exists (touch (now s) r). split; [|auto].
      apply list_elem_of_fmap. exists r. rewrite Hrow.
      split; [reflexivity|apply list_elem_of_In; exact Hin].
    + intros k cve (r & Hin & Hrow & Hseen).
      exists (if same_row (vuln_SoftwareID v) (CVE v) NVDSource r
              then touch (now s) r else r).
      split; [apply list_elem_of_fmap; exists r; auto|].
      destruct (same_row (vuln_SoftwareID v) (CVE v) NVDSource r); auto.
  - split.
    + eexists. split; [apply elem_of_app; right; left|].
      split; [apply same_row_refl|reflexivity].
    + intros k cve (r & Hin & Hrow & Hseen). exists r.
      split; [apply elem_of_app; left; exact Hin|auto].
Qed.

Lemma store_insert_holds (s : store) (v : SoftwareVulnerability)
    (k : uint) (cve : string) :
  holds s k cve -> holds (store_insert s v NVDSource).1 k cve.
Proof.
  unfold holds, store_insert. intros Hk.
  destruct (existsb (same_row (vuln_SoftwareID v) (CVE v) NVDSource) (rows s))
    eqn:Hhit; simpl.
  - apply existsb_exists in Hk as (r & Hin & Hrow).
    apply existsb_exists.
    exists (if same_row (vuln_SoftwareID v) (CVE v) NVDSource r
            then touch (now s) r else r).
    split; [|destruct (same_row (vuln_SoftwareID v) (CVE v) NVDSource r); auto].
    apply in_map_iff. exists r. auto.
  - rewrite existsb_app, Hk. reflexivity.
Qed.

Lemma store_delete_fresh (s : store) (olderThan : duration)
    (k : uint) (cve : string) :
  (0 <= olderThan)%Z ->
  fresh s k cve -> fresh (store_delete s NVDSource olderThan).1 k cve.
Proof.
  intros Hpos (r & Hin & Hrow & Hseen). exists r. simpl.
  split; [|auto]. apply list_elem_of_filter. split; [|exact Hin].
  unfold out_of_date. rewrite Hseen, Z.sub_diag.
  apply andb_false_iff. right. apply Z.ltb_ge. exact Hpos.
Qed.

Section Store.

Variable vercmp : string -> string -> comparison.
Variable idx : Index.
Variable onlyRecent : bool.

Abbreviation matched := (matched vercmp idx).

Lemma upsert_all_store (cves : list string) (k : uint)
    (acc : list AffectedSoftware) (s : store) :
  (exists acc', (upsert_all onlyRecent s k cves acc).2 = inr acc')
  /\ now (upsert_all onlyRecent s k cves acc).1 = now s
  /\ inventory (upsert_all onlyRecent s k cves acc).1 = inventory s
  /\ (forall k' cve, fresh s k' cve ->
        fresh (upsert_all onlyRecent s k cves acc).1 k' cve)
  /\ (forall cve, cve ∈ cves -> fresh (upsert_all onlyRecent s k cves acc).1 k cve).
Proof.
  revert acc s. induction cves as [|cve rest IH]; intros acc s; simpl.
  - repeat split; eauto. intros cve Hin. inversion Hin.
  - pose proof (store_insert_answer s {| vuln_SoftwareID := k; CVE := cve |}) as Hans.
    pose proof (store_insert_frame s {| vuln_SoftwareID := k; CVE := cve |})
      as [Hnow Hinv].
    pose proof (store_insert_fresh s {| vuln_SoftwareID := k; CVE := cve |})
      as [Hself Hother].
    destruct (store_insert s _ NVDSource) as [s' a]. simpl in *. subst a.
    match goal with
    | |- context [upsert_all _ s' _ _ ?acc1] =>
        destruct (IH acc1 s') as (Hok & Hnow' & Hinv' & Hkeep & Hnew)
    end.
    split; [exact Hok|]. split; [congruence|]. split; [congruence|].
    split; [auto|].
    intros cve' Hin. apply elem_of_cons in Hin as [->|Hin]; auto.
Qed.

Lemma process_all_store (items : list SoftwareCPE)
    (acc : list AffectedSoftware) (s : store) :
  (exists acc', (process_all vercmp idx onlyRecent s items acc).2 = inr acc')
  /\ now (process_all vercmp idx onlyRecent s items acc).1 = now s
  /\ inventory (process_all vercmp idx onlyRecent s items acc).1 = inventory s
  /\ (forall k cve, fresh s k cve ->
        fresh (process_all vercmp idx onlyRecent s items acc).1 k cve)
  /\ (forall k cve, matched items k cve ->
        fresh (process_all vercmp idx onlyRecent s items acc).1 k cve).
Proof.
  revert acc s. induction items as [|item rest IH]; intros acc s; simpl.
  - repeat split; eauto. intros k cve (item & c & Hin & _). inversion Hin.
  - destruct (parseCPE (CPE item)) as [c|] eqn:Hparse.
    + destruct (upsert_all_store (match_ vercmp idx c) (SoftwareID item) acc s)
        as ([acc1 Hok] & Hnow & Hinv & Hkeep & Hnew).
      destruct (upsert_all onlyRecent s _ _ acc) as [s1 r1]. simpl in *. subst r1.
      destruct (IH acc1 s1) as (Hok' & Hnow' & Hinv' & Hkeep' & Hnew').
      split; [exact Hok'|]. split; [congruence|]. split; [congruence|].
      split; [auto|].
      intros k cve (item' & c' & Hin & Hk & Hp & Hm).
      apply elem_of_cons in Hin as [->|Hin].
      * rewrite Hparse in Hp. injection Hp as <-. subst k. auto.
      * apply Hnew'. exists item', c'. auto.
    + destruct (IH acc s) as (Hok' & Hnow' & Hinv' & Hkeep' & Hnew').
      repeat split; auto.
      intros k cve (item' & c' & Hin & Hk & Hp & Hm).
      apply elem_of_cons in Hin as [->|Hin]; [congruence|].
      apply Hnew'. exists item', c'. auto.
Qed.

(** After a run with a retention that is not negative the store holds
    every row the run upserted, and the inventory is as before. *)
Lemma reconcile_store (retireAfter : duration) (s : store) :
  (0 <= retireAfter)%Z ->
  inventory (reconcile vercmp idx onlyRecent retireAfter s).1 = inventory s
  /\ forall k cve,
       matched (inventory s) k cve ->
       holds (reconcile vercmp idx onlyRecent retireAfter s).1 k cve.
Proof.
  intros Hpos. unfold reconcile. simpl.
  destruct (process_all_store (inventory s) [] s)
    as ([recent Hok] & Hnow & Hinv & Hkeep & Hnew).
  destruct (process_all vercmp idx onlyRecent s (inventory s) []) as [s1 r].
  simpl in *. subst r. split; [exact Hinv|].
  intros k cve Hm. apply fresh_holds, store_delete_fresh; auto.
Qed.

Lemma upsert_all_holds (cves : list string) (k : uint)
    (acc : list AffectedSoftware) (s : store) (k' : uint) (cve' : string) :
  holds s k' cve' -> holds (upsert_all onlyRecent s k cves acc).1 k' cve'.
Proof.
  revert acc s. induction cves as [|cve rest IH]; intros acc s Hk; simpl; [auto|].
  pose proof (store_insert_answer s {| vuln_SoftwareID := k; CVE := cve |}) as Hans.
  pose proof (store_insert_holds s {| vuln_SoftwareID := k; CVE := cve |} k' cve' Hk)
    as Hkeep.
  destruct (store_insert s _ NVDSource) as [s' a]. simpl in *. subst a.
  apply IH. exact Hkeep.
Qed.

Lemma upsert_all_present (cves : list string) (k : uint)
    (acc : list AffectedSoftware) (s : store) :
  (forall cve, cve ∈ cves -> holds s k cve) ->
  (upsert_all onlyRecent s k cves acc).2 = inr acc.
Proof.
  revert s. induction cves as [|cve rest IH]; intros s Hall; simpl; [auto|].
  pose proof (store_insert_answer s {| vuln_SoftwareID := k; CVE := cve |}) as Hans.
  pose proof (store_insert_holds s {| vuln_SoftwareID := k; CVE := cve |}) as Hkeep.
  destruct (store_insert s _ NVDSource) as [s' a]. simpl in *. subst a.
  assert (existsb (same_row k cve NVDSource) (rows s) = true) as ->
    by (apply Hall; left).
  simpl. apply IH.
  intros cve' Hin. apply Hkeep, Hall. right. exact Hin.
Qed.

Lemma process_all_present (items : list SoftwareCPE)
    (acc : list AffectedSoftware) (s : store) :
  (forall k cve, matched items k cve -> holds s k cve) ->
  (process_all vercmp idx onlyRecent s items acc).2 = inr acc.
Proof.
  revert s. induction items as [|item rest IH]; intros s Hall; simpl; [auto|].
  destruct (parseCPE (CPE item)) as [c|] eqn:Hparse.
  - pose proof (upsert_all_present (match_ vercmp idx c) (SoftwareID item) acc s)
      as Hres.
    pose proof (upsert_all_holds (match_ vercmp idx c) (SoftwareID item) acc s)
      as Hkeep.
    destruct (upsert_all onlyRecent s _ _ acc) as [s1 r1]. simpl in *.
    rewrite Hres.
    + apply IH. intros k cve (item' & c' & Hin & Hm).
      apply Hkeep, Hall. exists item', c'. split; [right; exact Hin|exact Hm].
    + intros cve Hin. apply Hall. exists item, c. repeat split; auto. left.
  - apply IH. intros k cve (item' & c' & Hin & Hm).
    apply Hall. exists item', c'. split; [right; exact Hin|exact Hm].
Qed.

(** On the store of the data model a second run finds every row in place:
    it reports nothing recent and no error, however much time has passed
    since the first. *)
Lemma store_second_run (retireAfter : duration) (dt : Z) (s : store) :
  (0 <= retireAfter)%Z ->
  (reconcile vercmp idx onlyRecent retireAfter
     (later dt (reconcile vercmp idx onlyRecent retireAfter s).1)).2
  = ([], None).
Proof.
  intros Hpos. destruct (reconcile_store retireAfter s Hpos) as [Hinv Hheld].
  unfold reconcile at 1. simpl. rewrite Hinv.
  pose proof (process_all_present (inventory s) []
                (later dt (reconcile vercmp idx onlyRecent retireAfter s).1))
    as Hres.
  destruct (process_all vercmp idx onlyRecent _ (inventory s) []) as [s2 r].
  simpl in Hres. rewrite Hres; [reflexivity|].
  intros k cve Hm. exact (Hheld k cve Hm).
Qed.

End Store.

(** With a negative retention the first run retires the rows it has just
    upserted, and the second run reports them as new again. *)
Example negative_retention_forgets :
  (reconcile dotted_compare (build demo_feed) true (-1)%Z
     (reconcile dotted_compare (build demo_feed) true (-1)%Z demo_store).1).2.1
  = [ {| Affected := 1 |}; {| Affected := 1 |}; {| Affected := 3 |} ].
Proof. reflexivity. Qed.

(** The pip sub-test passes on the small feed. *)
Example pip_subtest_on_demo_feed :
  subtest_passes pip_test
    (reconcile dotted_compare (build demo_feed) false hour
       (newTableMock pip_test)).2.2
    (reconcile dotted_compare (build demo_feed) false hour
       (newTableMock pip_test)).1 = true.
Proof. reflexivity. Qed.

Lemma second_run_reports_nothing_recent_witness :
  (reconcile dotted_compare (build demo_feed) true hour demo_store).2
  = ([ {| Affected := 1 |}; {| Affected := 1 |}; {| Affected := 3 |} ], None)
  /\ (reconcile dotted_compare (build demo_feed) true hour
        (reconcile dotted_compare (build demo_feed) true hour demo_store).1).2.1
     = [].
Proof.
  split; [reflexivity|].
  apply second_run_reports_nothing_recent.
  apply (bool_decide_unpack _). vm_compute. exact I.
Defined.


End ReconcilerFacts.

(** ** Feed synchronisation *)

Module SyncFacts.
Import NVD.

Lemma string_app_assoc (a b c : string) : (a +:+ b) +:+ c = a +:+ b +:+ c.
Proof.
  induction a as [|x a IH]; [reflexivity|].
  change (String x ((a +:+ b) +:+ c) = String x (a +:+ b +:+ c)).
  rewrite IH. reflexivity.
Qed.

Lemma string_length_app (a b : string) :
  String.length (a +:+ b) = (String.length a + String.length b)%nat.
Proof.
  induction a as [|x a IH]; [reflexivity|].
  change (S (String.length (a +:+ b)) = S (String.length a + String.length b)).
  rewrite IH. reflexivity.
Qed.

Lemma eqb_length (a b : string) :
  String.length a <> String.length b -> (a =? b)%string = false.
Proof. intros Hne. apply String.eqb_neq. intros ->. contradiction. Qed.

(** Whether a URL ends in a suffix is decided by its last part alone. *)
Lemma has_suffix_app (suffix s t : string) :
  (String.length suffix <= String.length t)%nat ->
  has_suffix suffix (s +:+ t) = has_suffix suffix t.
Proof.
  intros Hlen. induction s as [|x s IH]; [reflexivity|].
  change (((String x (s +:+ t) =? suffix)%string || has_suffix suffix (s +:+ t))
          = has_suffix suffix t).
  rewrite IH, eqb_length; [reflexivity|].
  change (S (String.length (s +:+ t)) <> String.length suffix).
  rewrite string_length_app. lia.
Qed.

Section Facts.

Variable digest : string -> string.
Variable checksum_text : string -> string -> string -> string.
Variable metadata_text : string -> string.

Abbreviation sync_year := (sync_year digest checksum_text metadata_text).
Abbreviation sync_years := (sync_years digest checksum_text metadata_text).




(** A year whose archive has another length than its descriptor declares
    fails with the size mismatch naming the URL, the status and both sizes. *)
Lemma sync_year_unexpected_size (get : remote) (base : string) (c : Cache)
    (y : N) (m a : response) (meta : FeedMetadata) :
  get (base +:+ archive_name y +:+ ".meta") = inr m ->
  parse_meta (body m) = Some meta ->
  is_current c y meta = false ->
  get (base +:+ archive_name y +:+ ".json.gz") = inr a ->
  N.of_nat (String.length (body a)) <> gzSize meta ->
  sync_year get base c y
  = (c, Some (UnexpectedSize (base +:+ archive_name y +:+ ".json.gz") (status a)
                (gzSize meta) (N.of_nat (String.length (body a))))).
Proof.
  intros Hm Hmeta Hcur Ha Hsize. unfold NVD.sync_year.
  rewrite Hm, Hmeta, Hcur, Ha.
  apply N.eqb_neq in Hsize. rewrite Hsize. reflexivity.
Qed.



(** The synchronisation test on the model: against the server of the
    test, whatever its URL and whatever years follow 2002 in the feed
    set, the run fails with exactly the text the test expects. *)
Lemma test_server_scenario (defaultURL tsURL : string) (rest : list N) :
  exists e,
    (DownloadNVDCVEFeed digest checksum_text metadata_text (2002 :: rest)
       defaultURL test_server ∅ (tsURL +:+ feed_path)).2 = Some e
    /\ Error e = expected_sync_error tsURL.
Proof.
  unfold DownloadNVDCVEFeed.
  rewrite (eqb_length (tsURL +:+ feed_path) "").
  2:{ rewrite string_length_app. simpl. lia. }
  unfold sync. cbn [NVD.sync_years].
  rewrite (sync_year_unexpected_size test_server (tsURL +:+ feed_path) ∅ 2002
             {| status := "200 OK"; body := test_meta |}
             {| status := "200 OK"; body := "" |}
             {| lastModifiedDate := "2021-08-04T11:10:30-04:00";
                uncompressedSize := 20967174; zipSize := 1453429;
                gzSize := 1453293;
                sha256 := "10D7338A1E2D8DB344C381793110B67FCA7D729ADA21624EF089EBA78CCE7B53" |}).
  - eexists. split; [reflexivity|].
    cbv -[String.append]. rewrite !string_app_assoc. reflexivity.
  - unfold test_server. rewrite has_suffix_app; [reflexivity|]. vm_compute. lia.
  - reflexivity.
  - reflexivity.
  - unfold test_server. rewrite has_suffix_app; [reflexivity|]. vm_compute. lia.
  - vm_compute. discriminate.
Qed.

End Facts.

(** The run as the specification words it does not give what the test
    expects: against the server of the test it collects a failure for each
    of the years, and its text does not contain the expected one. *)
Example as_specified_fails_the_test :
  match (sync_as_specified (fun _ => "") (fun _ _ _ => "checksum")
           (fun _ => "metadata") test_years test_server
           ("http://127.0.0.1:8080" +:+ feed_path) ∅).2
  with
  | Some e =>
      length e = 21%nat
      /\ contains (Error e) (expected_sync_error "http://127.0.0.1:8080") = false
  | None => False
  end.
Proof. vm_compute. split; reflexivity. Qed.



End SyncFacts.

(** ** The test file *)

Module TestFacts.
Import NVD.

(** X7: [bToMb] divides by two to the twentieth and rounds down, and
    stays below two to the forty-fourth on a [uint64]. *)
Theorem bToMb_spec (b : N) :
  bToMb b = b / 2 ^ 20
  /\ bToMb b * 2 ^ 20 <= b < (bToMb b + 1) * 2 ^ 20
  /\ (b < 2 ^ 64 -> bToMb b < 2 ^ 44).
Proof.
  assert (bToMb b = b / 2 ^ 20) as Heq.
  { unfold bToMb. rewrite N.Div0.div_div. reflexivity. }
  rewrite Heq. split; [reflexivity|].
  change (2 ^ 20) with 1048576. change (2 ^ 64) with (1048576 * 2 ^ 44).
  pose proof (N.Div0.div_mod b 1048576) as Hdm.
  assert (b mod 1048576 < 1048576) as Hlt by (apply N.mod_lt; discriminate).
  split; [|intros Hb; apply N.Div0.div_lt_upper_bound; exact Hb].
  clear Heq. revert Hdm Hlt.
  generalize (b / 1048576) (b mod 1048576). intros q r Hdm Hlt. lia.
Qed.

(** On the double of the recent_vulns sub-test every upsert reports a new
    row, so a run that asks for recent results returns one entry per
    matched CVE. *)
Lemma upsert_all_recentMock (m : recentMock) (sid : uint) (cves : list string)
    (acc : list AffectedSoftware) :
  isNewAnswer m = true ->
  upsert_all true m sid cves acc
  = (m, inr (acc ++ map (fun _ => {| Affected := sid |}) cves)).
Proof.
  intros Hnew. revert acc.
  induction cves as [|cve rest IH]; intros acc; simpl.
  - by rewrite app_nil_r.
  - rewrite Hnew. simpl. rewrite IH, <- app_assoc. reflexivity.
Qed.

Lemma occurrences_app (l l' : list AffectedSoftware) (k : uint) :
  occurrences (l ++ l') k = (occurrences l k + occurrences l' k)%nat.
Proof. unfold occurrences. by rewrite filter_app, length_app. Qed.

Lemma occurrences_same (k : uint) (cves : list string) :
  occurrences (map (fun _ => {| Affected := k |}) cves) k = length cves.
Proof.
  unfold occurrences. induction cves as [|c rest IH]; [reflexivity|].
  simpl. rewrite filter_cons_True by reflexivity. simpl. by rewrite IH.
Qed.

Lemma occurrences_other (k k' : uint) (cves : list string) :
  k <> k' -> occurrences (map (fun _ => {| Affected := k |}) cves) k' = 0%nat.
Proof.
  intros Hk. unfold occurrences. induction cves as [|c rest IH]; [reflexivity|].
  simpl. rewrite filter_cons_False by (simpl; congruence). exact IH.
Qed.

(** The count the recent_vulns sub-test compares with 280 is the number
    of CVEs the matcher returns for the unpinned firefox CPE. *)
Lemma recent_vulns_count (vercmp : string -> string -> comparison)
    (idx : Index) (retireAfter : duration) :
  occurrences (reconcile vercmp idx true retireAfter {| isNewAnswer := true |}).2.1 2%N
  = length (match_ vercmp idx firefox_unpinned).
Proof.
  assert (parseCPE "cpe:2.3:a:mozilla:firefox:-:*:*:*:*:*:*:*"
          = Some firefox_unpinned) as Hc by reflexivity.
  unfold reconcile. simpl ListSoftwareCPEs. cbv beta iota.
  unfold softwareCPEs, process_all.
  simpl CPE. simpl SoftwareID.
  destruct (parseCPE "cpe:2.3:a:google:chrome:-:*:*:*:*:*:*:*") as [c1|] eqn:H1;
    [|discriminate H1].
  destruct (parseCPE "cpe:2.3:a:haxx:curl:-:*:*:*:*:*:*:*") as [c3|] eqn:H3;
    [|discriminate H3].
  rewrite Hc.
  rewrite !upsert_all_recentMock by reflexivity.
  simpl. rewrite !occurrences_app, occurrences_same, !occurrences_other by discriminate.
  lia.
Qed.

(** *** The count of recent results by software *)

Lemma int_incr_small (x : go_int) :
  (0 <= x < 2 ^ 63 - 1)%Z -> int_incr x = (x + 1)%Z.
Proof.
  intros Hx. unfold int_incr.
  rewrite Z.mod_small; lia.
Qed.

Lemma occurrences_cons (a : AffectedSoftware) (l : list AffectedSoftware) (k : uint) :
  occurrences (a :: l) k
  = ((if decide (Affected a = k) then 1 else 0) + occurrences l k)%nat.
Proof.
  unfold occurrences. rewrite filter_cons. case_decide; reflexivity.
Qed.

Lemma occurrences_le (l : list AffectedSoftware) (k : uint) :
  (occurrences l k <= length l)%nat.
Proof. unfold occurrences. apply length_filter. Qed.

Lemma count_loop (l : list AffectedSoftware) (m : gmap uint go_int) :
  (forall k, 0 <= map_index m k /\ map_index m k + Z.of_nat (length l) < 2 ^ 63)%Z ->
  forall k,
    map_index (foldl (fun m cpe =>
                    <[Affected cpe := int_incr (map_index m (Affected cpe))]> m) m l) k
    = (map_index m k + Z.of_nat (occurrences l k))%Z
    /\ (foldl (fun m cpe =>
                 <[Affected cpe := int_incr (map_index m (Affected cpe))]> m) m l !! k
        = None <-> m !! k = None /\ occurrences l k = 0%nat).
Proof.
  revert m. induction l as [|a l IH]; intros m Hm k.
  - simpl. unfold occurrences. simpl. split; [lia|tauto].
  - simpl foldl. rewrite occurrences_cons.
    set (m' := <[Affected a := int_incr (map_index m (Affected a))]> m).
    assert (forall k', map_index m' k'
                       = (map_index m k' + if decide (Affected a = k') then 1 else 0)%Z)
      as Hm'.
    { intros k'. unfold m', map_index at 1. case_decide as Hk.
      - subst k'. rewrite lookup_insert_eq.
        change (int_incr (map_index m (Affected a)) = (map_index m (Affected a) + 1)%Z).
        apply int_incr_small.
        specialize (Hm (Affected a)). rewrite length_cons in Hm.
        lia.
      - rewrite lookup_insert_ne by exact Hk.
        change (map_index m k' = (map_index m k' + 0)%Z). lia. }
    assert (forall k', 0 <= map_index m' k'
                       /\ map_index m' k' + Z.of_nat (length l) < 2 ^ 63)%Z as Hpre.
    { intros k'. rewrite Hm'. specialize (Hm k'). rewrite length_cons in Hm.
      case_decide; lia. }
    destruct (IH m' Hpre k) as [Hidx Hdom].
    rewrite Hidx, Hm'. split; [case_decide; lia|].
    rewrite Hdom. unfold m'. case_decide as Hk.
    + subst k. rewrite lookup_insert_eq. split; [intros [? _]; discriminate|].
      intros [_ ?]; discriminate.
    + rewrite lookup_insert_ne by exact Hk. reflexivity.
Qed.

(** X21: after the loop of the recent_vulns sub-test the map holds, for
    every software ID, the number of recent results of that ID, read as
    zero for an ID that is not a key; an ID is a key exactly when a recent
    result has it. *)
Theorem byCPE_counts (recent : list AffectedSoftware) (softwareID : uint) :
  (Z.of_nat (length recent) < 2 ^ 63)%Z ->
  map_index (byCPE recent) softwareID = Z.of_nat (occurrences recent softwareID)
  /\ (byCPE recent !! softwareID = None
      <-> forall cpe, cpe ∈ recent -> Affected cpe <> softwareID).
Proof.
  intros Hlen. unfold byCPE.
  assert (forall k, 0 <= map_index ∅ k
                    /\ map_index ∅ k + Z.of_nat (length recent) < 2 ^ 63)%Z as Hpre.
  { intros k. unfold map_index. rewrite lookup_empty. simpl. lia. }
  destruct (count_loop recent ∅ Hpre softwareID) as [Hidx Hdom].
  split.
  - rewrite Hidx. unfold map_index. rewrite lookup_empty. reflexivity.
  - rewrite Hdom, lookup_empty. unfold occurrences.
    rewrite length_zero_iff_nil. split.
    + intros [_ Hnil] cpe Hin Heq.
      assert (cpe ∈ filter (fun a => Affected a = softwareID) recent) as Hf
        by (apply list_elem_of_filter; auto).
      rewrite Hnil in Hf. inversion Hf.
    + intros Hno. split; [reflexivity|].
      destruct (filter _ recent) as [|a f] eqn:Hf; [reflexivity|].
      assert (a ∈ filter (fun a => Affected a = softwareID) recent) as Ha
        by (rewrite Hf; left).
      apply list_elem_of_filter in Ha as [Ha Hin]. destruct (Hno a Hin Ha).
Qed.

(** *** The feed server of the synchronisation test *)

Lemma has_suffix_spec (suffix s : string) :
  has_suffix suffix s = true <-> exists p, s = p +:+ suffix.
Proof.
  split.
  - induction s as [|c s IH].
    + change (has_suffix suffix "") with (("" =? suffix)%string || false).
      rewrite orb_false_r. intros Heq. apply String.eqb_eq in Heq.
      exists "". rewrite <- Heq. reflexivity.
    + change (has_suffix suffix (String c s))
        with ((String c s =? suffix)%string || has_suffix suffix s).
      intros H. apply orb_prop in H as [H|H].
      * apply String.eqb_eq in H. exists "". rewrite <- H. reflexivity.
      * destruct (IH H) as [p ->]. exists (String c p). reflexivity.
  - intros [p ->]. induction p as [|c p IH].
    + change ("" +:+ suffix) with suffix.
      destruct suffix as [|a suffix].
      * reflexivity.
      * change (has_suffix (String a suffix) (String a suffix))
          with ((String a suffix =? String a suffix)%string
                || has_suffix (String a suffix) suffix).
        rewrite String.eqb_refl. reflexivity.
    + change (String c p +:+ suffix) with (String c (p +:+ suffix)).
      change (has_suffix suffix (String c (p +:+ suffix)))
        with ((String c (p +:+ suffix) =? suffix)%string
              || has_suffix suffix (p +:+ suffix)).
      rewrite IH. apply orb_true_r.
Qed.

(** X22: the feed server of [TestSyncsCVEFromURL] answers every request
    with [200 OK]; the body is the five-line descriptor when the request
    URI ends in [.meta] and is empty for any other request. *)
Theorem test_server_answers (requestURI : string) :
  exists resp,
    test_server requestURI = inr resp
    /\ status resp = "200 OK"
    /\ (((exists p, requestURI = p +:+ ".meta") /\ body resp = test_meta)
        \/ ((forall p, requestURI <> p +:+ ".meta") /\ body resp = "")).
Proof.
  unfold test_server. eexists. split; [reflexivity|]. split; [reflexivity|].
  simpl. destruct (has_suffix ".meta" requestURI) eqn:Hs.
  - left. split; [|reflexivity]. apply has_suffix_spec. exact Hs.
  - right. split; [|reflexivity]. intros p ->.
    assert (has_suffix ".meta" (p +:+ ".meta") = true) as Ht
      by (apply has_suffix_spec; eauto).
    congruence.
Qed.

Lemma byCPE_counts_witness :
  map_index (byCPE [ {| Affected := 2 |}; {| Affected := 1 |};
                     {| Affected := 2 |} ]) 2 = 2%Z
  /\ map_index (byCPE [ {| Affected := 2 |}; {| Affected := 1 |};
                        {| Affected := 2 |} ]) 3 = 0%Z.
Proof.
  split.
  - apply (byCPE_counts [ {| Affected := 2 |}; {| Affected := 1 |};
                          {| Affected := 2 |} ] 2).
    simpl. lia.
  - reflexivity.
Defined.

End TestFacts.

(** ** The doubles under concurrent workers *)

Module UpsertFacts.
Import NVD Upserts.

Lemma upsert_inv_start (found : list string) (vulns : list SoftwareVulnerability) :
  upsert_inv found vulns (upsert_start found vulns).
Proof.
  split; simpl.
  - rewrite map_map. simpl. apply map_id.
  - induction vulns as [|v vs IH]; [reflexivity|]. simpl.
    rewrite filter_cons_False by (simpl; discriminate). exact IH.
  - intros c tmp Hin Hat. apply list_elem_of_fmap in Hin as (v & -> & _).
    discriminate.
  - replace (filter _ _) with (@nil worker); [simpl; by rewrite app_nil_r|].
    induction vulns as [|v vs IH]; [reflexivity|]. simpl.
    rewrite filter_cons_False by (simpl; discriminate). exact IH.
  - intros c b Hin Hat. apply list_elem_of_fmap in Hin as (v & -> & _).
    discriminate.
Qed.

Lemma no_holder (cs : list worker) :
  length (filter (fun c => holds_cveLock c = true) cs) = 0%nat ->
  forall c, c ∈ cs -> holds_cveLock c = false.
Proof.
  intros Hlen c Hin. apply length_zero_iff_nil in Hlen.
  destruct (holds_cveLock c) eqn:Hc; [|reflexivity].
  assert (c ∈ filter (fun c => holds_cveLock c = true) cs) as Hf
    by (apply list_elem_of_filter; auto).
  rewrite Hlen in Hf. inversion Hf.
Qed.

Lemma stored_middle (l1 l2 : list worker) (c : worker) :
  map (fun c => CVE (vuln c)) (filter (fun c => stored c = true) (l1 ++ c :: l2))
  = map (fun c => CVE (vuln c)) (filter (fun c => stored c = true) l1)
    ++ (if stored c then [CVE (vuln c)] else [])
    ++ map (fun c => CVE (vuln c)) (filter (fun c => stored c = true) l2).
Proof.
  rewrite filter_app, filter_cons, map_app.
  destruct (stored c) eqn:Hc.
  - rewrite decide_True by reflexivity. reflexivity.
  - rewrite decide_False by discriminate. reflexivity.
Qed.

Lemma others_idle (l1 l2 : list worker) (c : worker) :
  length (filter (fun c => holds_cveLock c = true) (l1 ++ c :: l2)) = 1%nat ->
  holds_cveLock c = true ->
  forall c', c' ∈ l1 ++ l2 -> holds_cveLock c' = false.
Proof.
  intros Hlen Hc c' Hin. rewrite count_middle, Hc in Hlen.
  apply elem_of_app in Hin as [Hin|Hin]; eapply no_holder; try exact Hin; lia.
Qed.

Lemma upsert_inv_step (found : list string) (vulns : list SoftwareVulnerability)
    (i : nat) (st st' : captured) :
  upsert_inv found vulns st -> upsert_step i st = Some st' -> upsert_inv found vulns st'.
Proof.
  intros [Hargs Hlock Happ Hfound Hans]. unfold upsert_step, advance.
  destruct (workers st !! i) as [c|] eqn:Hi; [|discriminate].
  destruct c as [v p]. simpl.
  assert (forall p', exists l1 l2,
             workers st = l1 ++ {| vuln := v; pos := p |} :: l2
             /\ <[i := {| vuln := v; pos := p' |}]> (workers st)
                = l1 ++ {| vuln := v; pos := p' |} :: l2) as Hsplit
    by (intros p'; exact (lookup_split _ _ _ _ Hi)).
  destruct p as [| |tmp| |b].
  - (* Lock *)
    destruct (cveLock st) eqn:Hmu; [discriminate|]. intros [= <-].
    destruct (Hsplit AtAppend) as (l1 & l2 & Hcs & Hcs'). simpl.
    rewrite Hcs' in *. rewrite Hcs in *. clear Hcs Hcs' Hsplit.
    split; simpl.
    + rewrite map_app in *. exact Hargs.
    + rewrite count_middle in *. simpl in *. lia.
    + intros c tmp Hin Hat. apply Happ; [|exact Hat].
      rewrite elem_of_app, elem_of_cons in *.
      destruct Hin as [?|[->|?]]; auto. discriminate.
    + rewrite stored_middle in *. exact Hfound.
    + intros c b Hin Hat. apply (Hans c); [|exact Hat].
      rewrite elem_of_app, elem_of_cons in *.
      destruct Hin as [?|[->|?]]; auto. discriminate.
  - (* append *)
    intros [= <-].
    destruct (Hsplit (AtAssign (cvesFound st ++ [CVE v]))) as (l1 & l2 & Hcs & Hcs').
    simpl. rewrite Hcs' in *. rewrite Hcs in *. clear Hcs Hcs' Hsplit.
    split; simpl.
    + rewrite map_app in *. exact Hargs.
    + rewrite count_middle in *. simpl in *. exact Hlock.
    + intros c tmp Hin Hat.
      rewrite elem_of_app, elem_of_cons in Hin.
      destruct Hin as [Hin|[->|Hin]].
      * apply Happ; [|exact Hat]. rewrite elem_of_app. auto.
      * simpl in *. congruence.
      * apply Happ; [|exact Hat]. rewrite elem_of_app, elem_of_cons. auto.
    + rewrite stored_middle in *. exact Hfound.
    + intros c b Hin Hat. apply (Hans c); [|exact Hat].
      rewrite elem_of_app, elem_of_cons in *.
      destruct Hin as [?|[->|?]]; auto. discriminate.
  - (* assign *)
    intros [= <-].
    destruct (Hsplit AtUnlock) as (l1 & l2 & Hcs & Hcs').
    simpl. rewrite Hcs' in *. rewrite Hcs in *. clear Hcs Hcs' Hsplit.
    assert (tmp = cvesFound st ++ [CVE v]) as ->.
    { apply (Happ {| vuln := v; pos := AtAssign tmp |}); [|reflexivity].
      rewrite elem_of_app, elem_of_cons. auto. }
    assert (cveLock st = true) as Hmu.
    { destruct (cveLock st); [reflexivity|].
      rewrite count_middle in Hlock. simpl in Hlock. lia. }
    rewrite Hmu in *.
    pose proof (others_idle _ _ _ Hlock eq_refl) as Hidle.
    split; simpl.
    + rewrite map_app in *. exact Hargs.
    + rewrite count_middle in *. simpl in *. exact Hlock.
    + intros c tmp Hin Hat. exfalso.
      assert (holds_cveLock c = true) as Hh by (unfold holds_cveLock; rewrite Hat; reflexivity).
      rewrite elem_of_app, elem_of_cons in Hin.
      destruct Hin as [Hin|[->|Hin]]; [|discriminate|];
        rewrite Hidle in Hh; try discriminate; rewrite elem_of_app; auto.
    + rewrite stored_middle in *. simpl in *. rewrite Hfound.
      rewrite <- !app_assoc. do 2 apply Permutation_app_head.
      symmetry. apply Permutation_cons_append.
    + intros c b Hin Hat. apply (Hans c); [|exact Hat].
      rewrite elem_of_app, elem_of_cons in *.
      destruct Hin as [?|[->|?]]; auto. discriminate.
  - (* Unlock *)
    intros [= <-].
    destruct (Hsplit (Done false)) as (l1 & l2 & Hcs & Hcs').
    simpl. rewrite Hcs' in *. rewrite Hcs in *. clear Hcs Hcs' Hsplit.
    assert (cveLock st = true) as Hmu.
    { destruct (cveLock st); [reflexivity|].
      rewrite count_middle in Hlock. simpl in Hlock. lia. }
    rewrite Hmu in *.
    split; simpl.
    + rewrite map_app in *. exact Hargs.
    + rewrite count_middle in *. simpl in *. lia.
    + intros c tmp Hin Hat. apply Happ; [|exact Hat].
      rewrite elem_of_app, elem_of_cons in *.
      destruct Hin as [?|[->|?]]; auto. discriminate.
    + rewrite stored_middle in *. exact Hfound.
    + intros c b Hin Hat.
      rewrite elem_of_app, elem_of_cons in Hin.
      destruct Hin as [Hin|[->|Hin]].
      * apply (Hans c); [|exact Hat]. rewrite elem_of_app. auto.
      * simpl in Hat. congruence.
      * apply (Hans c); [|exact Hat]. rewrite elem_of_app, elem_of_cons. auto.
  - discriminate.
Qed.

Lemma upsert_inv_run (found : list string) (vulns : list SoftwareVulnerability)
    (schedule : list nat) (st st' : captured) :
  upsert_inv found vulns st -> upsert_run schedule st = Some st' -> upsert_inv found vulns st'.
Proof.
  revert st. induction schedule as [|i rest IH]; intros st Hinv; simpl.
  - intros [= <-]. exact Hinv.
  - destruct (upsert_step i st) as [st1|] eqn:Hstep; [|discriminate].
    apply IH. exact (upsert_inv_step _ _ _ _ _ Hinv Hstep).
Qed.


(** X17: no upsert is lost.  In every state the workers can reach,
    [cvesFound] holds, up to order, what it held at the start and the CVE
    of each worker that has made its assignment, each once; when all the
    workers have returned it holds the CVE of every call, and every call
    has answered that the row was not new. *)
Theorem upserts_all_recorded (found : list string)
    (vulns : list SoftwareVulnerability) (schedule : list nat) (st : captured) :
  upsert_run schedule (upsert_start found vulns) = Some st ->
  cvesFound st
  ≡ₚ found ++ map (fun c => CVE (vuln c))
                (filter (fun c => stored c = true) (workers st))
  /\ (Forall (fun c => is_done c = true) (workers st) ->
      cvesFound st ≡ₚ found ++ map CVE vulns
      /\ Forall (fun c => pos c = Done false) (workers st)).
Proof.
  intros Hrun.
  destruct (upsert_inv_run found vulns schedule _ st (upsert_inv_start found vulns) Hrun)
    as [Hargs _ _ Hfound Hans].
  split; [exact Hfound|]. intros Hall. split.
  - rewrite Hfound, <- Hargs. apply Permutation_app_head.
    replace (filter (fun c => stored c = true) (workers st)) with (workers st).
    + rewrite map_map. reflexivity.
    + clear -Hall. induction Hall as [|c cs Hc _ IH]; [reflexivity|].
      rewrite filter_cons_True; [f_equal; exact IH|].
      unfold is_done, stored in *. destruct (pos c); try discriminate. reflexivity.
  - rewrite Forall_forall in *. intros c Hin. specialize (Hall c Hin).
    unfold is_done in Hall. destruct (pos c) as [| | | |b] eqn:Hat;
      try discriminate.
    rewrite (Hans c b Hin Hat). reflexivity.
Qed.

(** X18: [cveLock] keeps the workers apart.  In every state the workers
    can reach at most one of them is between its [Lock] and its [Unlock],
    and the mutex is held exactly when one is. *)
Theorem cveLock_exclusive (found : list string)
    (vulns : list SoftwareVulnerability) (schedule : list nat) (st : captured) :
  upsert_run schedule (upsert_start found vulns) = Some st ->
  (length (filter (fun c => holds_cveLock c = true) (workers st)) <= 1)%nat
  /\ (cveLock st = true <-> exists c, c ∈ workers st /\ holds_cveLock c = true).
Proof.
  intros Hrun.
  destruct (upsert_inv_run found vulns schedule _ st (upsert_inv_start found vulns) Hrun)
    as [_ Hlock _ _ _].
  split; [rewrite Hlock; destruct (cveLock st); lia|].
  destruct (cveLock st); split.
  - intros _.
    destruct (filter (fun c => holds_cveLock c = true) (workers st)) as [|c cs] eqn:Hf;
      [discriminate|].
    assert (c ∈ filter (fun c => holds_cveLock c = true) (workers st)) as Hc
      by (rewrite Hf; left).
    apply list_elem_of_filter in Hc as [Hc Hin]. exists c. auto.
  - reflexivity.
  - discriminate.
  - intros (c & Hin & Hc). rewrite (no_holder _ Hlock c Hin) in Hc. discriminate.
Qed.

Lemma step_progress (i : nat) (st st' : captured) :
  upsert_step i st = Some st' ->
  list_sum (map progress (workers st')) = S (list_sum (map progress (workers st))).
Proof.
  unfold upsert_step, advance.
  destruct (workers st !! i) as [[v p]|] eqn:Hi; [|discriminate]. simpl.
  assert (forall p' n n',
             progress {| vuln := v; pos := p |} = n ->
             progress {| vuln := v; pos := p' |} = n' ->
             list_sum (map progress (<[i := {| vuln := v; pos := p' |}]> (workers st)))
             + n = list_sum (map progress (workers st)) + n')%nat as Hsum.
  { intros p' n n' <- <-.
    destruct (lookup_split _ _ _ {| vuln := v; pos := p' |} Hi)
      as (l1 & l2 & -> & ->).
    rewrite !map_app, !list_sum_app. simpl. lia. }
  destruct p as [| |tmp| |b].
  - destruct (cveLock st); [discriminate|]. intros [= <-]. simpl.
    specialize (Hsum AtAppend 0 1 eq_refl eq_refl)%nat. lia.
  - intros [= <-]. simpl.
    specialize (Hsum (AtAssign (cvesFound st ++ [CVE v])) 1 2 eq_refl eq_refl)%nat.
    lia.
  - intros [= <-]. simpl.
    specialize (Hsum AtUnlock 2 3 eq_refl eq_refl)%nat. lia.
  - intros [= <-]. simpl.
    specialize (Hsum (Done false) 3 4 eq_refl eq_refl)%nat. lia.
  - discriminate.
Qed.

Lemma run_progress (schedule : list nat) (st st' : captured) :
  upsert_run schedule st = Some st' ->
  list_sum (map progress (workers st'))
  = (length schedule + list_sum (map progress (workers st)))%nat.
Proof.
  revert st. induction schedule as [|i rest IH]; intros st; simpl.
  - intros [= <-]. reflexivity.
  - destruct (upsert_step i st) as [st1|] eqn:Hstep; [|discriminate].
    intros Hrun. rewrite (IH _ Hrun), (step_progress _ _ _ Hstep). lia.
Qed.

Lemma progress_bound (cs : list worker) :
  (list_sum (map progress cs) <= 4 * length cs)%nat
  /\ (list_sum (map progress cs) = 4 * length cs
      <-> Forall (fun c => is_done c = true) cs)%nat.
Proof.
  induction cs as [|c cs [IH1 IH2]]; [split; [simpl; lia|split; auto]|].
  assert (progress c <= 4 /\ (progress c = 4 <-> is_done c = true))%nat as [Hc1 Hc2].
  { unfold progress, is_done. destruct (pos c); split; try lia;
      split; intros; try discriminate; try lia; reflexivity. }
  simpl map. simpl list_sum. rewrite length_cons. split; [lia|].
  rewrite Forall_cons, <- IH2, <- Hc2. lia.
Qed.

(** X19: the workers never block each other for good.  In every state
    they can reach either all have returned or one of them can step; a
    schedule has at most four steps for each worker, and exactly that many
    when all have returned. *)
Theorem upserts_never_stuck (found : list string)
    (vulns : list SoftwareVulnerability) (schedule : list nat) (st : captured) :
  upsert_run schedule (upsert_start found vulns) = Some st ->
  (Forall (fun c => is_done c = true) (workers st)
   \/ exists i, is_Some (upsert_step i st))
  /\ (length schedule <= 4 * length vulns)%nat
  /\ (length schedule = 4 * length vulns
      <-> Forall (fun c => is_done c = true) (workers st))%nat.
Proof.
  intros Hrun.
  pose proof (upsert_inv_run found vulns schedule _ st (upsert_inv_start found vulns) Hrun)
    as [Hargs Hlock _ _ _].
  split.
  - destruct (decide (Forall (fun c => is_done c = true) (workers st)))
      as [Hall|Hnot]; [left; exact Hall|right].
    destruct (cveLock st) eqn:Hmu.
    + destruct (filter (fun c => holds_cveLock c = true) (workers st)) as [|c cs] eqn:Hf;
        [discriminate|].
      assert (c ∈ filter (fun c => holds_cveLock c = true) (workers st)) as Hc
        by (rewrite Hf; left).
      apply list_elem_of_filter in Hc as [Hc Hin].
      apply list_elem_of_lookup in Hin as [i Hi]. exists i.
      unfold upsert_step. rewrite Hi. unfold holds_cveLock in Hc.
      destruct (pos c); try discriminate; eexists; reflexivity.
    + apply not_Forall_Exists in Hnot; [|intros c; apply _].
      apply Exists_exists in Hnot as (c & Hin & Hc). simpl in Hc.
      pose proof (no_holder _ Hlock c Hin) as Hidle.
      apply list_elem_of_lookup in Hin as [i Hi]. exists i.
      unfold upsert_step. rewrite Hi, Hmu. unfold holds_cveLock, is_done in *.
      destruct (pos c); try discriminate; try (eexists; reflexivity).
      exfalso. apply Hc. reflexivity.
  - pose proof (run_progress _ _ _ Hrun) as Hsum.
    assert (list_sum (map progress (workers (upsert_start found vulns))) = 0%nat) as Hzero.
    { clear. simpl. induction vulns as [|v vs IH]; [reflexivity|exact IH]. }
    rewrite Hzero, Nat.add_0_r in Hsum.
    assert (length (workers st) = length vulns) as Hlen
      by (rewrite <- Hargs, length_map; reflexivity).
    destruct (progress_bound (workers st)) as [Hb1 Hb2].
    rewrite Hsum, Hlen in *. split; [exact Hb1|exact Hb2].
Qed.


(** The assertions on the CVEs found do not look at their order. *)
Lemma cves_asserted_perm (tt : cvetest) (found found' : list string) :
  found ≡ₚ found' -> cves_asserted tt found = cves_asserted tt found'.
Proof.
  intros Hperm. unfold cves_asserted, Contains, ElementsMatch.
  assert (forall x, bool_decide (x ∈ found) = bool_decide (x ∈ found')) as Hin
    by (intros x; apply bool_decide_ext; rewrite Hperm; reflexivity).
  assert (forall (f g : string -> bool) (l : list string),
             (forall x, f x = g x) -> forallb f l = forallb g l) as Hext.
  { intros f g l Hfg. induction l as [|x l IH]; simpl; [reflexivity|].
    rewrite Hfg, IH. reflexivity. }
  f_equal; [destruct (continuestoUpdate tt)|].
  - apply Hext. intros x. apply Hin.
  - apply bool_decide_ext. rewrite Hperm. reflexivity.
  - apply Hext. intros x. rewrite Hin. reflexivity.
Qed.

(** X8: the verdict of a table sub-test does not depend on how the
    workers interleave.  Whatever the schedule of the calls of the
    recording closure, once all have returned the assertions on
    [cvesFound] ([require.Contains], [require.ElementsMatch],
    [require.NotContains]) give what they give on the CVEs of the calls
    in the order the calls were made; and the sub-test passes exactly
    when, besides, the run returned no error and the double notes that
    the retirement operation was invoked. *)
Theorem subtest_verdict_order_free (tt : cvetest)
    (vulns : list SoftwareVulnerability) (schedule : list nat) (st : captured) :
  upsert_run schedule (upsert_start [] vulns) = Some st ->
  Forall (fun w => is_done w = true) (workers st) ->
  cves_asserted tt (cvesFound st) = cves_asserted tt (map CVE vulns)
  /\ forall (err : option error) (m : tableMock),
       NVD.cvesFound m = cvesFound st ->
       subtest_passes tt err m = true
       <-> err = None
           /\ cves_asserted tt (map CVE vulns) = true
           /\ DeleteOutOfDateVulnerabilitiesFuncInvoked m = true.
Proof.
  intros Hrun Hall.
  assert (cves_asserted tt (cvesFound st) = cves_asserted tt (map CVE vulns))
    as Heq.
  { apply cves_asserted_perm.
    destruct (upsert_inv_run [] vulns schedule _ st (upsert_inv_start [] vulns)
                Hrun) as [Hargs _ _ Hfound _].
    rewrite Hfound, <- Hargs. simpl.
    replace (filter (fun w => stored w = true) (workers st)) with (workers st).
    - rewrite map_map. reflexivity.
    - clear -Hall. induction Hall as [|w ws Hw _ IH]; [reflexivity|].
      rewrite filter_cons_True; [f_equal; exact IH|].
      unfold is_done, stored in *. destruct (pos w); try discriminate.
      reflexivity. }
  split; [exact Heq|].
  intros err m Hm. unfold subtest_passes.
  rewrite Hm, Heq, !andb_true_iff, bool_decide_eq_true. tauto.
Qed.

Lemma upserts_all_recorded_witness :
  exists st,
    upsert_run second_first (upsert_start [] two_vulns) = Some st
    /\ cvesFound st ≡ₚ map CVE two_vulns
    /\ Forall (fun w => pos w = Done false) (workers st).
Proof.
  eexists. split; [reflexivity|].
  apply (upserts_all_recorded [] two_vulns second_first).
  - reflexivity.
  - repeat constructor.
Defined.

Lemma cveLock_exclusive_witness :
  exists st,
    upsert_run (take 2 second_first) (upsert_start [] two_vulns) = Some st
    /\ (length (filter (fun w => holds_cveLock w = true) (workers st)) <= 1)%nat
    /\ (cveLock st = true <-> exists w, w ∈ workers st /\ holds_cveLock w = true).
Proof.
  eexists. split; [reflexivity|].
  apply (cveLock_exclusive [] two_vulns (take 2 second_first)). reflexivity.
Defined.

Lemma upserts_never_stuck_witness :
  exists st,
    upsert_run (take 3 second_first) (upsert_start [] two_vulns) = Some st
    /\ (Forall (fun w => is_done w = true) (workers st)
        \/ exists i, is_Some (upsert_step i st))
    /\ (length (take 3 second_first) <= 4 * length two_vulns)%nat
    /\ (length (take 3 second_first) = 4 * length two_vulns
        <-> Forall (fun w => is_done w = true) (workers st))%nat.
Proof.
  eexists. split; [reflexivity|].
  apply (upserts_never_stuck [] two_vulns (take 3 second_first)). reflexivity.
Defined.

Lemma subtest_verdict_order_free_witness :
  exists st,
    upsert_run second_first (upsert_start [] two_vulns) = Some st
    /\ cvesFound st = ["CVE-2021-3572"; "CVE-2019-20916"]
    /\ cves_asserted pip_test (cvesFound st) = true.
Proof.
  eexists. split; [reflexivity|]. split; [reflexivity|].
  destruct (subtest_verdict_order_free pip_test two_vulns second_first _
              eq_refl) as [Heq _].
  - repeat constructor.
  - rewrite Heq. reflexivity.
Defined.

End UpsertFacts.

Module ThreadSafeFacts.
Import NVD ThreadSafe.

Section Facts.

Context {D : Type} `{Datastore D}.

Lemma lock_held_step (i : nat) (st st' : threadSafeDSMock D) :
  lock_held st -> mock_step i st = Some st' -> lock_held st'.
Proof.
  unfold lock_held, mock_step, proceed. intros [Hlock Hun].
  destruct (callers st !! i) as [[m p]|] eqn:Hi; [|discriminate]. simpl.
  assert (forall p', exists l1 l2,
             callers st = l1 ++ {| called := m; stage_of := p |} :: l2
             /\ <[i := {| called := m; stage_of := p' |}]> (callers st)
                = l1 ++ {| called := m; stage_of := p' |} :: l2) as Hsplit
    by (intros p'; exact (lookup_split _ _ _ _ Hi)).
  destruct p as [| |a|a].
  - destruct (guarded m) eqn:Hg.
    + destruct (mu st) eqn:Hmu; [discriminate|]. intros [= <-]. simpl.
      destruct (Hsplit InStore) as (l1 & l2 & Hcs & ->). rewrite Hcs in *.
      rewrite count_middle in *. unfold holds_mu in *. simpl in *.
      rewrite Hg in *. simpl in *. split; [lia|].
      rewrite Forall_app, Forall_cons in *. tauto.
    + intros [= <-]. simpl.
      destruct (Hsplit InStore) as (l1 & l2 & Hcs & ->). rewrite Hcs in *.
      rewrite count_middle in *. unfold holds_mu in *. simpl in *.
      rewrite Hg in *. simpl in *. split; [exact Hlock|].
      rewrite Forall_app, Forall_cons in *. tauto.
  - destruct (invoke m (Store st)) as [d' a]. intros [= <-]. simpl.
    destruct (Hsplit (if guarded m then Unlocking a else Finished a))
      as (l1 & l2 & Hcs & ->). rewrite Hcs in *.
    rewrite count_middle in *. unfold holds_mu in *. simpl in *.
    rewrite Forall_app, Forall_cons in *.
    destruct (guarded m) eqn:Hg; simpl in *; (split; [exact Hlock|]);
      rewrite ?Hg; tauto.
  - intros [= <-]. simpl.
    destruct (Hsplit (Finished a)) as (l1 & l2 & Hcs & ->). rewrite Hcs in *.
    rewrite count_middle in *. unfold holds_mu in *.
    rewrite Forall_app, Forall_cons in *. simpl in *.
    destruct Hun as (Hun1 & Hg & Hun2). rewrite Hg in *. simpl in *.
    split; [destruct (mu st); lia|tauto].
  - discriminate.
Qed.

Lemma lock_held_run (schedule : list nat) (st st' : threadSafeDSMock D) :
  lock_held st -> mock_run schedule st = Some st' -> lock_held st'.
Proof.
  revert st. induction schedule as [|i rest IH]; intros st Hinv; simpl.
  - intros [= <-]. exact Hinv.
  - destruct (mock_step i st) as [st1|] eqn:Hstep; [|discriminate].
    apply IH. exact (lock_held_step _ _ _ Hinv Hstep).
Qed.

Lemma lock_held_start (ds : D) (methods : list method) :
  lock_held (mock_start ds methods).
Proof.
  unfold lock_held. simpl. split.
  - induction methods as [|m ms IH]; [reflexivity|]. simpl.
    rewrite filter_cons_False; [exact IH|].
    unfold holds_mu. simpl. rewrite andb_false_r. discriminate.
  - apply Forall_forall. intros c Hin.
    apply list_elem_of_fmap in Hin as (m & -> & _). exact I.
Qed.

(** X20: [threadSafeDSMock] lets one caller at a time into the store
    through [ListSoftwareCPEs] and [InsertSoftwareVulnerability]: in every
    state the callers can reach at most one such call is inside the method
    of the store, and the mutex is held exactly when a caller is between
    its [Lock] and its [Unlock]. *)
Theorem threadSafeDSMock_exclusive (ds : D) (methods : list method)
    (schedule : list nat) (st : threadSafeDSMock D) :
  mock_run schedule (mock_start ds methods) = Some st ->
  (length (filter (fun c => guarded (called c) && in_store c = true) (callers st))
   <= 1)%nat
  /\ length (filter (fun c => holds_mu c = true) (callers st))
     = (if mu st then 1%nat else 0%nat).
Proof.
  intros Hrun.
  pose proof (lock_held_run schedule _ st (lock_held_start ds methods) Hrun)
    as [Hlock _].
  split; [|exact Hlock].
  assert (length (filter (fun c => guarded (called c) && in_store c = true)
                    (callers st))
          <= length (filter (fun c => holds_mu c = true) (callers st)))%nat as Hle.
  { apply (count_le (fun c => guarded (called c) && in_store c) holds_mu).
    intros c. unfold holds_mu, in_store.
    destruct (guarded (called c)), (stage_of c); simpl; auto. }
  rewrite Hlock in Hle.
  destruct (mu st); lia.
Qed.

(** The promoted method is not kept out: a retirement can be inside the
    store while an upsert is. *)
Lemma delete_overlaps (ds : D) (vuln : SoftwareVulnerability)
    (src source : VulnerabilitySource) (d : duration) :
  exists st,
    mock_run [0; 1]%nat
      (mock_start ds [CallInsertSoftwareVulnerability vuln src;
                 CallDeleteOutOfDateVulnerabilities source d]) = Some st
    /\ Forall (fun c => in_store c = true) (callers st).
Proof. eexists. split; [reflexivity|]. repeat constructor. Qed.

End Facts.


Lemma threadSafeDSMock_exclusive_witness :
  exists st,
    mock_run [1; 2; 2; 1; 1; 0]%nat
      (mock_start {| isNewAnswer := true |} three_methods) = Some st
    /\ (length (filter (fun c => guarded (called c) && in_store c = true)
                  (callers st)) <= 1)%nat
    /\ length (filter (fun c => holds_mu c = true) (callers st))
       = (if mu st then 1%nat else 0%nat).
Proof.
  eexists. split; [reflexivity|].
  apply (threadSafeDSMock_exclusive {| isNewAnswer := true |} three_methods
           [1; 2; 2; 1; 1; 0]%nat).
  reflexivity.
Defined.

End ThreadSafeFacts.
